(** * ShipEngine IPaaS SDK: entities, freezing and carrier method wrappers

    A shallow embedding of the SDK's immutability helper ([hideAndFreeze],
    utils), of the [DeliveryService], [TrackingInfo] and [Carrier] entities
    and of the wrappers the [Carrier] class puts around user-defined methods,
    with the properties the specification states about them.

    The code is TypeScript running on a JavaScript engine, so the embedding
    has two layers:
    - an object layer ([JS]): a heap of objects with property attributes,
      prototype links and the [[Extensible]] flag, on which [Object.freeze],
      [Object.defineProperty], property reads, strict-mode assignment and
      [delete] are written out after ECMA-262;
    - a data layer ([CarrierData], and the [serviceArea] getter of
      [DeliveryService]): the field values that the [Carrier] constructor
      computes from a POJO and that [toJSON] writes back.  The getters that
      gather the fields of the delivery services ([CarrierGetters],
      [DeliveryServiceGetters]), [createNotes] ([UtilsNotes]) and the
      patterns of [regex] ([Patterns]) are on this layer too.

    Classes, enumerations and helpers that the sources import but do not
    contain are parameters (the [Imports] records and the section
    variables).  The definitions come first, then the facts about them, then
    the properties, each with the claim it settles. *)

From Stdlib Require Import ZArith.
From stdpp Require Import base tactics option list strings.

(** ** The object layer *)

Module JS.

(** Locations are indices into the heap. *)
Abbreviation loc := nat (only parsing).

(** Property keys: strings, and symbols (identified by a number). *)
Inductive key :=
| KStr (s : string)
| KSym (n : nat).

Inductive value :=
| VUndef
| VNull
| VBool (b : bool)
| VNum (z : Z)
| VStr (s : string)
| VRef (l : loc).

#[global] Instance key_eq_dec : EqDecision key.
Proof. solve_decision. Defined.

#[global] Instance value_eq_dec : EqDecision value.
Proof. solve_decision. Defined.

(** What an object is besides its properties: an ordinary object or an
    array, a function, a Node.js [Buffer] of [len] bytes, another typed array
    of [len] elements, a built-in [Set] with its members. *)
Inductive kind :=
| KOrdinary
| KFunction
| KBuffer (len : nat)
| KTypedArray (len : nat)
| KSet (members : list value).

(** Own properties are data properties: in this SDK accessors (the entities'
    getters) live on class prototypes, never on an instance or a POJO. *)
Record prop := Prop_ {
  p_value : value;
  p_enumerable : bool;
  p_writable : bool;
  p_configurable : bool
}.

(** An object: its properties are kept in creation order. *)
Record obj := Obj {
  o_kind : kind;
  o_proto : option loc;
  o_extensible : bool;
  o_props : list (key * prop)
}.

Abbreviation heap := (list obj) (only parsing).

(** The members of the [ErrorCode] enumeration that the wrappers use. *)
Inductive ErrorCode := InvalidInput | AppError.

(** Values that can be thrown: the engine's [TypeError], a failed
    validation, any value thrown by user code, and the error object built by
    the SDK's [error] helper with the properties it is given. *)
Inductive thrown :=
| TypeError
| ValidationError
| Thrown (v : value)
| SdkError (code : ErrorCode) (message : string)
           (originalError : thrown) (transactionID : option string).

(** Completion of a computation over a state [S]: normal, abrupt (a throw),
    or [Stuck] when a reference points outside the heap, which no JavaScript
    program can produce. *)
Inductive result (S A : Type) :=
| Ok (a : A) (s : S)
| Throw (e : thrown) (s : S)
| Stuck.
Arguments Ok {S A} a s.
Arguments Throw {S A} e s.
Arguments Stuck {S A}.

Definition M (S A : Type) := S -> result S A.

Definition ret {S A} (a : A) : M S A := fun s => Ok a s.

Definition throw {S A} (e : thrown) : M S A := fun s => Throw e s.

Definition bind {S A B} (m : M S A) (k : A -> M S B) : M S B :=
  fun s => match m s with
           | Ok a s' => k a s'
           | Throw e s' => Throw e s'
           | Stuck => Stuck
           end.

(** [try { m } catch (e) { handler e }] *)
Definition try_catch {S A} (m : M S A) (handler : thrown -> M S A) : M S A :=
  fun s => match m s with
           | Throw e s' => handler e s'
           | r => r
           end.

Notation "'let*' x := m 'in' k" := (bind m (fun x => k))
  (at level 10, x binder, m at level 100, k at level 200).
Notation "m ;; k" := (bind m (fun _ => k))
  (at level 100, k at level 200, right associativity).

(** *** Property tables *)

Fixpoint alist_lookup (k : key) (ps : list (key * prop)) : option prop :=
  match ps with
  | [] => None
  | (k', p) :: ps' => if decide (k = k') then Some p else alist_lookup k ps'
  end.

Fixpoint alist_update (k : key) (p : prop) (ps : list (key * prop)) : list (key * prop) :=
  match ps with
  | [] => []
  | (k', p') :: ps' =>
      if decide (k = k') then (k', p) :: ps' else (k', p') :: alist_update k p ps'
  end.

Fixpoint alist_remove (k : key) (ps : list (key * prop)) : list (key * prop) :=
  match ps with
  | [] => []
  | (k', p') :: ps' =>
      if decide (k = k') then ps' else (k', p') :: alist_remove k ps'
  end.

Definition own_prop (h : heap) (l : loc) (k : key) : option prop :=
  o ← h !! l; alist_lookup k (o_props o).

Definition with_props (o : obj) (ps : list (key * prop)) : obj :=
  Obj (o_kind o) (o_proto o) (o_extensible o) ps.

(** A property created by assignment or by an object literal. *)
Definition data_prop (v : value) : prop := Prop_ v true true true.

(** *** Reads *)

Definition read_obj (l : loc) : M heap obj :=
  fun h => match h !! l with
           | Some o => Ok o h
           | None => Stuck
           end.

Definition alloc (o : obj) : M heap loc :=
  fun h => Ok (length h) (h ++ [o]).

(** The array literal [[]] and the object literal [{}]. *)
Definition empty_array : obj :=
  Obj KOrdinary None true [(KStr "length", Prop_ (VNum 0) false true false)].

Definition empty_object : obj := Obj KOrdinary None true [].

(** [typeof v === "function"] *)
Definition callable (h : heap) (v : value) : bool :=
  match v with
  | VRef l =>
      match h !! l with
      | Some o => match o_kind o with KFunction => true | _ => false end
      | None => false
      end
  | _ => false
  end.

(** The property [k] as found on [l] or along its prototype chain.  An
    object is created after its prototype, so a link goes to a lower
    location and [S l] steps are enough from [l]; a link that does not go
    down ends the chain. *)
Fixpoint lookup_chain (fuel : nat) (h : heap) (l : loc) (k : key) : option prop :=
  match fuel with
  | 0 => None
  | S fuel' =>
      match h !! l with
      | None => None
      | Some o =>
          match alist_lookup k (o_props o) with
          | Some p => Some p
          | None =>
              match o_proto o with
              | Some l' => if decide (l' < l) then lookup_chain fuel' h l' k else None
              | None => None
              end
          end
      end
  end.

Definition lookup_field (h : heap) (l : loc) (k : key) : option prop :=
  lookup_chain (S l) h l k.

(** [target[k]] ([[Get]]): a read of [undefined] or [null] throws; a
    primitive has no property of the names this SDK reads. *)
Definition Get (target : value) (k : key) : M heap value :=
  match target with
  | VUndef | VNull => throw TypeError
  | VRef l =>
      let* _ := read_obj l in
      fun h => match lookup_field h l k with
               | Some p => Ok (p_value p) h
               | None => Ok VUndef h
               end
  | _ => ret VUndef
  end.

(** ToBoolean *)
Definition truthy (v : value) : bool :=
  match v with
  | VUndef | VNull => false
  | VBool b => b
  | VNum z => negb (Z.eqb z 0)
  | VStr s => negb (String.eqb s "")
  | VRef _ => true
  end.

(** [typeof v] *)
Definition typeof (v : value) : M heap string :=
  match v with
  | VUndef => ret "undefined"
  | VNull => ret "object"
  | VBool _ => ret "boolean"
  | VNum _ => ret "number"
  | VStr _ => ret "string"
  | VRef l =>
      let* o := read_obj l in
      match o_kind o with
      | KFunction => ret "function"
      | _ => ret "object"
      end
  end.

(** [v instanceof Buffer] *)
Definition instanceof_Buffer (v : value) : M heap bool :=
  match v with
  | VRef l =>
      let* o := read_obj l in
      match o_kind o with
      | KBuffer _ => ret true
      | _ => ret false
      end
  | _ => ret false
  end.

(** [v] is an object that is [instanceof Buffer], as a test on the heap. *)
Definition buffer_valued (h : heap) (v : value) : bool :=
  match v with
  | VRef l =>
      match h !! l with
      | Some o => match o_kind o with KBuffer _ => true | _ => false end
      | None => false
      end
  | _ => false
  end.

(** [Object.entries(obj)]: the own enumerable string-keyed properties, here
    in creation order (the engine lists integer-like keys first). *)
Fixpoint entries_of (ps : list (key * prop)) : list (string * value) :=
  match ps with
  | [] => []
  | (KStr s, p) :: ps' =>
      if p_enumerable p then (s, p_value p) :: entries_of ps' else entries_of ps'
  | (KSym _, _) :: ps' => entries_of ps'
  end.

Definition Object_entries (l : loc) : M heap (list (string * value)) :=
  let* o := read_obj l in ret (entries_of (o_props o)).

(** [Object.getOwnPropertySymbols(obj)] *)
Fixpoint symbols_of (ps : list (key * prop)) : list nat :=
  match ps with
  | [] => []
  | (KSym n, _) :: ps' => n :: symbols_of ps'
  | (KStr _, _) :: ps' => symbols_of ps'
  end.

Definition Object_getOwnPropertySymbols (l : loc) : M heap (list nat) :=
  let* o := read_obj l in ret (symbols_of (o_props o)).

(** *** Writes *)

Definition write_obj (l : loc) (o : obj) : M heap unit :=
  fun h => Ok tt (<[l := o]> h).

Definition freeze_prop (p : prop) : prop :=
  Prop_ (p_value p) (p_enumerable p) false false.

Definition freeze_obj (o : obj) : obj :=
  Obj (o_kind o) (o_proto o) false
      (map (fun kp => (kp.1, freeze_prop kp.2)) (o_props o)).

(** The elements of a typed array cannot be made read-only
    (nodejs/node#27080): only an empty one can be frozen. *)
Definition freezable (k : kind) : bool :=
  match k with
  | KBuffer (S _) | KTypedArray (S _) => false
  | _ => true
  end.

(** [Object.freeze(v)] (SetIntegrityLevel "frozen"): a non-object is
    returned as it is; an object is first made non-extensible, then each own
    property is made read-only, which a typed array's element refuses. *)
Definition Object_freeze (v : value) : M heap value :=
  match v with
  | VRef l =>
      let* o := read_obj l in
      if freezable (o_kind o)
      then (write_obj l (freeze_obj o);; ret v)
      else (write_obj l (Obj (o_kind o) (o_proto o) false (o_props o));;
            throw TypeError)
  | _ => ret v
  end.

(** [Object.defineProperty(obj, k, { enumerable: false })]
    (ValidateAndApplyPropertyDescriptor): a configurable property has its
    attribute changed, a non-configurable one must already have it; a
    missing property is created with the default attributes. *)
Definition Object_defineProperty_hidden (l : loc) (k : key) : M heap unit :=
  let* o := read_obj l in
  match alist_lookup k (o_props o) with
  | Some p =>
      if p_configurable p || negb (p_enumerable p)
      then write_obj l (with_props o
             (alist_update k (Prop_ (p_value p) false (p_writable p) (p_configurable p))
                           (o_props o)))
      else throw TypeError
  | None =>
      if o_extensible o
      then write_obj l (with_props o (o_props o ++ [(k, Prop_ VUndef false false false)]))
      else throw TypeError
  end.

(** [target[k] = v] in strict mode (class bodies and modules are strict):
    OrdinarySet on data properties. *)
Definition Set_ (target : value) (k : key) (v : value) : M heap unit :=
  match target with
  | VRef l =>
      let* o := read_obj l in
      match alist_lookup k (o_props o) with
      | Some p =>
          if p_writable p
          then write_obj l (with_props o
                 (alist_update k (Prop_ v (p_enumerable p) true (p_configurable p))
                               (o_props o)))
          else throw TypeError
      | None =>
          fun h =>
            match lookup_field h l k with
            | Some p' =>
                if p_writable p' && o_extensible o
                then write_obj l (with_props o (o_props o ++ [(k, data_prop v)])) h
                else Throw TypeError h
            | None =>
                if o_extensible o
                then write_obj l (with_props o (o_props o ++ [(k, data_prop v)])) h
                else Throw TypeError h
            end
      end
  | _ => throw TypeError
  end.

(** [delete target[k]] in strict mode. *)
Definition Delete (target : value) (k : key) : M heap bool :=
  match target with
  | VRef l =>
      let* o := read_obj l in
      match alist_lookup k (o_props o) with
      | Some p =>
          if p_configurable p
          then (write_obj l (with_props o (alist_remove k (o_props o)));; ret true)
          else throw TypeError
      | None => ret true
      end
  | VUndef | VNull => throw TypeError
  | _ => ret true
  end.

(** [Set.prototype.add.call(target, v)] *)
Definition Set_add (target : value) (v : value) : M heap value :=
  match target with
  | VRef l =>
      let* o := read_obj l in
      match o_kind o with
      | KSet members =>
          write_obj l (Obj (KSet (if decide (v ∈ members) then members else members ++ [v]))
                           (o_proto o) (o_extensible o) (o_props o));;
          ret target
      | _ => throw TypeError
      end
  | _ => throw TypeError
  end.

(** *** Frozen objects *)

Definition prop_frozen (kp : key * prop) : bool :=
  negb (p_writable kp.2) && negb (p_configurable kp.2).

(** [Object.isFrozen] on an object. *)
Definition obj_frozen (o : obj) : bool :=
  freezable (o_kind o) && negb (o_extensible o) && forallb prop_frozen (o_props o).

Definition is_frozen (h : heap) (l : loc) : bool :=
  match h !! l with
  | Some o => obj_frozen o
  | None => false
  end.

(** [Object.isFrozen(v)]: a primitive is frozen. *)
Definition value_frozen (h : heap) (v : value) : bool :=
  match v with
  | VRef l => is_frozen h l
  | _ => true
  end.

(** What a frozen object refuses: assignment to a field, old or new, and
    deletion of a field it has.  The heap is left as it was. *)
Definition immutable (h : heap) (l : loc) : Prop :=
  is_frozen h l = true /\
  (forall k v, Set_ (VRef l) k v h = Throw TypeError h) /\
  (forall k, (own_prop h l k = None /\ Delete (VRef l) k h = Ok true h) \/
             (is_Some (own_prop h l k) /\ Delete (VRef l) k h = Throw TypeError h)).

End JS.


(** ** How the heap may change *)

Module HeapRelations.
Import JS.

(** [kp'] is the property [kp] with its key and its value; it may have lost
    attributes, the enumerability of a string-keyed property apart.  Objects
    and heaps evolve when their properties do. *)
Definition prop_evolves (kp kp' : key * prop) : Prop :=
  kp'.1 = kp.1 /\ p_value kp'.2 = p_value kp.2 /\
  (p_writable kp'.2 = true -> p_writable kp.2 = true) /\
  (p_configurable kp'.2 = true -> p_configurable kp.2 = true) /\
  match kp.1 with
  | KStr _ => p_enumerable kp'.2 = p_enumerable kp.2
  | KSym _ => p_enumerable kp'.2 = true -> p_enumerable kp.2 = true
  end.

Definition obj_evolves (o o' : obj) : Prop :=
  o_kind o' = o_kind o /\ o_proto o' = o_proto o /\
  (o_extensible o' = true -> o_extensible o = true) /\
  Forall2 prop_evolves (o_props o) (o_props o').

Definition heap_evolves (h h' : heap) : Prop := Forall2 obj_evolves h h'.

(** [o'] has the fields of [o] with the same values, and the same prototype;
    attributes may differ (the object may have been frozen). *)
Definition same_fields (o o' : obj) : Prop :=
  o_proto o' = o_proto o /\
  Forall2 (fun kp kp' : key * prop => kp'.1 = kp.1 /\ p_value kp'.2 = p_value kp.2)
          (o_props o) (o_props o').

(** The objects below [n] keep their fields. *)
Definition preserved (n : nat) (h h' : heap) : Prop :=
  forall l o, l < n -> h !! l = Some o -> exists o', h' !! l = Some o' /\ same_fields o o'.

(** Every object keeps its fields; new objects may have been created. *)
Definition heap_grows (h h' : heap) : Prop :=
  forall l o, h !! l = Some o -> exists o', h' !! l = Some o' /\ same_fields o o'.

(** Computations that leave the objects below [n] with their fields. *)
Definition keeps (n : nat) {A} (m : M heap A) : Prop :=
  forall h a h', m h = Ok a h' -> preserved n h h'.

End HeapRelations.


(** ** Heaps without dangling references *)

Module HeapShapes.
Import JS.

(** A value that is a reference points into the heap. *)
Definition value_in (h : heap) (v : value) : Prop :=
  match v with
  | VRef l => l < length h
  | _ => True
  end.

(** Every field of every object holds such a value: the heaps that a
    JavaScript program can build. *)
Definition closed (h : heap) : Prop :=
  forall l o k p, h !! l = Some o -> (k, p) ∈ o_props o -> value_in h (p_value p).

(** [v] is an object that [Object.freeze] refuses: a typed array (a
    [Buffer] is one) that has elements. *)
Definition unfreezable (h : heap) (v : value) : bool :=
  match v with
  | VRef l =>
      match h !! l with
      | Some o => negb (freezable (o_kind o))
      | None => false
      end
  | _ => false
  end.

(** [this] is there, its prototype is [proto] and it has no own field [k]:
    a read of [k] goes on to the prototype. *)
Definition inherits (h : heap) (this : loc) (proto : option loc) (k : key) : Prop :=
  exists o, h !! this = Some o /\ o_proto o = proto /\ alist_lookup k (o_props o) = None.

(** Computations that leave it so. *)
Definition leaves (this : loc) (proto : option loc) (k : key) {A} (m : M heap A) : Prop :=
  forall h a h', m h = Ok a h' -> inherits h this proto k -> inherits h' this proto k.

End HeapShapes.

(** ** utils: [hideAndFreeze] *)

Module Utils.
Import JS.

(** [export const _internal = Symbol("internal fields")] *)
Definition _internal : nat := 0.

(** The body of the first loop: freeze an object or function value, a
    [Buffer] apart. *)
Definition freeze_field (value : value) : M heap unit :=
  let* type := typeof value in
  if String.eqb type "object" || String.eqb type "function"
  then
    let* is_buffer := instanceof_Buffer value in
    if negb is_buffer then (Object_freeze value;; ret tt) else ret tt
  else ret tt.

(** The first loop of [hideAndFreeze], over [Object.entries(obj)]. *)
Fixpoint freeze_fields (omit : list string) (es : list (string * value)) : M heap unit :=
  match es with
  | [] => ret tt
  | (key, value) :: es' =>
      if bool_decide (key ∈ omit) then freeze_fields omit es'
      else (freeze_field value;; freeze_fields omit es')
  end.

(** The body of the second loop: make the symbol field non-enumerable and
    freeze its value. *)
Definition hide_symbol (obj : loc) (symbol : nat) : M heap unit :=
  Object_defineProperty_hidden obj (KSym symbol);;
  let* v := Get (VRef obj) (KSym symbol) in
  Object_freeze v;;
  ret tt.

(** The second loop, over [Object.getOwnPropertySymbols(obj)]. *)
Fixpoint hide_symbols (obj : loc) (symbols : list nat) : M heap unit :=
  match symbols with
  | [] => ret tt
  | symbol :: symbols' => hide_symbol obj symbol;; hide_symbols obj symbols'
  end.

Definition hideAndFreeze (obj : loc) (omit : list string) : M heap unit :=
  let* es := Object_entries obj in
  freeze_fields omit es;;
  let* symbols := Object_getOwnPropertySymbols obj in
  hide_symbols obj symbols;;
  Object_freeze (VRef obj);;
  ret tt.

(** The state [hideAndFreeze obj omit] leaves [obj] in. *)
Definition settled (h : heap) (obj : loc) (omit : list string) : Prop :=
  exists o, h !! obj = Some o /\ obj_frozen o = true /\
    (forall s v, (s, v) ∈ entries_of (o_props o) -> s ∉ omit ->
       buffer_valued h v = false -> value_frozen h v = true) /\
    (forall n, n ∈ symbols_of (o_props o) ->
       exists p, alist_lookup (KSym n) (o_props o) = Some p /\
                 p_enumerable p = false /\ value_frozen h (p_value p) = true).

End Utils.


(** ** utils: the regular expression patterns *)

Module Patterns.
Import Stdlib.Strings.Ascii.

(** *** Regular expressions

    The patterns of [regex] use characters, character classes, grouping,
    alternation and the quantifiers [?], [*], [+] and [{n}]; they have no
    flag, no back-reference and no look-around.  For such a pattern
    [pattern.test(s)] asks whether [s], or a part of [s] where the pattern
    has no anchor, is in the language of the expression: the engine's
    backtracking search finds a match exactly when there is one.

    Strings are strings of 8-bit characters here.  The classes of the
    patterns are ranges of ASCII characters and [\d], which without the [u]
    flag is [[0-9]], so that a character outside ASCII is in none of them,
    as in the engine. *)

(** An item of a character class: [c] or [lo-hi]. *)
Inductive class_item :=
| One (c : ascii)
| FromTo (lo hi : ascii).

Inductive regex :=
| Void                              (** matches no string *)
| Eps                               (** the empty expression *)
| Chr (c : ascii)                   (** the character [c] *)
| Class (items : list class_item)   (** [[...]] *)
| Alt (r1 r2 : regex)               (** [r1|r2] *)
| Seq (r1 r2 : regex)               (** [r1r2] *)
| Star (r : regex).                 (** [r*] *)

(** [r?], [r+] and [r{n}] *)
Definition Opt (r : regex) : regex := Alt r Eps.

Definition Plus (r : regex) : regex := Seq r (Star r).

Fixpoint Repeat (n : nat) (r : regex) : regex :=
  match n with
  | 0 => Eps
  | 1 => r
  | S n' => Seq r (Repeat n' r)
  end.

(** The expression of a literal string. *)
Fixpoint Lit (s : string) : regex :=
  match s with
  | EmptyString => Eps
  | String c EmptyString => Chr c
  | String c s' => Seq (Chr c) (Lit s')
  end.

(** [\d] is [[0-9]]. *)
Definition digit : regex := Class [FromTo "0" "9"].

(** *** Matching, by derivatives *)

Definition in_item (c : ascii) (i : class_item) : bool :=
  match i with
  | One c' => Ascii.eqb c c'
  | FromTo lo hi =>
      (Ascii.nat_of_ascii lo <=? Ascii.nat_of_ascii c)
      && (Ascii.nat_of_ascii c <=? Ascii.nat_of_ascii hi)
  end.

Definition in_class (items : list class_item) (c : ascii) : bool :=
  existsb (in_item c) items.

(** [r] matches the empty string. *)
Fixpoint nullable (r : regex) : bool :=
  match r with
  | Void => false
  | Eps => true
  | Chr _ => false
  | Class _ => false
  | Alt r1 r2 => nullable r1 || nullable r2
  | Seq r1 r2 => nullable r1 && nullable r2
  | Star _ => true
  end.

(** What remains of [r] to match once [c] is read. *)
Fixpoint deriv (c : ascii) (r : regex) : regex :=
  match r with
  | Void => Void
  | Eps => Void
  | Chr c' => if Ascii.eqb c c' then Eps else Void
  | Class items => if in_class items c then Eps else Void
  | Alt r1 r2 => Alt (deriv c r1) (deriv c r2)
  | Seq r1 r2 =>
      if nullable r1 then Alt (Seq (deriv c r1) r2) (deriv c r2)
      else Seq (deriv c r1) r2
  | Star r1 => Seq (deriv c r1) (Star r1)
  end.

(** [r] matches the whole of [s]. *)
Fixpoint matches (r : regex) (s : string) : bool :=
  match s with
  | EmptyString => nullable r
  | String c s' => matches (deriv c r) s'
  end.

(** [r] matches a prefix of [s]. *)
Fixpoint matches_prefix (r : regex) (s : string) : bool :=
  nullable r ||
  match s with
  | EmptyString => false
  | String c s' => matches_prefix (deriv c r) s'
  end.

(** A pattern [/^body$/], or [/^body/] when it has no [$]. *)
Record pattern := Pattern {
  body : regex;
  to_end : bool
}.

(** [pattern.test(s)] *)
Definition test (p : pattern) (s : string) : bool :=
  if to_end p then matches (body p) s else matches_prefix (body p) s.

(** *** The patterns *)

Definition lower : regex := Class [FromTo "a" "z"].
Definition upper : regex := Class [FromTo "A" "Z"].
Definition lower_or_digit : regex := Class [FromTo "a" "z"; FromTo "0" "9"].
Definition sign : regex := Class [One "+"; One "-"].

(** The two groups of [isoDateTime]: the local date and time,
    [\d{4}-\d{2}-\d{2}T\d{2}:\d{2}:\d{2}(?:\.\d+)?], and the time zone,
    [[+-]\d{2}:\d{2}|Z]. *)
Definition localDateTime : regex :=
  Seq (Repeat 4 digit)
    (Seq (Chr "-") (Seq (Repeat 2 digit)
       (Seq (Chr "-") (Seq (Repeat 2 digit)
          (Seq (Chr "T") (Seq (Repeat 2 digit)
             (Seq (Chr ":") (Seq (Repeat 2 digit)
                (Seq (Chr ":") (Seq (Repeat 2 digit)
                   (Opt (Seq (Chr ".") (Plus digit))))))))))))).

Definition timeZone : regex :=
  Alt (Seq sign (Seq (Repeat 2 digit) (Seq (Chr ":") (Repeat 2 digit)))) (Chr "Z").

(** [/^(\d{4}-\d{2}-\d{2}T\d{2}:\d{2}:\d{2}(?:\.\d+)?)([+-]\d{2}:\d{2}|Z)?$/] *)
Definition isoDateTime : pattern :=
  Pattern (Seq localDateTime (Opt timeZone)) true.

(** [/^[+-]([01][0-9]|2[0-3]):[0-5][0-9]$/] *)
Definition utcOffset : pattern :=
  Pattern
    (Seq sign
       (Seq (Alt (Seq (Class [One "0"; One "1"]) (Class [FromTo "0" "9"]))
                 (Seq (Chr "2") (Class [FromTo "0" "3"])))
          (Seq (Chr ":")
             (Seq (Class [FromTo "0" "5"]) (Class [FromTo "0" "9"])))))
    true.

(** A name of lower-case letters and digits in groups joined by hyphens:
    [[a-z][a-z0-9]*(-[a-z0-9]+)*]. *)
Definition hyphen_groups : regex := Star (Seq (Chr "-") (Plus lower_or_digit)).

Definition kebab : regex := Seq lower (Seq (Star lower_or_digit) hyphen_groups).

(** [/^\@[a-z][a-z0-9]*(-[a-z0-9]+)*\/[a-z][a-z0-9]*(-[a-z0-9]+)*$/] *)
Definition appName : pattern :=
  Pattern (Seq (Chr "@") (Seq kebab (Seq (Chr "/") kebab))) true.

(** [/^\d+\.\d+\.\d+/] *)
Definition semver : pattern :=
  Pattern
    (Seq (Plus digit) (Seq (Chr ".") (Seq (Plus digit) (Seq (Chr ".") (Plus digit)))))
    false.

(** [/^\d+(\.\d+)?$/] *)
Definition money : pattern :=
  Pattern (Seq (Plus digit) (Opt (Seq (Chr ".") (Plus digit)))) true.

(** [/^https?:\/\//] *)
Definition protocol : pattern :=
  Pattern (Seq (Lit "http") (Seq (Opt (Chr "s")) (Lit "://"))) false.

(** [/^[a-z]{2}(-[A-Z]{2})?$/] *)
Definition locale : pattern :=
  Pattern (Seq (Repeat 2 lower) (Opt (Seq (Chr "-") (Repeat 2 upper)))) true.

(** *** The language of an expression *)

Inductive lang : regex -> string -> Prop :=
| lang_Eps : lang Eps ""
| lang_Chr c : lang (Chr c) (String c "")
| lang_Class items c : in_class items c = true -> lang (Class items) (String c "")
| lang_Alt_l r1 r2 s : lang r1 s -> lang (Alt r1 r2) s
| lang_Alt_r r1 r2 s : lang r2 s -> lang (Alt r1 r2) s
| lang_Seq r1 r2 s1 s2 : lang r1 s1 -> lang r2 s2 -> lang (Seq r1 r2) (s1 +:+ s2)
| lang_Star_nil r : lang (Star r) ""
| lang_Star_cons r s1 s2 : lang r s1 -> lang (Star r) s2 -> lang (Star r) (s1 +:+ s2).

(** *** Characters and strings of digits *)

Definition is_digit (c : ascii) : bool := in_class [FromTo "0" "9"] c.
Definition is_lower (c : ascii) : bool := in_class [FromTo "a" "z"] c.
Definition is_upper (c : ascii) : bool := in_class [FromTo "A" "Z"] c.

(** The number that a digit stands for. *)
Definition digit_value (c : ascii) : nat := Ascii.nat_of_ascii c - 48.

(** Every character of [s] is a digit. *)
Fixpoint all_digits (s : string) : bool :=
  match s with
  | EmptyString => true
  | String c s' => is_digit c && all_digits s'
  end.

(** [s] is one digit or more. *)
Definition number (s : string) : bool :=
  match s with
  | EmptyString => false
  | _ => all_digits s
  end.

(** The offsets of [utcOffset]: a sign, the hours from 00 to 23, a colon,
    the minutes from 00 to 59. *)
Definition offset_shape (s : string) : Prop :=
  exists sg h1 h2 m1 m2,
    s = String sg (String h1 (String h2 (String ":" (String m1 (String m2 ""))))) /\
    (sg = "+" \/ sg = "-")%char /\
    is_digit h1 = true /\ is_digit h2 = true /\
    is_digit m1 = true /\ is_digit m2 = true /\
    10 * digit_value h1 + digit_value h2 < 24 /\
    10 * digit_value m1 + digit_value m2 < 60.

(** *** Names in kebab case *)

Definition is_lower_or_digit (c : ascii) : bool :=
  in_class [FromTo "a" "z"; FromTo "0" "9"] c.

(** Every character of [s] is in the class. *)
Fixpoint all_in_class (items : list class_item) (s : string) : bool :=
  match s with
  | EmptyString => true
  | String c s' => in_class items c && all_in_class items s'
  end.

(** Every character of [s] is a lower-case letter, a digit, or a hyphen
    that a lower-case letter or a digit follows: [s] has no other
    character, no two hyphens in a row and no hyphen at its end. *)
Fixpoint hyphenated (s : string) : bool :=
  match s with
  | EmptyString => true
  | String c s' =>
      if Ascii.eqb c "-"
      then match s' with
           | EmptyString => false
           | String d _ => is_lower_or_digit d && hyphenated s'
           end
      else is_lower_or_digit c && hyphenated s'
  end.

(** A name in kebab case: a lower-case letter, then lower-case letters,
    digits and single hyphens, the last character not a hyphen. *)
Definition kebab_shape (s : string) : bool :=
  match s with
  | EmptyString => false
  | String c s' => is_lower c && hyphenated s'
  end.

End Patterns.

(** ** utils: [createNotes] *)

Module UtilsNotes.

Section CreateNotes.

(** The [Note] class and the type of its POJO are imported.  [new_Note x]
    is [new Note(x)], [None] when the constructor throws. *)
Context {NotePOJO Note : Type}.
Variable new_Note : string + NotePOJO -> option Note.

(** The argument [notes?: string | Array<string | NotePOJO>]. *)
Inductive NotesArgument :=
| NotesUndefined
| NotesString (s : string)
| NotesArray (xs : list (string + NotePOJO)).

(** [!notes]: [undefined] and the empty string are falsy, an array is not,
    even an empty one. *)
Definition falsy (notes : NotesArgument) : bool :=
  match notes with
  | NotesUndefined => true
  | NotesString s => String.eqb s ""
  | NotesArray _ => false
  end.

(** [createNotes(notes)]: [None] when a [Note] constructor throws.  What
    is not falsy is a string, which is put in an array, or an array: the
    last case is never reached. *)
Definition createNotes (notes : NotesArgument) : option (list Note) :=
  if falsy notes then Some []
  else
    let notes :=
      match notes with
      | NotesString s => NotesArray [inl s]
      | _ => notes
      end in
    match notes with
    | NotesArray xs => mapM new_Note xs
    | _ => None
    end.

End CreateNotes.

End UtilsNotes.

(** ** shipping-provider/delivery-service: [DeliveryService] *)

Module DeliveryService.
Import JS.

(** *** The [serviceArea] getter

    The [ServiceArea] enumeration and the [Packaging] class are imported by
    the source file: the getter only compares a packaging's [serviceArea]
    with three members of the enumeration. *)
Section ServiceAreaGetter.

Context {ServiceArea : Type} `{EqDecision ServiceArea}.
Variables Regional Domestic Worldwide : ServiceArea.
Context {Packaging DeliveryConfirmation Carrier : Type}.
Variable packaging_serviceArea : Packaging -> ServiceArea.

(** The fields of the class; enumeration members are their string values,
    [requiresManifest] is [false] or a manifest type. *)
Record t := {
  id : string;
  name : string;
  description : string;
  class : string;
  grade : string;
  originCountries : list string;
  destinationCountries : list string;
  carrier : Carrier;
  packaging : list Packaging;
  deliveryConfirmations : list DeliveryConfirmation;
  labelFormats : list string;
  labelSizes : list string;
  isReturnService : bool;
  allowsMultiplePackages : bool;
  hasTracking : bool;
  requiresManifest : option string
}.

(** The [for ... of] loop of the getter, from the current [maxArea]. *)
Fixpoint serviceArea_loop (maxArea : ServiceArea) (packagings : list Packaging) : ServiceArea :=
  match packagings with
  | [] => maxArea
  | packaging :: rest =>
      if decide (packaging_serviceArea packaging = Worldwide) then Worldwide
      else if decide (packaging_serviceArea packaging = Domestic)
           then serviceArea_loop Domestic rest
           else serviceArea_loop maxArea rest
  end.

Definition serviceArea (this : t) : ServiceArea :=
  serviceArea_loop Regional (packaging this).

End ServiceAreaGetter.

(** *** The constructor, on the heap

    The [assert] module, the enumeration objects and the classes [Carrier],
    [Packaging] and [DeliveryConfirmation] are imported: what they do to the
    heap is left open.  A default argument is [None] when the call has none. *)
Record Imports := {
  assert_type_object : value -> string -> M heap value;
  assert_string_uuid : value -> string -> M heap value;
  assert_string_nonWhitespace : value -> string -> M heap value;
  assert_string : value -> string -> option value -> M heap value;
  assert_string_enum : value -> value -> string -> M heap value;
  assert_array_ofEnum : value -> value -> string -> option value -> M heap value;
  assert_array_nonEmpty : value -> string -> M heap value;
  assert_array : value -> string -> option value -> M heap value;
  assert_type_boolean : value -> string -> option value -> M heap value;
  Country : value;
  DeliveryServiceClass : value;
  DeliveryServiceGrade : value;
  LabelFormat : value;
  LabelSize : value;
  ManifestType : value;
  (** [new Carrier(config)] *)
  new_Carrier : value -> M heap value;
  (** [xs.map((svc) => new Packaging(svc))] *)
  map_new_Packaging : value -> M heap value;
  (** [xs.map((svc) => new DeliveryConfirmation(svc))] *)
  map_new_DeliveryConfirmation : value -> M heap value;
  (** [DeliveryService.prototype] *)
  prototype : option loc
}.

Section Constructor.
Variable I : Imports.

(** The assignments of the constructor, in order. *)
Definition init (this : value) (config : value) : M heap unit :=
  assert_type_object I config "delivery service";;
  let* x := Get config (KStr "id") in
  let* v := assert_string_uuid I x "delivery service ID" in
  Set_ this (KStr "id") v;;
  let* x := Get config (KStr "name") in
  let* v := assert_string_nonWhitespace I x "delivery service name" in
  Set_ this (KStr "name") v;;
  let* x := Get config (KStr "description") in
  let* v := assert_string I x "delivery service description" (Some (VStr "")) in
  Set_ this (KStr "description") v;;
  let* x := Get config (KStr "class") in
  let* v := assert_string_enum I x (DeliveryServiceClass I) "delivery service class" in
  Set_ this (KStr "class") v;;
  let* x := Get config (KStr "grade") in
  let* v := assert_string_enum I x (DeliveryServiceGrade I) "delivery service grade" in
  Set_ this (KStr "grade") v;;
  let* x := Get config (KStr "originCountries") in
  let* v := assert_array_ofEnum I x (Country I) "originCountries" None in
  Set_ this (KStr "originCountries") v;;
  let* x := Get config (KStr "destinationCountries") in
  let* v := assert_array_ofEnum I x (Country I) "destinationCountries" None in
  Set_ this (KStr "destinationCountries") v;;
  let* x := Get config (KStr "carrier") in
  let* v := new_Carrier I x in
  Set_ this (KStr "carrier") v;;
  let* x := Get config (KStr "packaging") in
  let* xs := assert_array_nonEmpty I x "packaging" in
  let* v := map_new_Packaging I xs in
  Set_ this (KStr "packaging") v;;
  let* x := Get config (KStr "deliveryConfirmations") in
  let* d := alloc empty_array in
  let* xs := assert_array I x "deliveryConfirmations" (Some (VRef d)) in
  let* v := map_new_DeliveryConfirmation I xs in
  Set_ this (KStr "deliveryConfirmations") v;;
  let* x := Get config (KStr "labelFormats") in
  let* d := alloc empty_array in
  let* v := assert_array_ofEnum I x (LabelFormat I) "labelFormats" (Some (VRef d)) in
  Set_ this (KStr "labelFormats") v;;
  let* x := Get config (KStr "labelSizes") in
  let* d := alloc empty_array in
  let* v := assert_array_ofEnum I x (LabelSize I) "labelSizes" (Some (VRef d)) in
  Set_ this (KStr "labelSizes") v;;
  let* x := Get config (KStr "isReturnService") in
  let* v := assert_type_boolean I x "isReturnService flag" (Some (VBool false)) in
  Set_ this (KStr "isReturnService") v;;
  let* x := Get config (KStr "allowsMultiplePackages") in
  let* v := assert_type_boolean I x "allowsMultiplePackages flag" (Some (VBool false)) in
  Set_ this (KStr "allowsMultiplePackages") v;;
  let* x := Get config (KStr "hasTracking") in
  let* v := assert_type_boolean I x "hasTracking flag" (Some (VBool false)) in
  Set_ this (KStr "hasTracking") v;;
  let* x := Get config (KStr "requiresManifest") in
  let* v := (if truthy x
             then let* x' := Get config (KStr "requiresManifest") in
                  assert_string_enum I x' (ManifestType I) "requiresManifest value"
             else ret (VBool false)) in
  Set_ this (KStr "requiresManifest") v.

(** "Prevent modifications after validation" *)
Definition freeze_all (this : value) : M heap unit :=
  Object_freeze this;;
  let* a := Get this (KStr "originCountries") in Object_freeze a;;
  let* a := Get this (KStr "destinationCountries") in Object_freeze a;;
  let* a := Get this (KStr "packaging") in Object_freeze a;;
  let* a := Get this (KStr "deliveryConfirmations") in Object_freeze a;;
  let* a := Get this (KStr "labelFormats") in Object_freeze a;;
  let* a := Get this (KStr "labelSizes") in Object_freeze a;;
  ret tt.

(** [new DeliveryService(config)] *)
Definition new (config : value) : M heap loc :=
  let* this := alloc (Obj KOrdinary (prototype I) true []) in
  init (VRef this) config;;
  freeze_all (VRef this);;
  ret this.

End Constructor.

End DeliveryService.


(** ** carrier: the [Carrier] class, on the heap *)

Module Carrier.
Import JS HeapRelations Utils.

(** [const _private = Symbol("private fields")] *)
Definition _private : nat := 1.

(** The classes the constructor instantiates are imported: what they do to
    the heap is left open. *)
Record Imports := {
  (** [new URL(x)] *)
  new_URL : value -> M heap value;
  (** [xs.map((svc) => new DeliveryService(svc, app))] *)
  map_new_DeliveryService : value -> value -> M heap value;
  (** [xs.map((svc) => new PickupService(svc, app))] *)
  map_new_PickupService : value -> value -> M heap value;
  (** [new Localization(x)] *)
  new_Localization : value -> M heap value;
  (** [Carrier.prototype], which holds the wrappers and [toJSON] *)
  prototype : option loc
}.

(** The user-defined methods, in the order of the constructor. *)
Definition user_methods : list string :=
  [ "requestPickup"; "cancelPickup"; "createLabel"; "voidLabel";
    "getRates"; "getTrackingURL"; "track"; "createManifest" ].

(** [pojo.m ? pojo.m : (this.m = undefined)], the value stored for a
    user-defined method [m]. *)
Definition method_slot (this pojo : value) (m : string) : M heap value :=
  let* f := Get pojo (KStr m) in
  if truthy f then Get pojo (KStr m)
  else (Set_ this (KStr m) VUndef;; ret VUndef).

Fixpoint method_slots (this pojo : value) (ms : list string) : M heap (list (key * prop)) :=
  match ms with
  | [] => ret []
  | m :: ms' =>
      let* f := method_slot this pojo m in
      let* ps := method_slots this pojo ms' in
      ret ((KStr m, data_prop f) :: ps)
  end.

Section Constructor.
Variable I : Imports.

(** The assignments to the public fields. *)
Definition assign_fields (this pojo app : value) : M heap unit :=
  let* v := Get pojo (KStr "id") in
  Set_ this (KStr "id") v;;
  let* v := Get pojo (KStr "name") in
  Set_ this (KStr "name") v;;
  let* v := Get pojo (KStr "description") in
  Set_ this (KStr "description") (if truthy v then v else VStr "");;
  let* x := Get pojo (KStr "websiteURL") in
  let* v := new_URL I x in
  Set_ this (KStr "websiteURL") v;;
  let* v := Get pojo (KStr "logo") in
  Set_ this (KStr "logo") v;;
  let* xs := Get pojo (KStr "deliveryServices") in
  let* v := map_new_DeliveryService I xs app in
  Set_ this (KStr "deliveryServices") v;;
  let* xs := Get pojo (KStr "pickupServices") in
  let* v := (if truthy xs
             then let* xs' := Get pojo (KStr "pickupServices") in
                  map_new_PickupService I xs' app
             else let* a := alloc empty_array in ret (VRef a)) in
  Set_ this (KStr "pickupServices") v.

(** The object literal assigned to [this[_private]]. *)
Definition private_fields (this pojo app : value) : M heap loc :=
  let* x := Get pojo (KStr "localization") in
  let* x' := (if truthy x then ret x
              else let* e := alloc empty_object in ret (VRef e)) in
  let* localization := new_Localization I x' in
  let* methods := method_slots this pojo user_methods in
  alloc (Obj KOrdinary None true
           ((KStr "app", data_prop app)
              :: (KStr "localization", data_prop localization) :: methods)).

(** [app[_internal].references.add(this)].  The class [App] is imported
    and the class of [references] is not shown: [references] is taken to be
    a built-in [Set], a stand-in.  What is proved of a constructed carrier
    uses only that this call leaves the fields of the carrier as they are. *)
Definition register (app this : value) : M heap unit :=
  let* internal := Get app (KSym _internal) in
  let* references := Get internal (KStr "references") in
  Set_add references this;;
  ret tt.

(** [new Carrier(pojo, app)] *)
Definition new (pojo app : value) : M heap loc :=
  let* this := alloc (Obj KOrdinary (prototype I) true []) in
  assign_fields (VRef this) pojo app;;
  let* private := private_fields (VRef this) pojo app in
  Set_ (VRef this) (KSym _private) (VRef private);;
  hideAndFreeze this [];;
  register app (VRef this);;
  ret this.

End Constructor.

(** The imported constructors create and freeze objects; they change no
    field of an object that is already there. *)
Definition frame_respecting (I : Imports) : Prop :=
  (forall x h v h', new_URL I x h = Ok v h' -> heap_grows h h') /\
  (forall xs app h v h',
     map_new_DeliveryService I xs app h = Ok v h' -> heap_grows h h') /\
  (forall xs app h v h',
     map_new_PickupService I xs app h = Ok v h' -> heap_grows h h') /\
  (forall x h v h', new_Localization I x h = Ok v h' -> heap_grows h h').

(** [this.m] is an own field whose value is [undefined]. *)
Definition has_undefined (h : heap) (this : loc) (m : string) : Prop :=
  exists p, own_prop h this (KStr m) = Some p /\ p_value p = VUndef.

End Carrier.


(** ** carrier/tracking/tracking-info: the [TrackingInfo] class, on the heap *)

Module TrackingInfo.
Import JS Utils.

Record Imports := {
  (** [super(pojo)]: the constructor of [shipmentIdentifierMixin()], run on
      the new object *)
  super : value -> value -> M heap unit;
  (** [new DateTimeZone(x)] *)
  new_DateTimeZone : value -> M heap value;
  (** [xs.map((parcel) => new PackageTrackingInfo(parcel, app))] *)
  map_new_PackageTrackingInfo : value -> value -> M heap value;
  (** [xs.map((event) => new TrackingEvent(event))] *)
  map_new_TrackingEvent : value -> M heap value;
  (** [TrackingInfo.prototype] *)
  prototype : option loc
}.

Section Constructor.
Variable I : Imports.

(** [new TrackingInfo(pojo, app)] *)
Definition new (pojo app : value) : M heap loc :=
  let* this := alloc (Obj KOrdinary (prototype I) true []) in
  super I (VRef this) pojo;;
  let* x := Get pojo (KStr "deliveryDateTime") in
  let* v := (if truthy x
             then let* x' := Get pojo (KStr "deliveryDateTime") in new_DateTimeZone I x'
             else ret VUndef) in
  Set_ (VRef this) (KStr "deliveryDateTime") v;;
  let* xs := Get pojo (KStr "packages") in
  let* v := map_new_PackageTrackingInfo I xs app in
  Set_ (VRef this) (KStr "packages") v;;
  let* xs := Get pojo (KStr "events") in
  let* v := map_new_TrackingEvent I xs in
  Set_ (VRef this) (KStr "events") v;;
  hideAndFreeze this [];;
  ret this.

End Constructor.

End TrackingInfo.


(** ** carrier: the wrappers around user-defined methods *)

Module CarrierMethods.
Import JS.

Inductive Operation :=
| RequestPickup | CancelPickup | CreateLabel | VoidLabel
| GetRates | GetTrackingURL | Track | CreateManifest.

(** The state of a call: the heap, and the user-defined methods that have
    been invoked so far. *)
Record world := World {
  w_heap : heap;
  w_calls : list Operation
}.

Definition lift {A} (m : M heap A) : M world A :=
  fun w => match m (w_heap w) with
           | Ok a h => Ok a (World h (w_calls w))
           | Throw e h => Throw e (World h (w_calls w))
           | Stuck => Stuck
           end.

(** Modelled from the spec: the [error] helper of the errors module is not
    in the sources.  It builds the error that is raised from its kind, a
    message and the properties given: the original cause and, for an
    application error, the transaction's identifier. *)
Definition error (code : ErrorCode) (message : string)
    (originalError : thrown) (transactionID : option string) : thrown :=
  SdkError code message originalError transactionID.

(** The classes the wrappers instantiate are imported: their instances and
    what construction does are left open.  [new_X pojo] throws when the POJO
    is not valid; it works on the heap and has no access to the user-defined
    methods of a carrier. *)
Record Imports := {
  App : Type;
  Transaction : Type;
  new_Transaction : value -> M heap Transaction;
  Transaction_id : Transaction -> string;
  PickupRequest : Type;
  new_PickupRequest : value -> App -> M heap PickupRequest;
  PickupCancellation : Type;
  new_PickupCancellation : value -> App -> M heap PickupCancellation;
  LabelSpec : Type;
  new_LabelSpec : value -> App -> M heap LabelSpec;
  RateCriteria : Type;
  new_RateCriteria : value -> App -> M heap RateCriteria;
  TrackingCriteria : Type;
  new_TrackingCriteria : value -> App -> M heap TrackingCriteria;
  PickupConfirmation : Type;
  new_PickupConfirmation : value -> M heap PickupConfirmation;
  LabelConfirmation : Type;
  new_LabelConfirmation : value -> M heap LabelConfirmation;
  RateQuote : Type;
  new_RateQuote : value -> App -> M heap RateQuote;
  URL : Type;
  new_URL : value -> M heap URL;
  Localization : Type
}.

(** Confirmation that a package pickup has been canceled: the fields of
    [PickupCancellationConfirmationConfig]. *)
Record PickupCancellationConfirmation := {
  successful : bool;
  cancellationID : option string;
  notes : option string;
  customData : option loc
}.

(** An optional string field of a POJO. *)
Definition optional_string (v : value) : option (option string) :=
  match v with
  | VUndef => Some None
  | VStr s => Some (Some s)
  | _ => None
  end.

(** Modelled from the spec: the [PickupCancellationConfirmation] class is
    not in the sources.  Its constructor builds the typed confirmation from
    what the user function returned: the fields of the result match those of
    the value, and a value of another shape is refused. *)
Definition new_PickupCancellationConfirmation (pojo : value)
    : M heap PickupCancellationConfirmation :=
  let* s := Get pojo (KStr "successful") in
  let* c := Get pojo (KStr "cancellationID") in
  let* n := Get pojo (KStr "notes") in
  let* d := Get pojo (KStr "customData") in
  match s, optional_string c, optional_string n, d with
  | VBool b, Some c', Some n', VUndef =>
      ret {| successful := b; cancellationID := c'; notes := n'; customData := None |}
  | VBool b, Some c', Some n', VRef l =>
      ret {| successful := b; cancellationID := c'; notes := n'; customData := Some l |}
  | _, _, _, _ => throw ValidationError
  end.

Section Wrappers.
Variable I : Imports.

(** A user-defined method is a function of the entities built from the
    input.  Its completion is that of the call once awaited: [Ok v] when it
    returns [v] or a promise that resolves with [v], [Throw e] when it throws
    [e] or returns a promise that rejects with [e]. *)
Definition UserMethod (Request : Type) : Type :=
  Transaction I -> Request -> M heap value.

(** The fields of [this[_private]]; the user-defined method [m] is the
    field [m_], [m] being here the name of its wrapper. *)
Record Private := {
  app : App I;
  localization : Localization I;
  requestPickup_ : option (UserMethod (PickupRequest I));
  cancelPickup_ : option (UserMethod (PickupCancellation I));
  createLabel_ : option (UserMethod (LabelSpec I));
  voidLabel_ : option (UserMethod unit);
  getRates_ : option (UserMethod (RateCriteria I));
  getTrackingURL_ : option (UserMethod (TrackingCriteria I));
  track_ : option (UserMethod unit);
  createManifest_ : option (UserMethod unit)
}.

(** [f!(_transaction, _request)]: the call is recorded; calling [undefined]
    throws. *)
Definition call {Request} (op : Operation) (f : option (UserMethod Request))
    (_transaction : Transaction I) (_request : Request) : M world value :=
  match f with
  | Some f => fun w => lift (f _transaction _request) (World (w_heap w) (w_calls w ++ [op]))
  | None => throw TypeError
  end.

(** The [catch] clause of the first [try]. *)
Definition invalid_input {A} (message : string) (originalError : thrown) : M world A :=
  throw (error InvalidInput message originalError None).

(** The [catch] clause of the second [try]. *)
Definition app_error {A} (message : string) (_transaction : Transaction I)
    (originalError : thrown) : M world A :=
  let transactionID := Transaction_id I _transaction in
  throw (error AppError message originalError (Some transactionID)).

(** [confirmation.shipments = confirmation.shipments || request.shipments] *)
Definition fill_shipments (confirmation request : value) : M heap unit :=
  let* s := Get confirmation (KStr "shipments") in
  let* s' := (if truthy s then ret s else Get request (KStr "shipments")) in
  Set_ confirmation (KStr "shipments") s'.

Definition requestPickup_body (this : Private) (_transaction : Transaction I)
    (_request : PickupRequest I) (request : value) : M world (PickupConfirmation I) :=
  let* confirmation := call RequestPickup (requestPickup_ this) _transaction _request in
  lift (fill_shipments confirmation request);;
  lift (new_PickupConfirmation I confirmation).

Definition requestPickup (this : Private) (transaction request : value)
    : M world (PickupConfirmation I) :=
  let* input :=
    try_catch
      (let* _transaction := lift (new_Transaction I transaction) in
       let* _request := lift (new_PickupRequest I request (app this)) in
       ret (_transaction, _request))
      (invalid_input "Invalid input to the requestPickup method.") in
  try_catch (requestPickup_body this input.1 input.2 request)
            (app_error "Error in requestPickup method." input.1).

(** [confirmation = confirmation || { successful: true }] *)
Definition default_confirmation (confirmation : value) : M heap value :=
  if truthy confirmation then ret confirmation
  else let* l := alloc (Obj KOrdinary None true
                          [(KStr "successful", data_prop (VBool true))]) in
       ret (VRef l).

Definition cancelPickup_body (this : Private) (_transaction : Transaction I)
    (_cancellation : PickupCancellation I) : M world PickupCancellationConfirmation :=
  let* confirmation := call CancelPickup (cancelPickup_ this) _transaction _cancellation in
  let* confirmation' := lift (default_confirmation confirmation) in
  lift (new_PickupCancellationConfirmation confirmation').

Definition cancelPickup (this : Private) (transaction cancellation : value)
    : M world PickupCancellationConfirmation :=
  let* input :=
    try_catch
      (let* _transaction := lift (new_Transaction I transaction) in
       let* _cancellation := lift (new_PickupCancellation I cancellation (app this)) in
       ret (_transaction, _cancellation))
      (invalid_input "Invalid input to the cancelPickup method.") in
  try_catch (cancelPickup_body this input.1 input.2)
            (app_error "Error in cancelPickup method." input.1).

Definition createLabel_body (this : Private) (_transaction : Transaction I)
    (_label : LabelSpec I) : M world (LabelConfirmation I) :=
  let* confirmation := call CreateLabel (createLabel_ this) _transaction _label in
  lift (new_LabelConfirmation I confirmation).

Definition createLabel (this : Private) (transaction label : value)
    : M world (LabelConfirmation I) :=
  let* input :=
    try_catch
      (let* _transaction := lift (new_Transaction I transaction) in
       let* _label := lift (new_LabelSpec I label (app this)) in
       ret (_transaction, _label))
      (invalid_input "Invalid input to the createLabel method.") in
  try_catch (createLabel_body this input.1 input.2)
            (app_error "Error in createLabel method." input.1).

(** [voidLabel], [track] and [createManifest] are not implemented yet: they
    resolve with [undefined] and call no user-defined method. *)
Definition voidLabel (this : Private) (transaction : value) : M world value :=
  let* _transaction :=
    try_catch (lift (new_Transaction I transaction))
              (invalid_input "Invalid input to the voidLabel method.") in
  try_catch (ret VUndef) (app_error "Error in voidLabel method." _transaction).

Definition getRates_body (this : Private) (_transaction : Transaction I)
    (_criteria : RateCriteria I) : M world (RateQuote I) :=
  let* quote := call GetRates (getRates_ this) _transaction _criteria in
  lift (new_RateQuote I quote (app this)).

Definition getRates (this : Private) (transaction criteria : value)
    : M world (RateQuote I) :=
  let* input :=
    try_catch
      (let* _transaction := lift (new_Transaction I transaction) in
       let* _criteria := lift (new_RateCriteria I criteria (app this)) in
       ret (_transaction, _criteria))
      (invalid_input "Invalid input to the getRates method.") in
  try_catch (getRates_body this input.1 input.2)
            (app_error "Error in getRates method." input.1).

(** [getTrackingURL] is synchronous: the user-defined method's completion is
    that of the plain call. *)
Definition getTrackingURL_body (this : Private) (_transaction : Transaction I)
    (_criteria : TrackingCriteria I) : M world (option (URL I)) :=
  let* url := call GetTrackingURL (getTrackingURL_ this) _transaction _criteria in
  if truthy url
  then let* u := lift (new_URL I url) in ret (Some u)
  else ret None.

Definition getTrackingURL (this : Private) (transaction criteria : value)
    : M world (option (URL I)) :=
  let* input :=
    try_catch
      (let* _transaction := lift (new_Transaction I transaction) in
       let* _criteria := lift (new_TrackingCriteria I criteria (app this)) in
       ret (_transaction, _criteria))
      (invalid_input "Invalid input to the getTrackingURL method.") in
  try_catch (getTrackingURL_body this input.1 input.2)
            (app_error "Error in getTrackingURL method." input.1).

Definition track (this : Private) (transaction : value) : M world value :=
  let* _transaction :=
    try_catch (lift (new_Transaction I transaction))
              (invalid_input "Invalid input to the track method.") in
  try_catch (ret VUndef) (app_error "Error in track method." _transaction).

Definition createManifest (this : Private) (transaction : value) : M world value :=
  let* _transaction :=
    try_catch (lift (new_Transaction I transaction))
              (invalid_input "Invalid input to the createManifest method.") in
  try_catch (ret VUndef) (app_error "Error in createManifest method." _transaction).

(** *** What the input of a call is

    The two outcomes of the first [try] block. *)

(** Building the typed transaction, then the typed request, from the POJOs
    throws [e] and leaves the heap [h']. *)
Definition input_fails {Request} (new_Request : value -> App I -> M heap Request)
    (this : Private) (transaction request : value) (h : heap)
    (e : thrown) (h' : heap) : Prop :=
  new_Transaction I transaction h = Throw e h' \/
  exists t h1, new_Transaction I transaction h = Ok t h1 /\
               new_Request request (app this) h1 = Throw e h'.

(** Building them gives [t] and [r] and leaves the heap [h']. *)
Definition input_valid {Request} (new_Request : value -> App I -> M heap Request)
    (this : Private) (transaction request : value) (h : heap)
    (t : Transaction I) (r : Request) (h' : heap) : Prop :=
  exists h1, new_Transaction I transaction h = Ok t h1 /\
             new_Request request (app this) h1 = Ok r h'.

End Wrappers.

End CarrierMethods.


(** ** carrier: the [Carrier] constructor and [toJSON], on field values

    The constructor computes each field of the carrier from the POJO, and
    [toJSON] writes the fields back to a POJO: this layer keeps the values
    and leaves out where the objects live. *)

Module CarrierData.

Section CarrierData.

(** The classes [URL], [DeliveryService], [PickupService], [Localization]
    and [App] are imported, with the types of their POJOs; [UserMethod] is a
    user-defined function. *)
Context {URL DeliveryService DeliveryServicePOJO PickupService PickupServicePOJO
         Localization LocalizationPOJO App UserMethod : Type}.

(** [new URL(s)]: [None] when it throws *)
Variable parse_URL : string -> option URL.
(** the string a [URL] converts to (its [href]) *)
Variable URL_href : URL -> string.
(** [new DeliveryService(pojo, app)] and [o.toJSON(locale)] *)
Variable new_DeliveryService : DeliveryServicePOJO -> App -> option DeliveryService.
Variable DeliveryService_toJSON : DeliveryService -> option string -> DeliveryServicePOJO.
(** [new PickupService(pojo, app)] and [o.toJSON(locale)] *)
Variable new_PickupService : PickupServicePOJO -> App -> option PickupService.
Variable PickupService_toJSON : PickupService -> option string -> PickupServicePOJO.
(** [new Localization(pojo)], [localization.toJSON()] and the object [{}] *)
Variable new_Localization : LocalizationPOJO -> option Localization.
Variable Localization_toJSON : Localization -> LocalizationPOJO.
Variable empty_localization : LocalizationPOJO.

(** What a POJO holds as [websiteURL]: a string in a configuration, the
    [URL] object itself in the result of [toJSON]. *)
Inductive UrlInput :=
| UrlString (s : string)
| UrlObject (u : URL).

(** The argument of [new URL(x)] as a string. *)
Definition url_string (x : UrlInput) : string :=
  match x with
  | UrlString s => s
  | UrlObject u => URL_href u
  end.

(** The localized values of a carrier for a locale: the fields that the
    schema lets a localization override. *)
Record LocalizedBrandingPOJO := {
  l_name : option string;
  l_description : option string;
  l_websiteURL : option string
}.

(** [localization.lookup(locale)] *)
Variable Localization_lookup : Localization -> string -> LocalizedBrandingPOJO.

(** The user-defined methods, each a function or [undefined]. *)
Record UserMethods := {
  requestPickup : option UserMethod;
  cancelPickup : option UserMethod;
  createLabel : option UserMethod;
  voidLabel : option UserMethod;
  getRates : option UserMethod;
  getTrackingURL : option UserMethod;
  track : option UserMethod;
  createManifest : option UserMethod
}.

(** The fields the constructor reads; an optional field is [None] when it
    is missing. *)
Record CarrierPOJO := {
  p_id : string;
  p_name : string;
  p_description : option string;
  p_websiteURL : UrlInput;
  p_logo : string;
  p_deliveryServices : list DeliveryServicePOJO;
  p_pickupServices : option (list PickupServicePOJO);
  p_localization : option LocalizationPOJO;
  p_methods : UserMethods
}.

(** The fields of a carrier: the public ones, then those of
    [this[_private]]. *)
Record Carrier := {
  id : string;
  name : string;
  description : string;
  websiteURL : URL;
  logo : string;
  deliveryServices : list DeliveryService;
  pickupServices : list PickupService;
  app : App;
  localization : Localization;
  methods : UserMethods
}.

(** [x || ""] on an optional string *)
Definition or_empty (x : option string) : string :=
  match x with
  | Some s => if String.eqb s "" then "" else s
  | None => ""
  end.

(** [new Carrier(pojo, app)]: [None] when a constructor throws. *)
Definition new (pojo : CarrierPOJO) (app : App) : option Carrier :=
  websiteURL ← parse_URL (url_string (p_websiteURL pojo));
  deliveryServices ← mapM (fun svc => new_DeliveryService svc app) (p_deliveryServices pojo);
  pickupServices ←
    match p_pickupServices pojo with
    | Some svcs => mapM (fun svc => new_PickupService svc app) svcs
    | None => Some []
    end;
  localization ← new_Localization (default empty_localization (p_localization pojo));
  Some {| id := p_id pojo;
          name := p_name pojo;
          description := or_empty (p_description pojo);
          websiteURL := websiteURL;
          logo := p_logo pojo;
          deliveryServices := deliveryServices;
          pickupServices := pickupServices;
          app := app;
          localization := localization;
          methods := p_methods pojo |}.

(** [locale ? localization.lookup(locale) : {}] *)
Definition localizedValues (this : Carrier) (locale : option string) : LocalizedBrandingPOJO :=
  match locale with
  | Some l =>
      if String.eqb l "" then Build_LocalizedBrandingPOJO None None None
      else Localization_lookup (localization this) l
  | None => Build_LocalizedBrandingPOJO None None None
  end.

(** [toJSON(locale)]: the carrier's own fields, the services and the
    localization serialized, the user-defined methods, and over them the
    localized values. *)
Definition toJSON (this : Carrier) (locale : option string) : CarrierPOJO :=
  let localized := localizedValues this locale in
  {| p_id := id this;
     p_name := default (name this) (l_name localized);
     p_description := Some (default (description this) (l_description localized));
     p_websiteURL :=
       match l_websiteURL localized with
       | Some s => UrlString s
       | None => UrlObject (websiteURL this)
       end;
     p_logo := logo this;
     p_deliveryServices := map (fun o => DeliveryService_toJSON o locale) (deliveryServices this);
     p_pickupServices := Some (map (fun o => PickupService_toJSON o locale) (pickupServices this));
     p_localization := Some (Localization_toJSON (localization this));
     p_methods := methods this |}.

End CarrierData.

End CarrierData.


(** ** The helper properties of [Carrier] and of [DeliveryService], on field values

    The getters that gather values use a built-in [Set], which keeps its
    members in insertion order and compares them with SameValueZero: strings
    by their characters, objects by identity. *)

Module Collections.

Section Collections.
Context {A : Type} `{EqDecision A}.

(** [set.add(x)], on the members of the set in insertion order. *)
Definition add (members : list A) (x : A) : list A :=
  if decide (x ∈ members) then members else members ++ [x].

(** [for (let x of xs) set.add(x)]; from the empty set, [new Set(xs)]. *)
Fixpoint add_each (members : list A) (xs : list A) : list A :=
  match xs with
  | [] => members
  | x :: xs' => add_each (add members x) xs'
  end.

End Collections.

End Collections.

Module CarrierGetters.
Import Collections.

Section Getters.

(** The classes are imported.  Of a delivery service and of a pickup
    service the getters read the fields below.  A member of an enumeration
    is its string; a [Packaging] and a [DeliveryConfirmation] are objects: a
    value of the type stands for the object, and equality for identity. *)
Context {URL DeliveryService PickupService Localization App UserMethod : Type}.
Context {Packaging DeliveryConfirmation : Type}.
Context `{EqDecision Packaging, EqDecision DeliveryConfirmation}.

Variable svc_isConsolidationService : DeliveryService -> bool.
Variable svc_hasTracking : DeliveryService -> bool.
Variable svc_hasSandbox : DeliveryService -> bool.
Variable pickup_hasSandbox : PickupService -> bool.
Variable svc_labelFormats : DeliveryService -> list string.
Variable svc_labelSizes : DeliveryService -> list string.
Variable svc_originCountries : DeliveryService -> list string.
Variable svc_destinationCountries : DeliveryService -> list string.
Variable svc_packaging : DeliveryService -> list Packaging.
Variable svc_deliveryConfirmations : DeliveryService -> list DeliveryConfirmation.

Abbreviation Carrier :=
  (@CarrierData.Carrier URL DeliveryService PickupService Localization App UserMethod)
  (only parsing).

(** [this.deliveryServices.some((svc) => svc.isConsolidationService)] *)
Definition isConsolidator (this : Carrier) : bool :=
  existsb svc_isConsolidationService (CarrierData.deliveryServices this).

(** [this.deliveryServices.some((svc) => svc.hasTracking)] *)
Definition hasTracking (this : Carrier) : bool :=
  existsb svc_hasTracking (CarrierData.deliveryServices this).

(** [found || (found = this.pickupServices.some(hasSandbox))] *)
Definition hasSandbox (this : Carrier) : bool :=
  let found := existsb svc_hasSandbox (CarrierData.deliveryServices this) in
  let found := if found then found
               else existsb pickup_hasSandbox (CarrierData.pickupServices this) in
  found.

(** The two nested loops of the getters that gather a field of the delivery
    services into a set:
    [for (let service of this.deliveryServices)
       for (let x of service.field) set.add(x)]. *)
Fixpoint gather {A} `{EqDecision A} (field : DeliveryService -> list A)
    (members : list A) (services : list DeliveryService) : list A :=
  match services with
  | [] => members
  | service :: rest => gather field (add_each members (field service)) rest
  end.

(** The getters return [Object.freeze([...set])], a new frozen array: the
    list is its elements. *)
Definition labelFormats (this : Carrier) : list string :=
  gather svc_labelFormats [] (CarrierData.deliveryServices this).

Definition labelSizes (this : Carrier) : list string :=
  gather svc_labelSizes [] (CarrierData.deliveryServices this).

Definition originCountries (this : Carrier) : list string :=
  gather svc_originCountries [] (CarrierData.deliveryServices this).

Definition destinationCountries (this : Carrier) : list string :=
  gather svc_destinationCountries [] (CarrierData.deliveryServices this).

Definition packaging (this : Carrier) : list Packaging :=
  gather svc_packaging [] (CarrierData.deliveryServices this).

Definition deliveryConfirmations (this : Carrier) : list DeliveryConfirmation :=
  gather svc_deliveryConfirmations [] (CarrierData.deliveryServices this).

(** [new Set(this.originCountries.concat(this.destinationCountries))] *)
Definition countries (this : Carrier) : list string :=
  add_each [] (originCountries this ++ destinationCountries this).

(** [xs] lists, each once, the values that the delivery services of [this]
    have in [field]. *)
Definition gathers {A} (xs : list A) (field : DeliveryService -> list A)
    (this : Carrier) : Prop :=
  NoDup xs /\
  forall x, x ∈ xs <->
            exists service, service ∈ CarrierData.deliveryServices this /\ x ∈ field service.

End Getters.

End CarrierGetters.

Module DeliveryServiceGetters.
Import Collections.

Section Getters.
Context {Packaging DeliveryConfirmation Carrier : Type}.
Variable packaging_isConsolidator : Packaging -> bool.

Abbreviation DeliveryService :=
  (@DeliveryService.t Packaging DeliveryConfirmation Carrier) (only parsing).

(** [[...new Set(this.originCountries.concat(this.destinationCountries))]] *)
Definition countries (this : DeliveryService) : list string :=
  add_each [] (DeliveryService.originCountries this
                 ++ DeliveryService.destinationCountries this).

(** [this.packaging.some((pkg) => pkg.isConsolidator)] *)
Definition isConsolidator (this : DeliveryService) : bool :=
  existsb packaging_isConsolidator (DeliveryService.packaging this).

End Getters.

End DeliveryServiceGetters.

(** ** Concrete heaps used to exercise the definitions *)

Module Examples.
Import JS Utils.

(** An object with an object-valued field, a [Buffer]-valued field, a number
    and a symbol-keyed field:
    [{ tags: {...}, data: Buffer.alloc(4), count: 3, [sym0]: {...} }]. *)
Definition sample_heap : heap :=
  [ Obj KOrdinary None true
        [ (KStr "tags", data_prop (VRef 1));
          (KStr "data", data_prop (VRef 2));
          (KStr "count", data_prop (VNum 3));
          (KSym 0, data_prop (VRef 3)) ];
    Obj KOrdinary None true [ (KStr "first", data_prop (VStr "a")) ];
    Obj (KBuffer 4) None true [];
    Obj KOrdinary None true [ (KStr "label", data_prop (VStr "carrier")) ] ].

Definition heap_of {A} (r : result heap A) : heap :=
  match r with
  | Ok _ h | Throw _ h => h
  | Stuck => []
  end.

Definition sample_heap_frozen : heap :=
  Eval vm_compute in heap_of (hideAndFreeze 0 [] sample_heap).


(** *** A carrier to call

    Simple stand-ins for the imported classes: a transaction is its [id],
    which must be a string; a request is the POJO, valid when the named
    field is a string; a pickup confirmation is the POJO, valid when it has
    shipments. *)
Import CarrierMethods.

Definition require_string (field : string) (pojo : value) : M heap value :=
  let* x := Get pojo (KStr field) in
  match x with
  | VStr _ => ret pojo
  | _ => throw ValidationError
  end.

Definition require_object (field : string) (pojo : value) : M heap value :=
  let* x := Get pojo (KStr field) in
  match x with
  | VRef _ => ret pojo
  | _ => throw ValidationError
  end.

Definition simple : Imports := {|
  App := unit;
  Transaction := string;
  new_Transaction := fun pojo =>
    let* x := Get pojo (KStr "id") in
    match x with
    | VStr id => ret id
    | _ => throw ValidationError
    end;
  Transaction_id := fun t => t;
  PickupRequest := value;
  new_PickupRequest := fun pojo _ => require_string "pickupServiceID" pojo;
  PickupCancellation := value;
  new_PickupCancellation := fun pojo _ => require_string "cancellationID" pojo;
  LabelSpec := value;
  new_LabelSpec := fun pojo _ => require_string "format" pojo;
  RateCriteria := value;
  new_RateCriteria := fun pojo _ => require_string "deliveryServiceID" pojo;
  TrackingCriteria := value;
  new_TrackingCriteria := fun pojo _ => require_string "trackingNumber" pojo;
  PickupConfirmation := value;
  new_PickupConfirmation := require_object "shipments";
  LabelConfirmation := value;
  new_LabelConfirmation := require_string "trackingNumber";
  RateQuote := value;
  new_RateQuote := fun pojo _ => require_object "rates" pojo;
  URL := string;
  new_URL := fun x => match x with VStr s => ret s | _ => throw TypeError end;
  Localization := unit
|}.

(** A carrier whose user-defined methods all behave as [f]. *)
Definition carrier_with (f : M heap value) : Private simple :=
  Build_Private simple tt tt
    (Some (fun _ _ => f)) (Some (fun _ _ => f)) (Some (fun _ _ => f))
    (Some (fun _ _ => f)) (Some (fun _ _ => f)) (Some (fun _ _ => f))
    (Some (fun _ _ => f)) (Some (fun _ _ => f)).

(** 0: a transaction POJO; 1: a request POJO that is valid for every method,
    with its shipments (2); 3: a POJO with no field; 4: a confirmation with
    no shipments; 5: the same, frozen. *)
Definition call_heap : heap :=
  [ Obj KOrdinary None true [ (KStr "id", data_prop (VStr "tx-1")) ];
    Obj KOrdinary None true
        [ (KStr "pickupServiceID", data_prop (VStr "svc-1"));
          (KStr "cancellationID", data_prop (VStr "c-1"));
          (KStr "format", data_prop (VStr "pdf"));
          (KStr "deliveryServiceID", data_prop (VStr "ds-1"));
          (KStr "trackingNumber", data_prop (VStr "1Z"));
          (KStr "shipments", data_prop (VRef 2)) ];
    empty_array;
    empty_object;
    Obj KOrdinary None true [ (KStr "confirmationID", data_prop (VStr "p-1")) ];
    Obj KOrdinary None false
        [ (KStr "confirmationID", Prop_ (VStr "p-1") true false false) ] ].

Definition start : world := World call_heap [].


(** *** A carrier to construct

    Stand-ins for the imported classes: each creates one object. *)
Definition carrier_imports : Carrier.Imports := {|
  Carrier.new_URL := fun x =>
    let* l := alloc (Obj KOrdinary None true [(KStr "href", data_prop x)]) in ret (VRef l);
  Carrier.map_new_DeliveryService := fun _ _ =>
    let* l := alloc empty_array in ret (VRef l);
  Carrier.map_new_PickupService := fun _ _ =>
    let* l := alloc empty_array in ret (VRef l);
  Carrier.new_Localization := fun x =>
    let* l := alloc (Obj KOrdinary None true [(KStr "pojo", data_prop x)]) in ret (VRef l);
  Carrier.prototype := Some 0
|}.

(** A method of a class: writable, configurable, not enumerable. *)
Definition method_prop (f : value) : prop := Prop_ f false true true.

(** 0: [Carrier.prototype], whose methods are the function 1; 2: the user's
    [getRates]; 3: a carrier POJO that implements [getRates] only, with its
    delivery services (4); 5: the app, 6: [app[_internal]], 7: its set of
    references. *)
Definition carrier_heap : heap :=
  [ Obj KOrdinary None true
        (map (fun m => (KStr m, method_prop (VRef 1)))
             (Carrier.user_methods ++ ["localize"; "toJSON"]));
    Obj KFunction None true [];
    Obj KFunction None true [];
    Obj KOrdinary None true
        [ (KStr "id", data_prop (VStr "8c1b2a9e-0000-4000-8000-000000000001"));
          (KStr "name", data_prop (VStr "My Carrier"));
          (KStr "websiteURL", data_prop (VStr "https://example.com"));
          (KStr "logo", data_prop (VStr "logo.svg"));
          (KStr "deliveryServices", data_prop (VRef 4));
          (KStr "getRates", data_prop (VRef 2)) ];
    empty_array;
    Obj KOrdinary None true [ (KSym _internal, data_prop (VRef 6)) ];
    Obj KOrdinary None true [ (KStr "references", data_prop (VRef 7)) ];
    Obj (KSet []) None true [] ].

(** The carrier is created at 8. *)
Definition carrier_heap_built : heap :=
  Eval vm_compute in heap_of (Carrier.new carrier_imports (VRef 3) (VRef 5) carrier_heap).

(** *** A carrier as field values

    The URL is its string, which must not be empty; a service and a
    localization are their names. *)

Definition sample_pojo : @CarrierData.CarrierPOJO string string string string nat := {|
  CarrierData.p_id := "8c1b2a9e-0000-4000-8000-000000000001";
  CarrierData.p_name := "My Carrier";
  CarrierData.p_description := None;
  CarrierData.p_websiteURL := CarrierData.UrlString "https://example.com/";
  CarrierData.p_logo := "logo.svg";
  CarrierData.p_deliveryServices := ["ground"; "overnight"];
  CarrierData.p_pickupServices := None;
  CarrierData.p_localization := None;
  CarrierData.p_methods :=
    CarrierData.Build_UserMethods None None None None (Some 1) None None None
|}.

Definition sample_parse_URL (s : string) : option string :=
  if String.eqb s "" then None else Some s.

Definition sample_carrier : @CarrierData.Carrier string string string string unit nat := {|
  CarrierData.id := "8c1b2a9e-0000-4000-8000-000000000001";
  CarrierData.name := "My Carrier";
  CarrierData.description := "";
  CarrierData.websiteURL := "https://example.com/";
  CarrierData.logo := "logo.svg";
  CarrierData.deliveryServices := ["ground"; "overnight"];
  CarrierData.pickupServices := [];
  CarrierData.app := tt;
  CarrierData.localization := "";
  CarrierData.methods :=
    CarrierData.Build_UserMethods None None None None (Some 1) None None None
|}.


(** *** A delivery service

    A service area is the string of the enumeration member, and a packaging
    is its service area. *)
Definition sample_service (packagings : list string)
    : @DeliveryService.t string unit unit := {|
  DeliveryService.id := "3b7d3c1e-0000-4000-8000-000000000002";
  DeliveryService.name := "Priority Overnight";
  DeliveryService.description := "";
  DeliveryService.class := "ground";
  DeliveryService.grade := "standard";
  DeliveryService.originCountries := ["US"];
  DeliveryService.destinationCountries := ["US"; "CA"];
  DeliveryService.carrier := tt;
  DeliveryService.packaging := packagings;
  DeliveryService.deliveryConfirmations := [];
  DeliveryService.labelFormats := ["pdf"];
  DeliveryService.labelSizes := ["4x6"];
  DeliveryService.isReturnService := false;
  DeliveryService.allowsMultiplePackages := false;
  DeliveryService.hasTracking := true;
  DeliveryService.requiresManifest := None
|}.

Definition sample_serviceArea (packagings : list string) : string :=
  DeliveryService.serviceArea "regional" "domestic" "worldwide" (fun p => p)
    (sample_service packagings).

End Examples.


(** ** More concrete values, used to exercise the further properties *)

Module MoreExamples.
Import JS Utils CarrierMethods Examples.

(** A carrier that implements no user-defined method. *)
Definition carrier_without_methods : Private simple :=
  Build_Private simple tt tt None None None None None None None None.

(** A pickup confirmation whose [shipments] is there and [undefined]:
    [{ confirmationID: "p-2", shipments: undefined }]. *)
Definition undefined_shipments : obj :=
  Obj KOrdinary None true
      [ (KStr "confirmationID", data_prop (VStr "p-2"));
        (KStr "shipments", data_prop VUndef) ].

(** An object with a plain object (1) and a typed array that is not a
    [Buffer] and has two elements (2): [{ tags: {...}, view: new Uint8Array(2) }]. *)
Definition typed_array_heap : heap :=
  [ Obj KOrdinary None true
        [ (KStr "tags", data_prop (VRef 1));
          (KStr "view", data_prop (VRef 2)) ];
    Obj KOrdinary None true [ (KStr "first", data_prop (VStr "a")) ];
    Obj (KTypedArray 2) None true [] ].

(** An object whose symbol-keyed field holds a [Buffer] of four bytes:
    [{ [sym0]: Buffer.alloc(4) }]. *)
Definition symbol_buffer_heap : heap :=
  [ Obj KOrdinary None true [ (KSym 0, data_prop (VRef 1)) ];
    Obj (KBuffer 4) None true [] ].

(** *** A delivery service to construct

    Stand-ins for the imported assertions and classes: an assertion returns
    the value, or the default when the value is [undefined]; mapping a
    constructor over an array creates an array. *)
Definition or_default (x : value) (d : option value) : M heap value :=
  match x, d with
  | VUndef, Some v => ret v
  | _, _ => ret x
  end.

Definition service_imports : DeliveryService.Imports := {|
  DeliveryService.assert_type_object := fun x _ => ret x;
  DeliveryService.assert_string_uuid := fun x _ => ret x;
  DeliveryService.assert_string_nonWhitespace := fun x _ => ret x;
  DeliveryService.assert_string := fun x _ d => or_default x d;
  DeliveryService.assert_string_enum := fun x _ _ => ret x;
  DeliveryService.assert_array_ofEnum := fun x _ _ d => or_default x d;
  DeliveryService.assert_array_nonEmpty := fun x _ => ret x;
  DeliveryService.assert_array := fun x _ d => or_default x d;
  DeliveryService.assert_type_boolean := fun x _ d => or_default x d;
  DeliveryService.Country := VUndef;
  DeliveryService.DeliveryServiceClass := VUndef;
  DeliveryService.DeliveryServiceGrade := VUndef;
  DeliveryService.LabelFormat := VUndef;
  DeliveryService.LabelSize := VUndef;
  DeliveryService.ManifestType := VUndef;
  DeliveryService.new_Carrier := ret;
  DeliveryService.map_new_Packaging := fun _ =>
    let* l := alloc empty_array in ret (VRef l);
  DeliveryService.map_new_DeliveryConfirmation := fun _ =>
    let* l := alloc empty_array in ret (VRef l);
  DeliveryService.prototype := None
|}.

(** 0: a delivery service configuration, with its origin countries (1),
    its destination countries (2) and its packaging (3). *)
Definition service_heap : heap :=
  [ Obj KOrdinary None true
        [ (KStr "id", data_prop (VStr "3b7d3c1e-0000-4000-8000-000000000002"));
          (KStr "name", data_prop (VStr "Priority Overnight"));
          (KStr "class", data_prop (VStr "ground"));
          (KStr "grade", data_prop (VStr "standard"));
          (KStr "originCountries", data_prop (VRef 1));
          (KStr "destinationCountries", data_prop (VRef 2));
          (KStr "packaging", data_prop (VRef 3)) ];
    empty_array;
    empty_array;
    empty_array ].

(** The service is created at 4. *)
Definition service_heap_built : heap :=
  Eval vm_compute in heap_of (DeliveryService.new service_imports (VRef 0) service_heap).

End MoreExamples.

Module FreezeFacts.
Import JS HeapRelations Utils.

Lemma bind_Ok {S A B} (m : M S A) (k : A -> M S B) s b s' :
  bind m k s = Ok b s' -> exists a s1, m s = Ok a s1 /\ k a s1 = Ok b s'.
Proof. unfold bind. destruct (m s); naive_solver. Qed.

Lemma bind_eq_Ok {S A B} (m : M S A) (k : A -> M S B) s a s1 :
  m s = Ok a s1 -> bind m k s = k a s1.
Proof. unfold bind. by intros ->. Qed.

Lemma bind_eq_Throw {S A B} (m : M S A) (k : A -> M S B) s e s1 :
  m s = Throw e s1 -> bind m k s = Throw e s1.
Proof. unfold bind. by intros ->. Qed.

Lemma read_obj_eq l h o : h !! l = Some o -> read_obj l h = Ok o h.
Proof. unfold read_obj. by intros ->. Qed.

Lemma read_obj_Ok l h o h' : read_obj l h = Ok o h' -> h !! l = Some o /\ h' = h.
Proof. unfold read_obj. destruct (h !! l); naive_solver. Qed.

#[local] Instance prop_evolves_refl : Reflexive prop_evolves.
Proof. intros [k p]. unfold prop_evolves. destruct k; naive_solver. Qed.

#[local] Instance prop_evolves_trans : Transitive prop_evolves.
Proof.
  intros [k1 p1] [k2 p2] [k3 p3]. unfold prop_evolves. simpl.
  intros (-> & ? & ? & ? & ?) (-> & ? & ? & ? & ?).
  destruct k1; intuition congruence.
Qed.

#[local] Instance obj_evolves_refl : Reflexive obj_evolves.
Proof. intros o. unfold obj_evolves. repeat split; auto. reflexivity. Qed.

#[local] Instance obj_evolves_trans : Transitive obj_evolves.
Proof.
  intros o1 o2 o3 (Hk1 & Hp1 & He1 & HF1) (Hk2 & Hp2 & He2 & HF2).
  repeat split; try congruence; auto. by etrans.
Qed.

#[local] Instance heap_evolves_refl : Reflexive heap_evolves.
Proof. intros h. unfold heap_evolves. reflexivity. Qed.

#[local] Instance heap_evolves_trans : Transitive heap_evolves.
Proof. intros h1 h2 h3 H1 H2. unfold heap_evolves in *. by etrans. Qed.

Lemma heap_evolves_lookup h h' l o :
  heap_evolves h h' -> h !! l = Some o -> exists o', h' !! l = Some o' /\ obj_evolves o o'.
Proof. intros H Hl. eapply Forall2_lookup_l in H; eauto. Qed.

Lemma heap_evolves_lookup_None h h' l :
  heap_evolves h h' -> h !! l = None -> h' !! l = None.
Proof.
  intros H Hl. apply lookup_ge_None. apply lookup_ge_None in Hl.
  by rewrite <- (Forall2_length _ _ _ H).
Qed.

Lemma heap_evolves_insert h l o o' :
  h !! l = Some o -> obj_evolves o o' -> heap_evolves h (<[l := o']> h).
Proof.
  intros Hl Ho. rewrite <- (list_insert_id h l o) at 1 by done.
  apply Forall2_insert; [reflexivity | done].
Qed.


(** Frozen objects stay frozen. *)
Lemma prop_frozen_evolves kp kp' :
  prop_evolves kp kp' -> prop_frozen kp = true -> prop_frozen kp' = true.
Proof.
  destruct kp as [k [v e w c]], kp' as [k' [v' e' w' c']].
  unfold prop_evolves, prop_frozen; simpl. intros (_ & _ & Hw & Hc & _) H.
  destruct w, c, w', c'; simpl in *; intuition congruence.
Qed.

Lemma obj_frozen_evolves o o' :
  obj_evolves o o' -> obj_frozen o = true -> obj_frozen o' = true.
Proof.
  intros (Hk & _ & He & HF). unfold obj_frozen.
  rewrite !andb_true_iff, !negb_true_iff, Hk. intros [[? ?] Hall].
  repeat split; [done | destruct (o_extensible o'); intuition congruence |].
  rewrite forallb_forall in *. clear -HF Hall.
  induction HF; intros kp Hin; [destruct Hin|].
  destruct Hin as [<- | Hin].
  - eapply prop_frozen_evolves; [eassumption|]. apply Hall. by left.
  - apply IHHF; [|done]. intros ? ?. apply Hall. by right.
Qed.

Lemma is_frozen_evolves h h' l :
  heap_evolves h h' -> is_frozen h l = true -> is_frozen h' l = true.
Proof.
  unfold is_frozen. intros H. destruct (h !! l) as [o|] eqn:Hl; [|done].
  destruct (heap_evolves_lookup _ _ _ _ H Hl) as (o' & Hl' & Ho).
  rewrite Hl'.  by apply obj_frozen_evolves.
Qed.

Lemma value_frozen_evolves h h' v :
  heap_evolves h h' -> value_frozen h v = true -> value_frozen h' v = true.
Proof. destruct v; simpl; auto. apply is_frozen_evolves. Qed.

Lemma buffer_valued_evolves h h' v :
  heap_evolves h h' -> buffer_valued h' v = buffer_valued h v.
Proof.
  intros H. destruct v; simpl; auto.
  destruct (h !! l) as [o|] eqn:Hl.
  - destruct (heap_evolves_lookup _ _ _ _ H Hl) as (o' & -> & (-> & _)). done.
  - by rewrite (heap_evolves_lookup_None _ _ _ H Hl).
Qed.

(** What the two loops read is not changed. *)
Lemma entries_of_evolves ps ps' :
  Forall2 prop_evolves ps ps' -> entries_of ps' = entries_of ps.
Proof.
  induction 1 as [|[k p] [k' p'] ps ps' (Hk & Hv & _ & _ & He) _ IH]; [done|].
  simpl in *. subst k'. destruct k; simpl; [|done].
  rewrite He, Hv, IH. done.
Qed.

Lemma symbols_of_evolves ps ps' :
  Forall2 prop_evolves ps ps' -> symbols_of ps' = symbols_of ps.
Proof.
  induction 1 as [|[k p] [k' p'] ps ps' (Hk & _) _ IH]; [done|].
  simpl in *. subst k'. destruct k; simpl; congruence.
Qed.

Lemma alist_lookup_evolves k ps ps' :
  Forall2 prop_evolves ps ps' ->
  match alist_lookup k ps with
  | Some p => exists p', alist_lookup k ps' = Some p' /\ prop_evolves (k, p) (k, p')
  | None => alist_lookup k ps' = None
  end.
Proof.
  induction 1 as [|[k1 p] [k' p'] ps ps' Hp _ IH]; [done|].
  pose proof Hp as (Hk & _). simpl in *. subst k'.
  destruct (decide (k = k1)) as [->|]; [|done]. eauto.
Qed.

Lemma own_prop_evolves h h' l k p :
  heap_evolves h h' -> own_prop h l k = Some p ->
  exists p', own_prop h' l k = Some p' /\ prop_evolves (k, p) (k, p').
Proof.
  unfold own_prop. intros H Hp.
  destruct (h !! l) as [o|] eqn:Hl; simpl in *; [|done].
  destruct (heap_evolves_lookup _ _ _ _ H Hl) as (o' & -> & (_ & _ & _ & HF)). simpl.
  pose proof (alist_lookup_evolves k _ _ HF) as Hk. by rewrite Hp in Hk.
Qed.


(** *** The primitive steps *)

Lemma freeze_prop_frozen ps :
  forallb prop_frozen (map (fun kp => (kp.1, freeze_prop kp.2)) ps) = true.
Proof. induction ps as [|[k p] ps IH]; simpl; auto. Qed.

Lemma freeze_props_evolves ps :
  Forall2 prop_evolves ps (map (fun kp => (kp.1, freeze_prop kp.2)) ps).
Proof.
  induction ps as [|[k p] ps IH]; simpl; constructor; [|done].
  unfold prop_evolves; simpl. destruct k; naive_solver.
Qed.

Lemma freeze_props_id ps :
  forallb prop_frozen ps = true -> map (fun kp => (kp.1, freeze_prop kp.2)) ps = ps.
Proof.
  induction ps as [|[k [v e w c]] ps IH]; simpl; [done|].
  unfold prop_frozen at 1; simpl. rewrite !andb_true_iff, !negb_true_iff.
  intros [[-> ->] Hps]. by rewrite IH.
Qed.

Lemma freeze_obj_frozen o : freezable (o_kind o) = true -> obj_frozen (freeze_obj o) = true.
Proof. intros Hk. unfold obj_frozen; simpl. by rewrite Hk, freeze_prop_frozen. Qed.

Lemma freeze_obj_evolves o : obj_evolves o (freeze_obj o).
Proof. unfold obj_evolves; simpl. repeat split; [done|]. apply freeze_props_evolves. Qed.

Lemma freeze_obj_id o : obj_frozen o = true -> freeze_obj o = o.
Proof.
  destruct o as [k pr e ps]. unfold obj_frozen, freeze_obj; simpl.
  rewrite !andb_true_iff, !negb_true_iff. intros [[_ ->] Hps]. by rewrite freeze_props_id.
Qed.

Lemma Object_freeze_Ok v h v' h' :
  Object_freeze v h = Ok v' h' ->
  v' = v /\ heap_evolves h h' /\ value_frozen h' v = true /\
  match v with
  | VRef l => exists o, h !! l = Some o /\ h' = <[l := freeze_obj o]> h
  | _ => h' = h
  end.
Proof.
  destruct v; simpl; try (intros [= <- <-]; repeat split; reflexivity).
  intros (o & h1 & (Hl & ->)%read_obj_Ok & Hk)%bind_Ok.
  destruct (freezable (o_kind o)) eqn:Hfr; [|done].
  injection Hk as <- <-. repeat split.
  - eapply heap_evolves_insert; [done | apply freeze_obj_evolves].
  - unfold is_frozen. rewrite list_lookup_insert_eq by (by eapply lookup_lt_Some).
    by apply freeze_obj_frozen.
  - eauto.
Qed.

Lemma Object_freeze_frozen v h :
  value_frozen h v = true -> Object_freeze v h = Ok v h.
Proof.
  destruct v; simpl; try done. unfold is_frozen, bind, read_obj.
  destruct (h !! l) as [o|] eqn:Hl; [|done]. intros Hfr.
  assert (freezable (o_kind o) = true) as ->.
  { unfold obj_frozen in Hfr. by destruct (freezable (o_kind o)). }
  unfold write_obj. rewrite freeze_obj_id by done. by rewrite list_insert_id.
Qed.

Lemma alist_update_evolves k p p' ps :
  alist_lookup k ps = Some p -> prop_evolves (k, p) (k, p') ->
  Forall2 prop_evolves ps (alist_update k p' ps).
Proof.
  induction ps as [|[k1 p1] ps IH]; simpl; [done|].
  destruct (decide (k = k1)) as [->|].
  - intros [= ->] ?. constructor; [done | reflexivity].
  - intros. constructor; [reflexivity | auto].
Qed.

Lemma alist_lookup_update k p ps :
  is_Some (alist_lookup k ps) -> alist_lookup k (alist_update k p ps) = Some p.
Proof.
  induction ps as [|[k1 p1] ps IH]; simpl; [by intros [? ?]|].
  destruct (decide (k = k1)) as [->|] eqn:E; simpl.
  - by rewrite decide_True.
  - rewrite E. auto.
Qed.

Lemma alist_update_id k p ps :
  alist_lookup k ps = Some p -> alist_update k p ps = ps.
Proof.
  induction ps as [|[k1 p1] ps IH]; simpl; [done|].
  destruct (decide (k = k1)) as [->|]; [by intros [= ->]|].
  intros. by rewrite IH.
Qed.

Lemma alist_lookup_symbols n ps :
  n ∈ symbols_of ps -> is_Some (alist_lookup (KSym n) ps).
Proof.
  induction ps as [|[k p] ps IH]; simpl; [by intros ?%elem_of_nil|].
  destruct (decide (KSym n = k)) as [<-|Hne]; [eauto|].
  destruct k as [s|m]; [done|]. intros [->|?]%elem_of_cons; [done | auto].
Qed.

Lemma symbols_alist_lookup n p ps :
  alist_lookup (KSym n) ps = Some p -> n ∈ symbols_of ps.
Proof.
  induction ps as [|[k p1] ps IH]; simpl; [done|].
  destruct (decide (KSym n = k)) as [<-|Hne]; [intros; apply elem_of_cons; by left|].
  destruct k; [auto|]. intros. apply elem_of_cons; right. auto.
Qed.

Lemma entries_alist_lookup s p ps :
  alist_lookup (KStr s) ps = Some p -> p_enumerable p = true ->
  (s, p_value p) ∈ entries_of ps.
Proof.
  induction ps as [|[k p1] ps IH]; simpl; [done|].
  destruct (decide (KStr s = k)) as [<-|Hne].
  - intros [= ->] ->. apply elem_of_cons; by left.
  - intros. destruct k; [|auto]. destruct (p_enumerable p1); [apply elem_of_cons; right|]; auto.
Qed.

(** Hiding an own property. *)
Lemma Object_defineProperty_hidden_Ok l n h h' :
  is_Some (own_prop h l (KSym n)) ->
  Object_defineProperty_hidden l (KSym n) h = Ok tt h' ->
  heap_evolves h h' /\
  exists p, own_prop h' l (KSym n) = Some p /\ p_enumerable p = false.
Proof.
  unfold own_prop. intros [p Hp].
  intros (o & h1 & (Hl & ->)%read_obj_Ok & Hk)%bind_Ok.
  rewrite Hl in Hp; simpl in Hp. rewrite Hp in Hk.
  destruct (p_configurable p || negb (p_enumerable p)) eqn:Hc; [|done].
  injection Hk as <-. split.
  - eapply heap_evolves_insert; [done|].
    unfold obj_evolves; simpl. repeat split; [done|].
    eapply alist_update_evolves; [done|]. unfold prop_evolves; simpl. naive_solver.
  - rewrite list_lookup_insert_eq by (by eapply lookup_lt_Some). simpl.
    rewrite alist_lookup_update by eauto. eauto.
Qed.

Lemma Object_defineProperty_hidden_id l k h p :
  own_prop h l k = Some p -> p_enumerable p = false ->
  Object_defineProperty_hidden l k h = Ok tt h.
Proof.
  unfold own_prop, Object_defineProperty_hidden, bind, read_obj.
  destruct (h !! l) as [o|] eqn:Hl; simpl; [|done]. intros Hp He. rewrite Hp, He.
  rewrite orb_true_r. unfold write_obj. destruct p as [v e w c]; simpl in *; subst e.
  rewrite alist_update_id by done. destruct o. unfold with_props; simpl.
  by rewrite list_insert_id.
Qed.

(** A read finds an own property first. *)
Lemma lookup_field_own h l k p :
  own_prop h l k = Some p -> lookup_field h l k = Some p.
Proof.
  unfold own_prop, lookup_field. cbn [lookup_chain].
  destruct (h !! l) as [o|]; simpl; [|done]. by intros ->.
Qed.

Lemma Get_own h l k p :
  own_prop h l k = Some p -> Get (VRef l) k h = Ok (p_value p) h.
Proof.
  intros Hp. pose proof (lookup_field_own _ _ _ _ Hp) as Hf.
  unfold Get, bind, read_obj. unfold own_prop in Hp.
  destruct (h !! l); [|done]. by rewrite Hf.
Qed.


(** *** The two loops *)

Lemma freeze_field_ref l o h :
  h !! l = Some o ->
  freeze_field (VRef l) h =
  match o_kind o with
  | KBuffer _ => Ok tt h
  | _ => (Object_freeze (VRef l);; ret tt) h
  end.
Proof.
  intros Hl. unfold freeze_field, typeof, instanceof_Buffer, bind, read_obj.
  rewrite Hl. destruct (o_kind o) eqn:Hk; simpl; rewrite ?Hl, ?Hk; reflexivity.
Qed.

Lemma freeze_field_Ok v h u h' :
  freeze_field v h = Ok u h' ->
  heap_evolves h h' /\ (buffer_valued h v = false -> value_frozen h' v = true).
Proof.
  destruct v as [| | b | z | s | l];
    [cbv; intros ?; simplify_eq; split; [reflexivity | done] ..|].
  destruct (h !! l) as [o|] eqn:Hl.
  2:{ unfold freeze_field, typeof, bind, read_obj. by rewrite Hl. }
  rewrite (freeze_field_ref _ _ _ Hl). simpl. rewrite Hl.
  assert (forall h1, (Object_freeze (VRef l);; ret tt) h = Ok u h1 ->
            heap_evolves h h1 /\ is_frozen h1 l = true) as Hfr.
  { intros h1 (v' & h2 & (_ & ? & ? & _)%Object_freeze_Ok & [= <- <-])%bind_Ok.
    split; assumption. }
  destruct (o_kind o); try (intros ?%Hfr; tauto).
  intros [= <- <-]. split; [reflexivity | done].
Qed.

Lemma freeze_field_settled v h :
  buffer_valued h v = true \/ value_frozen h v = true ->
  match v with VRef l => is_Some (h !! l) | _ => True end ->
  freeze_field v h = Ok tt h.
Proof.
  destruct v; try done.
  intros Hv [o Hl]. rewrite (freeze_field_ref _ _ _ Hl).
  assert (is_frozen h l = true -> (Object_freeze (VRef l);; ret tt) h = Ok tt h) as Hfr.
  { intros Hf. unfold bind. by rewrite (Object_freeze_frozen (VRef l)). }
  simpl in Hv. rewrite Hl in Hv.
  destruct (o_kind o); try done; apply Hfr; by destruct Hv.
Qed.

Lemma freeze_fields_Ok omit es h u h' :
  freeze_fields omit es h = Ok u h' ->
  heap_evolves h h' /\
  forall s v, (s, v) ∈ es -> s ∉ omit -> buffer_valued h v = false ->
              value_frozen h' v = true.
Proof.
  revert h. induction es as [|[s0 v0] es IH]; intros h; simpl.
  - intros [= <- <-]. split; [reflexivity|]. by intros ? ? ?%elem_of_nil.
  - case_bool_decide as Homit.
    + intros (He & Hes)%IH. split; [done|].
      intros s v [[= -> ->]|Hin]%elem_of_cons; [done | eauto].
    + intros (u1 & h1 & (He1 & Hv1)%freeze_field_Ok & (He2 & Hes)%IH)%bind_Ok.
      split; [by etrans|].
      intros s v [[= -> ->]|Hin]%elem_of_cons ? Hb.
      * eapply value_frozen_evolves; eauto.
      * apply (Hes s v); [done..|]. by rewrite (buffer_valued_evolves _ _ _ He1).
Qed.

Lemma freeze_fields_settled omit es h :
  (forall s v, (s, v) ∈ es -> s ∉ omit ->
     buffer_valued h v = false -> value_frozen h v = true) ->
  freeze_fields omit es h = Ok tt h.
Proof.
  induction es as [|[s0 v0] es IH]; intros Hes; simpl; [done|].
  assert (freeze_fields omit es h = Ok tt h) as Hrest.
  { apply IH. intros. eapply Hes; [apply elem_of_cons; right|..]; done. }
  case_bool_decide as Homit; [done|].
  unfold bind. rewrite freeze_field_settled; [done|..].
  - destruct (buffer_valued h v0) eqn:Hb; [by left|right].
    eapply Hes; [apply elem_of_cons; by left|done..].
  - destruct v0; try done. 
    destruct (buffer_valued h (VRef l)) eqn:Hb.
    + simpl in Hb. destruct (h !! l); [eauto | done].
    + assert (is_frozen h l = true) as Hf.
      { eapply (Hes s0 (VRef l)); [apply elem_of_cons; by left|done..]. }
      unfold is_frozen in Hf. destruct (h !! l); [eauto | done].
Qed.

Lemma hide_symbol_Ok obj n h u h' :
  is_Some (own_prop h obj (KSym n)) ->
  hide_symbol obj n h = Ok u h' ->
  heap_evolves h h' /\
  exists p, own_prop h' obj (KSym n) = Some p /\ p_enumerable p = false /\
            value_frozen h' (p_value p) = true.
Proof.
  intros Hown (u1 & h1 & Hdef & Hrest)%bind_Ok. destruct u1.
  apply Object_defineProperty_hidden_Ok in Hdef as (He1 & p1 & Hp1 & Hen1); [|done].
  apply bind_Ok in Hrest as (v & h2 & Hget & Hrest).
  rewrite (Get_own _ _ _ _ Hp1) in Hget. injection Hget as <- <-.
  apply bind_Ok in Hrest as (v' & h3 & (_ & He2 & Hfr & _)%Object_freeze_Ok & [= <- <-]).
  split; [by etrans|].
  destruct (own_prop_evolves _ _ _ _ _ He2 Hp1) as (p2 & Hp2 & _ & Hv & _ & _ & Hen).
  simpl in *. exists p2. rewrite Hv. repeat split; [done| |done].
  destruct (p_enumerable p2); [|done]. rewrite Hen in Hen1 by done. done.
Qed.

Lemma hide_symbol_settled obj n h p :
  own_prop h obj (KSym n) = Some p -> p_enumerable p = false ->
  value_frozen h (p_value p) = true ->
  hide_symbol obj n h = Ok tt h.
Proof.
  intros Hp Hen Hfr. unfold hide_symbol, bind.
  rewrite (Object_defineProperty_hidden_id _ _ _ _ Hp Hen).
  rewrite (Get_own _ _ _ _ Hp). by rewrite (Object_freeze_frozen _ _ Hfr).
Qed.

Lemma hide_symbols_Ok obj ns h u h' :
  (forall n, n ∈ ns -> is_Some (own_prop h obj (KSym n))) ->
  hide_symbols obj ns h = Ok u h' ->
  heap_evolves h h' /\
  forall n, n ∈ ns ->
    exists p, own_prop h' obj (KSym n) = Some p /\ p_enumerable p = false /\
              value_frozen h' (p_value p) = true.
Proof.
  revert h. induction ns as [|n0 ns IH]; intros h Hown; simpl.
  - intros [= <- <-]. split; [reflexivity|]. by intros ? ?%elem_of_nil.
  - intros (u1 & h1 & Hstep & Hrest)%bind_Ok.
    apply hide_symbol_Ok in Hstep as (He1 & p1 & Hp1 & Hen1 & Hfr1);
      [|apply Hown, elem_of_cons; by left].
    apply IH in Hrest as (He2 & Hns).
    2:{ intros n Hn. destruct (Hown n) as [p Hp]; [apply elem_of_cons; by right|].
        destruct (own_prop_evolves _ _ _ _ _ He1 Hp) as (p' & -> & _). eauto. }
    split; [by etrans|].
    intros n [->|Hin]%elem_of_cons; [|auto].
    destruct (own_prop_evolves _ _ _ _ _ He2 Hp1) as (p2 & Hp2 & _ & Hv & _ & _ & Hen).
    simpl in *. exists p2. rewrite Hv. repeat split; [done| |].
    + destruct (p_enumerable p2); [|done]. rewrite Hen in Hen1 by done. done.
    + eapply value_frozen_evolves; eauto.
Qed.

Lemma hide_symbols_settled obj ns h :
  (forall n, n ∈ ns ->
     exists p, own_prop h obj (KSym n) = Some p /\ p_enumerable p = false /\
               value_frozen h (p_value p) = true) ->
  hide_symbols obj ns h = Ok tt h.
Proof.
  induction ns as [|n0 ns IH]; intros Hns; simpl; [done|].
  destruct (Hns n0) as (p & Hp & Hen & Hfr); [apply elem_of_cons; by left|].
  unfold bind. rewrite (hide_symbol_settled _ _ _ _ Hp Hen Hfr).
  apply IH. intros. apply Hns, elem_of_cons. by right.
Qed.


(** *** [hideAndFreeze] as a whole *)

Lemma hideAndFreeze_Ok obj omit h u h' :
  hideAndFreeze obj omit h = Ok u h' -> heap_evolves h h' /\ settled h' obj omit.
Proof.
  unfold hideAndFreeze.
  intros (es & h0 & (o & ? & (Hl & ->)%read_obj_Ok & [= <- <-])%bind_Ok & Hk)%bind_Ok.
  apply bind_Ok in Hk as (u1 & h1 & (He1 & Hes)%freeze_fields_Ok & Hk).
  destruct (heap_evolves_lookup _ _ _ _ He1 Hl) as (o1 & Hl1 & Ho1).
  apply bind_Ok in Hk as (ns & ? & (? & ? & (Hl1' & ->)%read_obj_Ok & [= <- <-])%bind_Ok & Hk).
  rewrite Hl1 in Hl1'. injection Hl1' as <-.
  apply bind_Ok in Hk as (u2 & h2 & Hsyms & Hk).
  apply hide_symbols_Ok in Hsyms as (He2 & Hns).
  2:{ intros n Hn. unfold own_prop. rewrite Hl1. simpl. by apply alist_lookup_symbols. }
  destruct (heap_evolves_lookup _ _ _ _ He2 Hl1) as (o2 & Hl2 & Ho2).
  apply bind_Ok in Hk as (v3 & h3 & (_ & He3 & Hfr & (o2' & Hl2' & ->))%Object_freeze_Ok & [= <- <-]).
  rewrite Hl2 in Hl2'. injection Hl2' as <-.
  assert (heap_evolves h (<[obj:=freeze_obj o2]> h2)) as He by (etrans; [|etrans]; eauto).
  split; [done|].
  assert (Forall2 prop_evolves (o_props o) (o_props (freeze_obj o2))) as Hps.
  { etrans; [apply Ho1|]. etrans; [apply Ho2|]. apply freeze_obj_evolves. }
  exists (freeze_obj o2). split; [|split; [|split]].
  - apply list_lookup_insert_eq. by eapply lookup_lt_Some.
  - simpl in Hfr. unfold is_frozen in Hfr.
    by rewrite list_lookup_insert_eq in Hfr by (by eapply lookup_lt_Some).
  - rewrite (entries_of_evolves _ _ Hps). intros s v Hin Homit Hb.
    eapply value_frozen_evolves; [etrans; [exact He2 | exact He3]|].
    apply (Hes s v Hin Homit). by rewrite <- (buffer_valued_evolves _ _ _ He).
  - assert (symbols_of (o_props (freeze_obj o2)) = symbols_of (o_props o1)) as ->.
    { apply symbols_of_evolves. etrans; [apply Ho2 | apply freeze_obj_evolves]. }
    intros n Hn. destruct (Hns n Hn) as (p & Hp & Hen & Hv).
    destruct (own_prop_evolves _ _ _ _ _ He3 Hp) as (p' & Hp' & _ & Hv' & _ & _ & Hen').
    simpl in *. unfold own_prop in Hp'.
    rewrite list_lookup_insert_eq in Hp' by (by eapply lookup_lt_Some). simpl in Hp'.
    exists p'. rewrite Hv'. repeat split; [done| |].
    + destruct (p_enumerable p'); [|done]. rewrite Hen' in Hen by done. done.
    + eapply value_frozen_evolves; [exact He3 | exact Hv].
Qed.

Lemma hideAndFreeze_settled obj omit h :
  settled h obj omit -> hideAndFreeze obj omit h = Ok tt h.
Proof.
  intros (o & Hl & Hfr & Hes & Hns). unfold hideAndFreeze.
  erewrite bind_eq_Ok;
    [|unfold Object_entries; erewrite bind_eq_Ok by (by apply read_obj_eq); reflexivity].
  erewrite bind_eq_Ok by (by apply freeze_fields_settled).
  erewrite bind_eq_Ok;
    [|unfold Object_getOwnPropertySymbols;
      erewrite bind_eq_Ok by (by apply read_obj_eq); reflexivity].
  erewrite bind_eq_Ok.
  2:{ apply hide_symbols_settled. intros n Hn. unfold own_prop. rewrite Hl. simpl. auto. }
  erewrite bind_eq_Ok; [reflexivity|].
  apply Object_freeze_frozen. simpl. unfold is_frozen. by rewrite Hl.
Qed.

(** *** What a frozen object refuses *)

Lemma Set_frozen h l k v :
  is_frozen h l = true -> Set_ (VRef l) k v h = Throw TypeError h.
Proof.
  unfold is_frozen, Set_, bind, read_obj. destruct (h !! l) as [o|]; [|done].
  unfold obj_frozen. rewrite !andb_true_iff, !negb_true_iff. intros [[_ Hext] Hps].
  destruct (alist_lookup k (o_props o)) as [p|] eqn:Hp.
  - assert (p_writable p = false) as ->; [|done].
    rewrite forallb_forall in Hps. clear -Hp Hps.
    induction (o_props o) as [|[k1 p1] ps IH]; simpl in *; [done|].
    destruct (decide (k = k1)) as [->|].
    + injection Hp as ->. specialize (Hps (k1, p) (or_introl eq_refl)).
      unfold prop_frozen in Hps. simpl in Hps. by destruct (p_writable p).
    + apply IH; auto.
  - cbv beta. rewrite Hext. destruct (lookup_field h l k); [|done]. by rewrite andb_false_r.
Qed.

Lemma Delete_frozen h l k :
  is_frozen h l = true ->
  (own_prop h l k = None /\ Delete (VRef l) k h = Ok true h) \/
  (is_Some (own_prop h l k) /\ Delete (VRef l) k h = Throw TypeError h).
Proof.
  unfold is_frozen, own_prop, Delete, bind, read_obj. destruct (h !! l) as [o|]; [|done].
  simpl. unfold obj_frozen. rewrite !andb_true_iff, !negb_true_iff. intros [_ Hps].
  destruct (alist_lookup k (o_props o)) as [p|] eqn:Hp; [right|left; done].
  split; [eauto|]. assert (p_configurable p = false) as ->; [|done].
  rewrite forallb_forall in Hps. clear -Hp Hps.
  induction (o_props o) as [|[k1 p1] ps IH]; simpl in *; [done|].
  destruct (decide (k = k1)) as [->|].
  - injection Hp as ->. specialize (Hps (k1, p) (or_introl eq_refl)).
    unfold prop_frozen in Hps. simpl in Hps.
    destruct (p_configurable p); [|done]. by rewrite andb_false_r in Hps.
  - apply IH; auto.
Qed.

End FreezeFacts.


(** ** Facts about the call state *)

Module WrapperFacts.
Import JS FreezeFacts CarrierMethods.

Lemma lift_Ok {A} (m : M heap A) w a h :
  m (w_heap w) = Ok a h -> lift m w = Ok a (World h (w_calls w)).
Proof. unfold lift. by intros ->. Qed.

Lemma lift_Throw {A} (m : M heap A) w e h :
  m (w_heap w) = Throw e h -> lift m w = Throw e (World h (w_calls w)).
Proof. unfold lift. by intros ->. Qed.

Lemma try_catch_Ok {S A} (m : M S A) handler s a s' :
  m s = Ok a s' -> try_catch m handler s = Ok a s'.
Proof. unfold try_catch. by intros ->. Qed.

Lemma try_catch_Throw {S A} (m : M S A) handler s e s' :
  m s = Throw e s' -> try_catch m handler s = handler e s'.
Proof. unfold try_catch. by intros ->. Qed.

(** Reading a freshly written object. *)
Lemma own_prop_insert (h : heap) l o k :
  l < length h -> own_prop (<[l := o]> h) l k = alist_lookup k (o_props o).
Proof. intros Hl. unfold own_prop. by rewrite list_lookup_insert_eq. Qed.

Lemma own_prop_insert_ne (h : heap) l l' o k :
  l ≠ l' -> own_prop (<[l := o]> h) l' k = own_prop h l' k.
Proof. intros Hl. unfold own_prop. by rewrite list_lookup_insert_ne. Qed.

Lemma alist_lookup_app_new k p ps :
  alist_lookup k ps = None -> alist_lookup k (ps ++ [(k, p)]) = Some p.
Proof.
  induction ps as [|[k1 p1] ps IH]; simpl.
  - intros _. by rewrite decide_True.
  - destruct (decide (k = k1)); [done | auto].
Qed.

Lemma alist_lookup_app_other k k' p ps :
  k ≠ k' -> alist_lookup k (ps ++ [(k', p)]) = alist_lookup k ps.
Proof.
  intros Hne. induction ps as [|[k1 p1] ps IH]; simpl.
  - by rewrite decide_False.
  - destruct (decide (k = k1)); [done | auto].
Qed.

Lemma alist_lookup_update_other k k' p ps :
  k ≠ k' -> alist_lookup k (alist_update k' p ps) = alist_lookup k ps.
Proof.
  intros Hne. induction ps as [|[k1 p1] ps IH]; simpl; [done|].
  destruct (decide (k' = k1)) as [->|]; simpl.
  - by rewrite !decide_False.
  - destruct (decide (k = k1)); [done | auto].
Qed.

(** The two ways an assignment succeeds, and what it leaves behind. *)
Lemma Set_Ok l k v h u h' :
  Set_ (VRef l) k v h = Ok u h' ->
  exists o ps, h !! l = Some o /\ h' = <[l := with_props o ps]> h /\
    (exists p, alist_lookup k ps = Some p /\ p_value p = v) /\
    (forall k', k' ≠ k -> alist_lookup k' ps = alist_lookup k' (o_props o)).
Proof.
  intros (o & ? & (Hl & ->)%read_obj_Ok & Hk)%bind_Ok.
  destruct (alist_lookup k (o_props o)) as [p|] eqn:Hp.
  - destruct (p_writable p); [|done]. injection Hk as <- <-.
    eexists o, _. repeat split; [done|..].
    + eexists. rewrite alist_lookup_update by eauto. done.
    + intros. by apply alist_lookup_update_other.
  - assert (o_extensible o = true /\
            h' = <[l:=with_props o (o_props o ++ [(k, data_prop v)])]> h) as [He ->].
    { cbv beta in Hk. destruct (lookup_field h l k) as [p'|].
      - destruct (p_writable p'), (o_extensible o); simpl in Hk; try done.
        by injection Hk as <- <-.
      - destruct (o_extensible o); [|done]. by injection Hk as <- <-. }
    eexists o, _. repeat split; [done|..].
    + eexists. by rewrite alist_lookup_app_new.
    + intros. by apply alist_lookup_app_other.
Qed.

Lemma Set_new l k v h o :
  h !! l = Some o -> lookup_field h l k = None -> o_extensible o = true ->
  Set_ (VRef l) k v h = Ok tt (<[l := with_props o (o_props o ++ [(k, data_prop v)])]> h).
Proof.
  intros Hl Hf He. unfold Set_. erewrite bind_eq_Ok by (by apply read_obj_eq).
  assert (alist_lookup k (o_props o) = None) as ->.
  { destruct (alist_lookup k (o_props o)) as [p|] eqn:Hp; [|done].
    rewrite (lookup_field_own h l k p) in Hf; [done|].
    unfold own_prop. by rewrite Hl. }
  cbv beta. by rewrite Hf, He.
Qed.

(** An assignment either succeeds or is refused with the heap as it was. *)
Lemma Set_result l k v h :
  is_Some (h !! l) ->
  (exists h', Set_ (VRef l) k v h = Ok tt h') \/ Set_ (VRef l) k v h = Throw TypeError h.
Proof.
  intros [o Hl]. unfold Set_. erewrite bind_eq_Ok by (by apply read_obj_eq).
  destruct (alist_lookup k (o_props o)) as [p|].
  - destruct (p_writable p); [left|right]; eauto.
  - cbv beta. destruct (lookup_field h l k) as [p'|].
    + destruct (p_writable p' && o_extensible o); [left|right]; eauto.
    + destruct (o_extensible o); [left|right]; eauto.
Qed.

Lemma Get_ref l k h :
  is_Some (h !! l) ->
  Get (VRef l) k h =
  Ok (match lookup_field h l k with Some p => p_value p | None => VUndef end) h.
Proof.
  intros [o Hl]. unfold Get. erewrite bind_eq_Ok by (by apply read_obj_eq).
  by destruct (lookup_field h l k).
Qed.

Lemma Get_Ok target k h v h' :
  Get target k h = Ok v h' -> h' = h.
Proof.
  destruct target; simpl; try by intros [= _ <-].
  intros (o & ? & (Hl & ->)%read_obj_Ok & Hk)%bind_Ok.
  cbv beta in Hk. destruct (lookup_field h l k); by injection Hk as _ <-.
Qed.


(** A freshly allocated object with no prototype. *)
Lemma lookup_field_fresh (h : heap) o k :
  o_proto o = None ->
  lookup_field (h ++ [o]) (length h) k = alist_lookup k (o_props o).
Proof.
  intros Hp. unfold lookup_field. cbn [lookup_chain].
  rewrite list_lookup_middle by done. rewrite Hp. by destruct (alist_lookup k (o_props o)).
Qed.

Lemma Get_fresh (h : heap) o k :
  o_proto o = None ->
  Get (VRef (length h)) k (h ++ [o]) =
  Ok (match alist_lookup k (o_props o) with Some p => p_value p | None => VUndef end)
     (h ++ [o]).
Proof.
  intros Hp. rewrite Get_ref by (rewrite list_lookup_middle; eauto).
  by rewrite lookup_field_fresh.
Qed.

End WrapperFacts.


(** ** Facts about the constructors *)

Module ConstructorFacts.
Import JS HeapRelations Utils FreezeFacts WrapperFacts.

Lemma frozen_immutable h l : is_frozen h l = true -> immutable h l.
Proof.
  intros Hf. split; [done|]. split.
  - intros. by apply Set_frozen.
  - intros. by apply Delete_frozen.
Qed.

Lemma Object_freeze_self l h v h' :
  Object_freeze (VRef l) h = Ok v h' -> is_frozen h' l = true.
Proof. by intros (_ & _ & ? & _)%Object_freeze_Ok. Qed.

Lemma Get_then_freeze_frozen target k l h u h' :
  is_frozen h l = true ->
  (let* a := Get target k in Object_freeze a) h = Ok u h' ->
  is_frozen h' l = true.
Proof.
  intros Hf (a & h1 & ->%Get_Ok & (_ & He & _)%Object_freeze_Ok)%bind_Ok.
  by eapply is_frozen_evolves.
Qed.

Lemma Set_add_Ok target v h u h' :
  Set_add target v h = Ok u h' ->
  exists l o ms, target = VRef l /\ h !! l = Some o /\
    h' = <[l := Obj (KSet ms) (o_proto o) (o_extensible o) (o_props o)]> h /\
    exists ms0, o_kind o = KSet ms0.
Proof.
  destruct target; try done. simpl.
  intros (o & ? & (Hl & ->)%read_obj_Ok & Hk)%bind_Ok.
  destruct (o_kind o) eqn:Hkind; try done. injection Hk as _ <-. eauto 10.
Qed.

Lemma Set_add_own_prop target v h u h' l k :
  Set_add target v h = Ok u h' -> own_prop h' l k = own_prop h l k.
Proof.
  intros (l0 & o & ms & -> & Hl & -> & _)%Set_add_Ok.
  destruct (decide (l0 = l)) as [->|].
  - rewrite own_prop_insert by (by eapply lookup_lt_Some). unfold own_prop. by rewrite Hl.
  - by apply own_prop_insert_ne.
Qed.

Lemma Set_add_frozen target v h u h' l :
  Set_add target v h = Ok u h' -> is_frozen h l = true -> is_frozen h' l = true.
Proof.
  intros (l0 & o & ms & -> & Hl & -> & ms0 & Hk)%Set_add_Ok. unfold is_frozen.
  destruct (decide (l0 = l)) as [->|].
  - rewrite list_lookup_insert_eq by (by eapply lookup_lt_Some). rewrite Hl.
    unfold obj_frozen. simpl. by rewrite Hk.
  - by rewrite list_lookup_insert_ne.
Qed.


(** *** The entities are frozen when their constructor returns *)

Lemma alloc_Ok o h l h' : alloc o h = Ok l h' -> l = length h /\ h' = h ++ [o].
Proof. by intros [= <- <-]. Qed.

Lemma ret_Ok {S A} (a b : A) (s s' : S) : ret a s = Ok b s' -> b = a /\ s' = s.
Proof. by intros [= <- <-]. Qed.

Ltac get_then_freeze H Hfrozen :=
  let a := fresh "a" in let ha := fresh "ha" in let hb := fresh "hb" in
  let v := fresh "v" in let He := fresh "He" in
  apply bind_Ok in H as (a & ha & ->%Get_Ok & H);
  apply bind_Ok in H as (v & hb & (_ & He & _)%Object_freeze_Ok & H);
  apply (is_frozen_evolves _ _ _ He) in Hfrozen.

Lemma DeliveryService_freeze_all_frozen l h u h' :
  DeliveryService.freeze_all (VRef l) h = Ok u h' -> is_frozen h' l = true.
Proof.
  unfold DeliveryService.freeze_all. intros H.
  apply bind_Ok in H as (v0 & h0 & Hfrozen%Object_freeze_self & H).
  do 6 get_then_freeze H Hfrozen.
  by apply ret_Ok in H as [_ ->].
Qed.

Lemma DeliveryService_new_frozen I config h this h' :
  DeliveryService.new I config h = Ok this h' -> is_frozen h' this = true.
Proof.
  unfold DeliveryService.new. intros H.
  apply bind_Ok in H as (this0 & h1 & [-> ->]%alloc_Ok & H).
  apply bind_Ok in H as (u1 & h2 & _ & H).
  apply bind_Ok in H as (u2 & h3 & Hfrozen%DeliveryService_freeze_all_frozen & H).
  by apply ret_Ok in H as [-> ->].
Qed.

Lemma hideAndFreeze_frozen l omit h u h' :
  hideAndFreeze l omit h = Ok u h' -> is_frozen h' l = true.
Proof.
  intros (_ & o & Hl & Hfr & _)%hideAndFreeze_Ok. unfold is_frozen. by rewrite Hl.
Qed.

Lemma Carrier_register_Ok app this h u h' :
  Carrier.register app this h = Ok u h' ->
  exists references v, Set_add references this h = Ok v h'.
Proof.
  unfold Carrier.register. intros H.
  apply bind_Ok in H as (internal & h1 & ->%Get_Ok & H).
  apply bind_Ok in H as (references & h2 & ->%Get_Ok & H).
  apply bind_Ok in H as (v & h3 & Hadd & [_ ->]%ret_Ok). eauto.
Qed.

Lemma Carrier_new_frozen I pojo app h this h' :
  Carrier.new I pojo app h = Ok this h' -> is_frozen h' this = true.
Proof.
  unfold Carrier.new. intros H.
  apply bind_Ok in H as (this0 & h1 & [-> ->]%alloc_Ok & H).
  apply bind_Ok in H as (u1 & h2 & _ & H).
  apply bind_Ok in H as (private & h3 & _ & H).
  apply bind_Ok in H as (u2 & h4 & _ & H).
  apply bind_Ok in H as (u3 & h5 & Hfrozen%hideAndFreeze_frozen & H).
  apply bind_Ok in H as (u4 & h6 & (r & v & Hadd)%Carrier_register_Ok & [-> ->]%ret_Ok).
  by eapply Set_add_frozen.
Qed.

Lemma TrackingInfo_new_frozen I pojo app h this h' :
  TrackingInfo.new I pojo app h = Ok this h' -> is_frozen h' this = true.
Proof.
  unfold TrackingInfo.new. intros H.
  apply bind_Ok in H as (this0 & h1 & [-> ->]%alloc_Ok & H).
  do 10 (apply bind_Ok in H as (? & ? & _ & H)).
  apply bind_Ok in H as (u3 & h5 & Hfrozen%hideAndFreeze_frozen & H).
  by apply ret_Ok in H as [-> ->].
Qed.


(** *** What construction leaves of the objects that were there before *)

Lemma same_fields_refl o : same_fields o o.
Proof.
  split; [done|]. induction (o_props o) as [|kp ps IH]; constructor; auto.
Qed.

Lemma same_fields_trans o1 o2 o3 :
  same_fields o1 o2 -> same_fields o2 o3 -> same_fields o1 o3.
Proof.
  intros [Hp1 HF1] [Hp2 HF2]. split; [congruence|].
  eapply Forall2_trans; [|exact HF1|exact HF2].
  intros ? ? ? [? ?] [? ?]. split; congruence.
Qed.

Lemma preserved_refl n h : preserved n h h.
Proof. intros l o _ Hl. eauto using same_fields_refl. Qed.

Lemma preserved_trans n h1 h2 h3 :
  preserved n h1 h2 -> preserved n h2 h3 -> preserved n h1 h3.
Proof.
  intros H12 H23 l o Hn Hl. destruct (H12 l o Hn Hl) as (o2 & Hl2 & Ho2).
  destruct (H23 l o2 Hn Hl2) as (o3 & Hl3 & Ho3). eauto using same_fields_trans.
Qed.

Lemma heap_grows_preserved n h h' : heap_grows h h' -> preserved n h h'.
Proof. intros H l o _ Hl. eauto. Qed.

Lemma preserved_alloc n (h : heap) o : preserved n h (h ++ [o]).
Proof.
  intros l o0 _ Hl. exists o0. split; [|apply same_fields_refl].
  rewrite lookup_app_l; [done | by eapply lookup_lt_Some].
Qed.

Lemma preserved_insert n (h : heap) l o : n <= l -> preserved n h (<[l := o]> h).
Proof.
  intros Hn l0 o0 Hl0 Hlook. exists o0. split; [|apply same_fields_refl].
  rewrite list_lookup_insert_ne; [done | lia].
Qed.

Lemma preserved_Set n l k v h u h' :
  n <= l -> Set_ (VRef l) k v h = Ok u h' -> preserved n h h'.
Proof. intros Hn (o & ps & _ & -> & _)%Set_Ok. by apply preserved_insert. Qed.

Lemma obj_evolves_same_fields o o' : obj_evolves o o' -> same_fields o o'.
Proof.
  intros (_ & Hp & _ & HF). split; [done|].
  eapply Forall2_impl; [exact HF|]. intros ? ? (? & ? & _). done.
Qed.

Lemma preserved_evolves n h h' : heap_evolves h h' -> preserved n h h'.
Proof.
  intros He l o _ Hl. destruct (heap_evolves_lookup _ _ _ _ He Hl) as (o' & ? & ?).
  eauto using obj_evolves_same_fields.
Qed.

Lemma preserved_Set_add n target v h u h' :
  Set_add target v h = Ok u h' -> preserved n h h'.
Proof.
  intros (l0 & o & ms & -> & Hl & -> & _)%Set_add_Ok l o0 _ Hl0.
  destruct (decide (l0 = l)) as [->|].
  - rewrite list_lookup_insert_eq by (by eapply lookup_lt_Some).
    rewrite Hl in Hl0. injection Hl0 as <-. eexists. split; [done|].
    split; [done|]. apply (same_fields_refl o).
  - rewrite list_lookup_insert_ne by done. eauto using same_fields_refl.
Qed.

Lemma alist_lookup_same_fields k ps ps' :
  Forall2 (fun kp kp' : key * prop => kp'.1 = kp.1 /\ p_value kp'.2 = p_value kp.2) ps ps' ->
  p_value <$> alist_lookup k ps' = p_value <$> alist_lookup k ps.
Proof.
  induction 1 as [|[k1 p1] [k2 p2] ps ps' [Hk Hv] _ IH]; [done|].
  simpl in *. subst k2. destruct (decide (k = k1)); simpl; [by rewrite Hv | done].
Qed.

(** A read below [n] gives the same value afterwards. *)
Lemma lookup_chain_preserved n h h' fuel l k :
  preserved n h h' -> n <= length h -> l < n ->
  p_value <$> lookup_chain fuel h' l k = p_value <$> lookup_chain fuel h l k.
Proof.
  intros Hpres Hn. revert l. induction fuel as [|fuel IH]; intros l Hl; [done|].
  simpl. destruct (h !! l) as [o|] eqn:Hlook.
  2:{ apply lookup_ge_None in Hlook. lia. }
  destruct (Hpres l o Hl Hlook) as (o' & -> & Hp & HF).
  pose proof (alist_lookup_same_fields k _ _ HF) as Hown.
  destruct (alist_lookup k (o_props o)) as [p|], (alist_lookup k (o_props o')) as [p'|];
    try done.
  rewrite Hp. destruct (o_proto o) as [l'|]; [|done].
  destruct (decide (l' < l)); [|done]. apply IH. lia.
Qed.

Lemma Get_preserved target k h h' v h1 :
  preserved (length h) h h' ->
  Get target k h = Ok v h1 -> Get target k h' = Ok v h'.
Proof.
  intros Hpres. destruct target; try done; try by intros [= <- _].
  intros (o & ? & (Hl & ->)%read_obj_Ok & Hk)%bind_Ok. cbv beta in Hk.
  assert (l < length h) as Hlt by (by eapply lookup_lt_Some).
  destruct (Hpres l o Hlt Hl) as (o' & Hl' & _).
  rewrite Get_ref by eauto. f_equal.
  pose proof (lookup_chain_preserved (length h) h h' (S l) l k Hpres (le_n _) Hlt) as Hsame.
  unfold lookup_field in *.
  destruct (lookup_chain (S l) h l k), (lookup_chain (S l) h' l k);
    simpl in *; by simplify_eq.
Qed.


Lemma keeps_bind n {A B} (m : M heap A) (k : A -> M heap B) :
  keeps n m -> (forall a, keeps n (k a)) -> keeps n (bind m k).
Proof.
  intros Hm Hk h b h' (a & h1 & H1 & H2)%bind_Ok.
  eapply preserved_trans; [by eapply Hm | by eapply Hk].
Qed.

Lemma keeps_ret n {A} (a : A) : keeps n (ret a).
Proof. intros h b h' [_ ->]%ret_Ok. apply preserved_refl. Qed.

Lemma keeps_Get n target k : keeps n (Get target k).
Proof. intros h v h' ->%Get_Ok. apply preserved_refl. Qed.

Lemma keeps_Set n l k v : n <= l -> keeps n (Set_ (VRef l) k v).
Proof. intros Hn h u h'. by apply preserved_Set. Qed.

Lemma keeps_alloc n o : keeps n (alloc o).
Proof. intros h l h' [_ ->]%alloc_Ok. apply preserved_alloc. Qed.

Lemma keeps_Set_add n target v : keeps n (Set_add target v).
Proof. intros h u h'. apply preserved_Set_add. Qed.

Lemma keeps_hideAndFreeze n l omit : keeps n (hideAndFreeze l omit).
Proof. intros h u h' [He _]%hideAndFreeze_Ok. by apply preserved_evolves. Qed.

Create HintDb keeps.
#[local] Hint Resolve keeps_ret keeps_Get keeps_alloc keeps_Set_add keeps_hideAndFreeze : keeps.

Ltac keeps_steps :=
  repeat first
    [ progress cbv beta
    | apply keeps_Set; lia
    | solve [eauto with keeps]
    | match goal with |- keeps _ (if ?b then _ else _) => destruct b end
    | apply keeps_bind; [|intros ?] ].

Lemma keeps_method_slot n this pojo m :
  n <= this -> keeps n (Carrier.method_slot (VRef this) pojo m).
Proof. intros. unfold Carrier.method_slot. keeps_steps. Qed.

Lemma keeps_method_slots n this pojo ms :
  n <= this -> keeps n (Carrier.method_slots (VRef this) pojo ms).
Proof.
  intros. induction ms as [|m ms IH]; simpl; keeps_steps.
Qed.

Lemma keeps_assign_fields I n this pojo app :
  Carrier.frame_respecting I -> n <= this ->
  keeps n (Carrier.assign_fields I (VRef this) pojo app).
Proof.
  intros (HU & HD & HP & _) Hn. unfold Carrier.assign_fields. keeps_steps.
  - intros h v h' Hnew. eapply heap_grows_preserved, HU, Hnew.
  - intros h v h' Hnew. eapply heap_grows_preserved, HD, Hnew.
  - intros h v h' Hnew. eapply heap_grows_preserved, HP, Hnew.
Qed.

(** *** The field left for a method that is not implemented *)

Lemma Set_undefined_has_undefined this m h u h' :
  Set_ (VRef this) (KStr m) VUndef h = Ok u h' -> Carrier.has_undefined h' this m.
Proof.
  intros (o & ps & Hl & -> & (p & Hp & Hv) & _)%Set_Ok. exists p. split; [|done].
  by rewrite own_prop_insert by (by eapply lookup_lt_Some).
Qed.

Lemma Set_keeps_undefined this m k v h u h' :
  Set_ (VRef this) k v h = Ok u h' -> k ≠ KStr m \/ v = VUndef ->
  Carrier.has_undefined h this m -> Carrier.has_undefined h' this m.
Proof.
  intros HS Hk (p & Hp & Hv). destruct (decide (k = KStr m)) as [->|Hne].
  - destruct Hk as [?| ->]; [done|]. by eapply Set_undefined_has_undefined.
  - apply Set_Ok in HS as (o & ps & Hl & -> & _ & Hother). exists p. split; [|done].
    rewrite own_prop_insert by (by eapply lookup_lt_Some). simpl.
    rewrite Hother by done. unfold own_prop in Hp. by rewrite Hl in Hp.
Qed.

Lemma evolves_keeps_undefined this m h h' :
  heap_evolves h h' -> Carrier.has_undefined h this m -> Carrier.has_undefined h' this m.
Proof.
  intros He (p & Hp & Hv).
  destruct (own_prop_evolves _ _ _ _ _ He Hp) as (p' & Hp' & _ & Hv' & _).
  exists p'. split; [done|]. simpl in Hv'. congruence.
Qed.

Lemma alloc_keeps_undefined this m (h : heap) o :
  Carrier.has_undefined h this m -> Carrier.has_undefined (h ++ [o]) this m.
Proof.
  intros (p & Hp & Hv). exists p. split; [|done]. unfold own_prop in *.
  destruct (h !! this) as [o0|] eqn:Hl; [|done].
  rewrite lookup_app_l by (by eapply lookup_lt_Some). by rewrite Hl.
Qed.

Lemma method_slot_keeps_undefined this pojo m m' h f h' :
  Carrier.method_slot (VRef this) pojo m' h = Ok f h' ->
  Carrier.has_undefined h this m -> Carrier.has_undefined h' this m.
Proof.
  unfold Carrier.method_slot. intros (g & h1 & ->%Get_Ok & H)%bind_Ok Hu.
  destruct (truthy g).
  - by apply Get_Ok in H as ->.
  - apply bind_Ok in H as (u & h2 & HS & [_ ->]%ret_Ok).
    eapply Set_keeps_undefined; [exact HS | by right | done].
Qed.

Lemma method_slots_keep_undefined this pojo m ms h ps h' :
  Carrier.method_slots (VRef this) pojo ms h = Ok ps h' ->
  Carrier.has_undefined h this m -> Carrier.has_undefined h' this m.
Proof.
  revert h ps. induction ms as [|m' ms IH]; intros h ps; simpl.
  - by intros [_ ->]%ret_Ok.
  - intros (f & h1 & Hslot & (ps' & h2 & Hrest & [_ ->]%ret_Ok)%bind_Ok)%bind_Ok Hu.
    eapply IH; [exact Hrest|]. by eapply method_slot_keeps_undefined.
Qed.

(** A method that the POJO does not implement gets the field. *)
Lemma method_slots_undefined h0 this pojo m g ms h ps h' :
  Get pojo (KStr m) h0 = Ok g h0 -> truthy g = false ->
  length h0 <= this -> preserved (length h0) h0 h ->
  m ∈ ms ->
  Carrier.method_slots (VRef this) pojo ms h = Ok ps h' ->
  Carrier.has_undefined h' this m.
Proof.
  intros Hget Hfalsy Hthis. revert h ps.
  induction ms as [|m' ms IH]; intros h ps Hpres Hin; [by apply elem_of_nil in Hin|].
  simpl. intros (f & h1 & Hslot & (ps' & h2 & Hrest & [_ ->]%ret_Ok)%bind_Ok)%bind_Ok.
  destruct (decide (m = m')) as [<-|Hne].
  - eapply method_slots_keep_undefined; [exact Hrest|].
    unfold Carrier.method_slot in Hslot.
    rewrite (bind_eq_Ok _ _ _ _ _ (Get_preserved _ _ _ _ _ _ Hpres Hget)) in Hslot.
    rewrite Hfalsy in Hslot.
    apply bind_Ok in Hslot as (u & h3 & HS & [_ ->]%ret_Ok).
    by eapply Set_undefined_has_undefined.
  - apply elem_of_cons in Hin as [?|Hin]; [done|].
    eapply (IH h1); [|done|exact Hrest].
    eapply preserved_trans; [exact Hpres|].
    by eapply (keeps_method_slot (length h0) this pojo m').
Qed.

End ConstructorFacts.



(** ** Facts about what [hideAndFreeze] touches and how it can end *)

Module FreezeOutcomeFacts.
Import JS HeapRelations HeapShapes Utils FreezeFacts WrapperFacts ConstructorFacts.

#[local] Existing Instances heap_evolves_refl heap_evolves_trans
  obj_evolves_refl prop_evolves_refl.

Lemma bind_Throw {S A B} (m : M S A) (k : A -> M S B) s e s' :
  bind m k s = Throw e s' ->
  m s = Throw e s' \/ exists a s1, m s = Ok a s1 /\ k a s1 = Throw e s'.
Proof. unfold bind. destruct (m s); naive_solver. Qed.

Lemma bind_Stuck {S A B} (m : M S A) (k : A -> M S B) s :
  bind m k s = Stuck -> m s = Stuck \/ exists a s1, m s = Ok a s1 /\ k a s1 = Stuck.
Proof. unfold bind. destruct (m s); naive_solver. Qed.

Lemma heap_evolves_length h h' : heap_evolves h h' -> length h' = length h.
Proof. intros H. symmetry. by eapply Forall2_length. Qed.

(** *** When a step throws *)

Lemma Object_freeze_Throw v h e h' :
  Object_freeze v h = Throw e h' -> e = TypeError /\ heap_evolves h h'.
Proof.
  destruct v; simpl; try done.
  intros [H | (o & h1 & (Hl & ->)%read_obj_Ok & Hk)]%bind_Throw.
  { unfold read_obj in H. by destruct (h !! l). }
  destruct (freezable (o_kind o)); [done|]. injection Hk as <- <-. split; [done|].
  eapply heap_evolves_insert; [done|]. unfold obj_evolves. simpl.
  repeat split; [done|reflexivity].
Qed.

Lemma typeof_Ok v h s h' : typeof v h = Ok s h' -> h' = h.
Proof.
  destruct v; simpl; try by intros [= _ <-].
  intros (o & h1 & (_ & ->)%read_obj_Ok & Hk)%bind_Ok. by destruct (o_kind o); injection Hk.
Qed.

Lemma typeof_Throw v h e h' : typeof v h = Throw e h' -> False.
Proof.
  destruct v; simpl; try done. unfold bind, read_obj.
  destruct (h !! l) as [o|]; [|done]. by destruct (o_kind o).
Qed.

Lemma instanceof_Buffer_Ok v h b h' : instanceof_Buffer v h = Ok b h' -> h' = h.
Proof.
  destruct v; simpl; try by intros [= _ <-].
  intros (o & h1 & (_ & ->)%read_obj_Ok & Hk)%bind_Ok. by destruct (o_kind o); injection Hk.
Qed.

Lemma instanceof_Buffer_Throw v h e h' : instanceof_Buffer v h = Throw e h' -> False.
Proof.
  destruct v; simpl; try done. unfold bind, read_obj.
  destruct (h !! l) as [o|]; [|done]. by destruct (o_kind o).
Qed.

Lemma Get_Throw target k h e h' :
  Get target k h = Throw e h' -> e = TypeError /\ h' = h.
Proof.
  destruct target; simpl; try done; try by intros [= <- <-].
  unfold bind, read_obj. destruct (h !! l); [|done]. by destruct (lookup_field h l k).
Qed.

Lemma freeze_field_Throw v h e h' :
  freeze_field v h = Throw e h' -> e = TypeError /\ heap_evolves h h'.
Proof.
  unfold freeze_field.
  intros [[]%typeof_Throw | (type & h1 & ->%typeof_Ok & H)]%bind_Throw.
  destruct (String.eqb type "object" || String.eqb type "function"); [|done].
  apply bind_Throw in H as [[]%instanceof_Buffer_Throw | (b & h1 & ->%instanceof_Buffer_Ok & H)].
  destruct b; simpl in H; [done|].
  apply bind_Throw in H as [H | (? & ? & _ & ?)]; [|done].
  by apply Object_freeze_Throw in H.
Qed.

Lemma freeze_fields_Throw omit es h e h' :
  freeze_fields omit es h = Throw e h' -> e = TypeError /\ heap_evolves h h'.
Proof.
  revert h. induction es as [|[s v] es IH]; intros h; simpl; [done|].
  case_bool_decide as Homit; [by apply IH|].
  intros [H | (u & h1 & [He1 _]%freeze_field_Ok & [-> He2]%IH)]%bind_Throw.
  - by apply freeze_field_Throw in H.
  - split; [done | by etrans].
Qed.

Lemma Object_defineProperty_hidden_Throw l k h e h' :
  Object_defineProperty_hidden l k h = Throw e h' -> e = TypeError /\ h' = h.
Proof.
  unfold Object_defineProperty_hidden, bind, read_obj.
  destruct (h !! l) as [o|]; [|done].
  destruct (alist_lookup k (o_props o)) as [p|].
  - destruct (p_configurable p || negb (p_enumerable p)); [done|]. by intros [= <- <-].
  - destruct (o_extensible o); [done|]. by intros [= <- <-].
Qed.

Lemma hide_symbol_Throw obj n h e h' :
  is_Some (own_prop h obj (KSym n)) ->
  hide_symbol obj n h = Throw e h' -> e = TypeError /\ heap_evolves h h'.
Proof.
  intros Hown [[-> ->]%Object_defineProperty_hidden_Throw | ([] & h1 & Hdef & H)]%bind_Throw;
    [done|].
  apply Object_defineProperty_hidden_Ok in Hdef as [He1 _]; [|done].
  apply bind_Throw in H as [[-> ->]%Get_Throw | (v & h2 & ->%Get_Ok & H)]; [done|].
  apply bind_Throw in H as [[-> He2]%Object_freeze_Throw | (? & ? & _ & ?)]; [|done].
  split; [done | by etrans].
Qed.

Lemma hide_symbols_Throw obj ns h e h' :
  (forall n, n ∈ ns -> is_Some (own_prop h obj (KSym n))) ->
  hide_symbols obj ns h = Throw e h' -> e = TypeError /\ heap_evolves h h'.
Proof.
  revert h. induction ns as [|n ns IH]; intros h Hown; simpl; [done|].
  assert (is_Some (own_prop h obj (KSym n))) as Hn by (apply Hown, elem_of_cons; by left).
  intros [H | (u & h1 & [He1 _]%hide_symbol_Ok & H)]%bind_Throw; [| |done].
  - by apply hide_symbol_Throw in H.
  - apply IH in H as [-> He2]; [split; [done | by etrans]|].
    intros n' Hn'. destruct (Hown n') as [p Hp]; [apply elem_of_cons; by right|].
    destruct (own_prop_evolves _ _ _ _ _ He1 Hp) as (p' & -> & _). eauto.
Qed.

Lemma Object_entries_Ok l h es h' :
  Object_entries l h = Ok es h' ->
  h' = h /\ exists o, h !! l = Some o /\ es = entries_of (o_props o).
Proof. intros (o & ? & (Hl & ->)%read_obj_Ok & [= <- <-])%bind_Ok. eauto. Qed.

Lemma Object_getOwnPropertySymbols_Ok l h ns h' :
  Object_getOwnPropertySymbols l h = Ok ns h' ->
  h' = h /\ exists o, h !! l = Some o /\ ns = symbols_of (o_props o).
Proof. intros (o & ? & (Hl & ->)%read_obj_Ok & [= <- <-])%bind_Ok. eauto. Qed.

Lemma symbols_own_prop h obj o n :
  h !! obj = Some o -> n ∈ symbols_of (o_props o) -> is_Some (own_prop h obj (KSym n)).
Proof. intros Hl Hn. unfold own_prop. rewrite Hl. simpl. by apply alist_lookup_symbols. Qed.

Lemma hideAndFreeze_Throw obj omit h e h' :
  hideAndFreeze obj omit h = Throw e h' -> e = TypeError /\ heap_evolves h h'.
Proof.
  unfold hideAndFreeze. intros [H | (es & h0 & [-> _]%Object_entries_Ok & H)]%bind_Throw.
  { unfold Object_entries, bind, read_obj in H. by destruct (h !! obj). }
  apply bind_Throw in H as [H | (u1 & h1 & [He1 _]%freeze_fields_Ok & H)];
    [by apply freeze_fields_Throw in H|].
  apply bind_Throw in H as [H | (ns & h2 & (-> & o1 & Hl1 & ->)%Object_getOwnPropertySymbols_Ok & H)].
  { unfold Object_getOwnPropertySymbols, bind, read_obj in H. by destruct (h1 !! obj). }
  assert (forall n, n ∈ symbols_of (o_props o1) -> is_Some (own_prop h1 obj (KSym n)))
    as Hown by (intros; by eapply symbols_own_prop).
  apply bind_Throw in H as [[-> He2]%hide_symbols_Throw | (u2 & h2 & [He2 _]%hide_symbols_Ok & H)];
    [split; [done | by etrans] | done | | done].
  apply bind_Throw in H as [[-> He3]%Object_freeze_Throw | (? & ? & _ & ?)]; [|done].
  split; [done|]. etrans; [|etrans]; eauto.
Qed.

(** *** What a step leaves alone *)

Lemma Object_freeze_frame v h v' h' l :
  Object_freeze v h = Ok v' h' -> v ≠ VRef l -> h' !! l = h !! l.
Proof.
  intros (_ & _ & _ & H)%Object_freeze_Ok Hne. destruct v; try by subst.
  destruct H as (o & _ & ->). apply list_lookup_insert_ne. congruence.
Qed.

Lemma freeze_field_frame v h u h' l :
  freeze_field v h = Ok u h' -> v ≠ VRef l -> h' !! l = h !! l.
Proof.
  unfold freeze_field. intros (type & h1 & ->%typeof_Ok & H)%bind_Ok Hne.
  destruct (String.eqb type "object" || String.eqb type "function");
    [|by apply ret_Ok in H as [_ ->]].
  apply bind_Ok in H as (b & h1 & ->%instanceof_Buffer_Ok & H).
  destruct b; simpl in H; [by apply ret_Ok in H as [_ ->]|].
  apply bind_Ok in H as (v' & h2 & Hfr & [_ ->]%ret_Ok). by eapply Object_freeze_frame.
Qed.

Lemma freeze_fields_frame omit es h u h' l :
  freeze_fields omit es h = Ok u h' ->
  (forall s v, (s, v) ∈ es -> s ∉ omit -> v ≠ VRef l) ->
  h' !! l = h !! l.
Proof.
  revert h. induction es as [|[s0 v0] es IH]; intros h; simpl; [by intros [= _ <-]|].
  intros H Hes.
  assert (forall s v, (s, v) ∈ es -> s ∉ omit -> v ≠ VRef l) as Hes'.
  { intros s v Hin. apply Hes, elem_of_cons. by right. }
  case_bool_decide as Homit; [by apply IH|].
  apply bind_Ok in H as (u1 & h1 & Hf & H).
  rewrite (IH _ H Hes'). eapply freeze_field_frame; [exact Hf|].
  apply (Hes s0); [apply elem_of_cons; by left | done].
Qed.

Lemma Object_defineProperty_hidden_frame obj k h u h' l :
  Object_defineProperty_hidden obj k h = Ok u h' -> l ≠ obj -> h' !! l = h !! l.
Proof.
  intros (o & ? & (Hl & ->)%read_obj_Ok & H)%bind_Ok Hne.
  destruct (alist_lookup k (o_props o)) as [p|].
  - destruct (p_configurable p || negb (p_enumerable p)); [|done].
    injection H as _ <-. by apply list_lookup_insert_ne.
  - destruct (o_extensible o); [|done].
    injection H as _ <-. by apply list_lookup_insert_ne.
Qed.

Lemma hide_symbol_frame obj n h u h' p l :
  own_prop h obj (KSym n) = Some p -> p_value p ≠ VRef l -> l ≠ obj ->
  hide_symbol obj n h = Ok u h' -> h' !! l = h !! l.
Proof.
  intros Hp Hv Hne ([] & h1 & Hdef & H)%bind_Ok.
  rewrite <- (Object_defineProperty_hidden_frame _ _ _ _ _ _ Hdef Hne).
  apply Object_defineProperty_hidden_Ok in Hdef as (He1 & p1 & Hp1 & _); [|eauto].
  destruct (own_prop_evolves _ _ _ _ _ He1 Hp) as (p1' & Hp1' & _ & Hv1 & _).
  rewrite Hp1 in Hp1'. injection Hp1' as <-. simpl in Hv1.
  apply bind_Ok in H as (v & h2 & Hget & H).
  rewrite (Get_own _ _ _ _ Hp1) in Hget. injection Hget as <- <-.
  apply bind_Ok in H as (v' & h3 & Hfr & [= _ <-]).
  eapply Object_freeze_frame; [exact Hfr | congruence].
Qed.

Lemma hide_symbols_frame obj ns h u h' l :
  (forall n, n ∈ ns -> exists p, own_prop h obj (KSym n) = Some p /\ p_value p ≠ VRef l) ->
  l ≠ obj ->
  hide_symbols obj ns h = Ok u h' -> h' !! l = h !! l.
Proof.
  revert h. induction ns as [|n ns IH]; intros h Hns Hne; simpl; [by intros [= _ <-]|].
  intros (u1 & h1 & Hstep & H)%bind_Ok.
  destruct (Hns n) as (p & Hp & Hv); [apply elem_of_cons; by left|].
  rewrite <- (hide_symbol_frame _ _ _ _ _ _ _ Hp Hv Hne Hstep).
  apply hide_symbol_Ok in Hstep as [He1 _]; [|eauto].
  apply (IH h1); [|done..].
  intros n' Hn'. destruct (Hns n') as (p' & Hp' & Hv'); [apply elem_of_cons; by right|].
  destruct (own_prop_evolves _ _ _ _ _ He1 Hp') as (p1 & Hp1 & _ & Hv1 & _).
  exists p1. split; [done|]. simpl in Hv1. congruence.
Qed.

Lemma hideAndFreeze_frame obj omit h u h' o l :
  hideAndFreeze obj omit h = Ok u h' -> h !! obj = Some o -> l ≠ obj ->
  (forall s v, (s, v) ∈ entries_of (o_props o) -> s ∉ omit -> v ≠ VRef l) ->
  (forall n p, alist_lookup (KSym n) (o_props o) = Some p -> p_value p ≠ VRef l) ->
  h' !! l = h !! l.
Proof.
  unfold hideAndFreeze. intros H Hl Hne Hes Hns.
  apply bind_Ok in H as (es & h0 & (-> & o0 & Hl0 & ->)%Object_entries_Ok & H).
  rewrite Hl in Hl0. injection Hl0 as <-.
  apply bind_Ok in H as (u1 & h1 & Hloop1 & H).
  rewrite <- (freeze_fields_frame _ _ _ _ _ _ Hloop1 Hes).
  apply freeze_fields_Ok in Hloop1 as [He1 _].
  destruct (heap_evolves_lookup _ _ _ _ He1 Hl) as (o1 & Hl1 & (_ & _ & _ & HF1)).
  apply bind_Ok in H as (ns & h2 & (-> & o1' & Hl1' & ->)%Object_getOwnPropertySymbols_Ok & H).
  rewrite Hl1 in Hl1'. injection Hl1' as <-.
  apply bind_Ok in H as (u2 & h2 & Hloop2 & H).
  apply bind_Ok in H as (v3 & h3 & Hfr & [= _ <-]).
  rewrite (Object_freeze_frame _ _ _ _ _ Hfr) by congruence.
  eapply hide_symbols_frame; [|done|exact Hloop2].
  intros n Hn. destruct (alist_lookup_symbols _ _ Hn) as [p1 Hp1].
  exists p1. split; [unfold own_prop; by rewrite Hl1|].
  pose proof (alist_lookup_evolves (KSym n) _ _ HF1) as Hlook.
  destruct (alist_lookup (KSym n) (o_props o)) as [p|] eqn:Hp; [|congruence].
  destruct Hlook as (p1' & Hp1' & _ & Hv & _). simpl in Hv.
  rewrite Hp1 in Hp1'. injection Hp1' as <-. rewrite Hv. by eapply Hns.
Qed.

(** *** On a closed heap no step gets stuck *)

Lemma closed_evolves h h' : heap_evolves h h' -> closed h -> closed h'.
Proof.
  intros He Hc l o' k p' Hl' Hin.
  assert (exists o, h !! l = Some o /\ obj_evolves o o') as (o & Hl & (_ & _ & _ & HF)).
  { destruct (h !! l) as [o|] eqn:Hl.
    - destruct (heap_evolves_lookup _ _ _ _ He Hl) as (o1 & Hl1 & Ho). simplify_eq. eauto.
    - rewrite (heap_evolves_lookup_None _ _ _ He Hl) in Hl'. done. }
  apply list_elem_of_lookup in Hin as [i Hi].
  destruct (Forall2_lookup_r _ _ _ _ _ HF Hi) as ([k0 p] & Hi0 & (_ & Hv & _)).
  simpl in Hv. rewrite Hv.
  assert (value_in h (p_value p)) as Hin0.
  { eapply (Hc l o k0 p); [done|]. apply list_elem_of_lookup. eauto. }
  unfold value_in in *. destruct (p_value p); try done.
  by rewrite (heap_evolves_length _ _ He).
Qed.

Lemma value_in_evolves h h' v : heap_evolves h h' -> value_in h v -> value_in h' v.
Proof. intros He. destruct v; simpl; try done. by rewrite (heap_evolves_length _ _ He). Qed.

Lemma alist_lookup_elem_of k p ps : alist_lookup k ps = Some p -> (k, p) ∈ ps.
Proof.
  induction ps as [|[k1 p1] ps IH]; simpl; [done|].
  destruct (decide (k = k1)) as [->|].
  - intros [= ->]. apply elem_of_cons. by left.
  - intros. apply elem_of_cons. right. auto.
Qed.

Lemma entries_of_elem_of s v ps :
  (s, v) ∈ entries_of ps -> exists p, (KStr s, p) ∈ ps /\ p_value p = v.
Proof.
  induction ps as [|[k p] ps IH]; simpl; [by intros ?%elem_of_nil|].
  assert ((s, v) ∈ entries_of ps -> exists p0, (KStr s, p0) ∈ (k, p) :: ps /\ p_value p0 = v)
    as Hrest.
  { intros (p0 & ? & ?)%IH. exists p0. split; [apply elem_of_cons; by right | done]. }
  destruct k; [|done]. destruct (p_enumerable p); [|done].
  intros [[= -> ->] | ?]%elem_of_cons; [|auto].
  exists p. split; [apply elem_of_cons; by left | done].
Qed.

Lemma lookup_chain_value_in fuel h l k p :
  closed h -> lookup_chain fuel h l k = Some p -> value_in h (p_value p).
Proof.
  intros Hc. revert l. induction fuel as [|fuel IH]; intros l; simpl; [done|].
  destruct (h !! l) as [o|] eqn:Hl; [|done].
  destruct (alist_lookup k (o_props o)) as [p0|] eqn:Hp.
  - intros [= <-]. eapply Hc; [exact Hl|]. by eapply alist_lookup_elem_of.
  - destruct (o_proto o) as [l'|]; [|done]. destruct (decide (l' < l)); [apply IH | done].
Qed.

Lemma Get_value_in target k h v h' :
  closed h -> Get target k h = Ok v h' -> value_in h v.
Proof.
  intros Hc. destruct target; simpl; try done; try by intros [= <- _].
  intros (o & ? & (Hl & ->)%read_obj_Ok & H)%bind_Ok. cbv beta in H.
  destruct (lookup_field h l k) as [p|] eqn:Hp; injection H as <- _; [|done].
  by eapply lookup_chain_value_in.
Qed.

Lemma read_obj_runs l h : l < length h -> exists o, read_obj l h = Ok o h.
Proof.
  intros Hl. destruct (lookup_lt_is_Some_2 h l Hl) as [o Ho]. exists o. by apply read_obj_eq.
Qed.

Lemma Object_freeze_runs v h : value_in h v -> Object_freeze v h ≠ Stuck.
Proof.
  destruct v; simpl; try done. intros (o & Ho)%read_obj_runs.
  unfold bind. rewrite Ho. by destruct (freezable (o_kind o)).
Qed.

Lemma freeze_field_runs v h : value_in h v -> freeze_field v h ≠ Stuck.
Proof.
  destruct v; try done. simpl. intros Hl.
  destruct (lookup_lt_is_Some_2 h l Hl) as [o Ho]. rewrite (freeze_field_ref _ _ _ Ho).
  assert ((Object_freeze (VRef l);; ret tt) h ≠ Stuck) as Hfr.
  { intros [H | (? & ? & _ & ?)]%bind_Stuck; [|done].
    by apply (Object_freeze_runs (VRef l) h). }
  by destruct (o_kind o).
Qed.

Lemma freeze_fields_runs omit es h :
  (forall s v, (s, v) ∈ es -> value_in h v) -> freeze_fields omit es h ≠ Stuck.
Proof.
  revert h. induction es as [|[s0 v0] es IH]; intros h Hes; simpl; [done|].
  assert (forall h', heap_evolves h h' -> freeze_fields omit es h' ≠ Stuck) as Hrest.
  { intros h' He. apply IH. intros s v Hin. eapply value_in_evolves; [done|].
    apply (Hes s), elem_of_cons. by right. }
  case_bool_decide as Homit; [by apply Hrest|].
  intros [H | (u & h1 & [He _]%freeze_field_Ok & H)]%bind_Stuck; [|by eapply Hrest].
  eapply freeze_field_runs; [|exact H]. apply (Hes s0), elem_of_cons. by left.
Qed.

Lemma hide_symbol_runs obj n h :
  closed h -> obj < length h -> hide_symbol obj n h ≠ Stuck.
Proof.
  intros Hc Hobj [H | ([] & h1 & Hdef & H)]%bind_Stuck.
  { destruct (read_obj_runs _ _ Hobj) as [o Ho].
    unfold Object_defineProperty_hidden, bind in H. rewrite Ho in H.
    destruct (alist_lookup (KSym n) (o_props o)) as [p|].
    - by destruct (p_configurable p || negb (p_enumerable p)).
    - by destruct (o_extensible o). }
  assert (closed h1 /\ obj < length h1) as [Hc1 Hobj1].
  { destruct (read_obj_runs _ _ Hobj) as [o Ho].
    unfold Object_defineProperty_hidden in Hdef. rewrite (bind_eq_Ok _ _ _ _ _ Ho) in Hdef.
    apply read_obj_Ok in Ho as [Hl _].
    destruct (alist_lookup (KSym n) (o_props o)) as [p|] eqn:Hp.
    - assert (is_Some (own_prop h obj (KSym n))) as Hown
        by (unfold own_prop; rewrite Hl; simpl; eauto).
      assert (Object_defineProperty_hidden obj (KSym n) h = Ok tt h1) as Hdef'.
      { unfold Object_defineProperty_hidden. rewrite (bind_eq_Ok _ _ _ o h) by (by apply read_obj_eq).
        by rewrite Hp. }
      apply Object_defineProperty_hidden_Ok in Hdef' as [He _]; [|done].
      split; [by eapply closed_evolves | by rewrite (heap_evolves_length _ _ He)].
    - destruct (o_extensible o); [|done]. injection Hdef as <-.
      split; [|by rewrite length_insert].
      intros l o' k p' Hl' Hin. unfold value_in.
      assert (value_in h (p_value p')) as Hv.
      { destruct (decide (l = obj)) as [->|Hne].
        - rewrite list_lookup_insert_eq in Hl' by done. injection Hl' as <-. simpl in Hin.
          apply elem_of_app in Hin as [Hin | [= -> ->]%list_elem_of_singleton]; [|done].
          by eapply Hc.
        - rewrite list_lookup_insert_ne in Hl' by done. by eapply Hc. }
      destruct (p_value p'); try done. simpl in *. by rewrite length_insert. }
  apply bind_Stuck in H as [H | (v & h2 & Hget & H)].
  { destruct (read_obj_runs _ _ Hobj1) as [o Ho]. unfold Get, bind in H. rewrite Ho in H.
    by destruct (lookup_field h1 obj (KSym n)). }
  pose proof (Get_value_in _ _ _ _ _ Hc1 Hget) as Hv. apply Get_Ok in Hget as ->.
  apply bind_Stuck in H as [H | (? & ? & _ & ?)]; [|done].
  by apply (Object_freeze_runs v h1).
Qed.

Lemma hide_symbols_runs obj ns h :
  (forall n, n ∈ ns -> is_Some (own_prop h obj (KSym n))) ->
  closed h -> obj < length h -> hide_symbols obj ns h ≠ Stuck.
Proof.
  revert h. induction ns as [|n ns IH]; intros h Hown Hc Hobj; simpl; [done|].
  intros [H | (u & h1 & Hstep & H)]%bind_Stuck; [by eapply hide_symbol_runs|].
  apply hide_symbol_Ok in Hstep as [He _]; [|apply Hown, elem_of_cons; by left].
  eapply (IH h1); [| by eapply closed_evolves | by rewrite (heap_evolves_length _ _ He) | done].
  intros n' Hn'. destruct (Hown n') as [p Hp]; [apply elem_of_cons; by right|].
  destruct (own_prop_evolves _ _ _ _ _ He Hp) as (p' & -> & _). eauto.
Qed.

Lemma hideAndFreeze_runs obj omit h :
  closed h -> obj < length h -> hideAndFreeze obj omit h ≠ Stuck.
Proof.
  intros Hc Hobj. unfold hideAndFreeze.
  destruct (lookup_lt_is_Some_2 h obj Hobj) as [o Hl].
  assert (Object_entries obj h = Ok (entries_of (o_props o)) h) as Hentries.
  { unfold Object_entries. by rewrite (bind_eq_Ok _ _ _ o h) by (by apply read_obj_eq). }
  rewrite (bind_eq_Ok _ _ _ _ _ Hentries).
  intros [H | (u1 & h1 & [He1 _]%freeze_fields_Ok & H)]%bind_Stuck.
  { eapply freeze_fields_runs; [|exact H].
    intros s v (p & Hin & <-)%entries_of_elem_of. by eapply Hc. }
  destruct (heap_evolves_lookup _ _ _ _ He1 Hl) as (o1 & Hl1 & _).
  assert (Object_getOwnPropertySymbols obj h1 = Ok (symbols_of (o_props o1)) h1) as Hsyms.
  { unfold Object_getOwnPropertySymbols.
    by rewrite (bind_eq_Ok _ _ _ o1 h1) by (by apply read_obj_eq). }
  rewrite (bind_eq_Ok _ _ _ _ _ Hsyms) in H.
  pose proof (closed_evolves _ _ He1 Hc) as Hc1.
  assert (obj < length h1) as Hobj1 by (by rewrite (heap_evolves_length _ _ He1)).
  assert (forall n, n ∈ symbols_of (o_props o1) -> is_Some (own_prop h1 obj (KSym n)))
    as Hown by (intros; by eapply symbols_own_prop).
  apply bind_Stuck in H as [H | (u2 & h2 & [He2 _]%hide_symbols_Ok & H)];
    [by eapply hide_symbols_runs | | done].
  apply bind_Stuck in H as [H | (? & ? & _ & ?)]; [|done].
  eapply Object_freeze_runs; [|exact H]. simpl. by rewrite (heap_evolves_length _ _ He2).
Qed.

(** [hideAndFreeze] does not return when it meets a value it cannot
    freeze. *)
Lemma unfreezable_not_frozen h h' v :
  heap_evolves h h' -> unfreezable h v = true -> value_frozen h' v = false.
Proof.
  intros He. destruct v; simpl; try done.
  destruct (h !! l) as [o|] eqn:Hl; [|done].
  destruct (heap_evolves_lookup _ _ _ _ He Hl) as (o' & Hl' & (Hk & _)).
  unfold is_frozen, obj_frozen. rewrite Hl', Hk. by destruct (freezable (o_kind o)).
Qed.

End FreezeOutcomeFacts.

(** ** When [hideAndFreeze] returns and when it throws *)

Module FreezeReturnFacts.
Import JS HeapRelations HeapShapes Utils FreezeFacts WrapperFacts ConstructorFacts
  FreezeOutcomeFacts.

#[local] Existing Instances heap_evolves_refl heap_evolves_trans
  obj_evolves_refl prop_evolves_refl.

(** What [Object.freeze] refuses is decided by the kind of an object, which
    does not change. *)
Lemma unfreezable_evolves h h' v :
  heap_evolves h h' -> unfreezable h' v = unfreezable h v.
Proof.
  intros He. destruct v; simpl; try done.
  destruct (h !! l) as [o|] eqn:Hl.
  - destruct (heap_evolves_lookup _ _ _ _ He Hl) as (o' & -> & (-> & _)). done.
  - by rewrite (heap_evolves_lookup_None _ _ _ He Hl).
Qed.

(** *** The causes of a throw *)

Lemma Object_freeze_Throw_unfreezable v h e h' :
  Object_freeze v h = Throw e h' -> unfreezable h v = true.
Proof.
  destruct v; simpl; try done.
  intros [H | (o & h1 & (Hl & ->)%read_obj_Ok & Hk)]%bind_Throw.
  { unfold read_obj in H. by destruct (h !! l). }
  rewrite Hl. by destruct (freezable (o_kind o)).
Qed.

Lemma freeze_field_Throw_unfreezable v h e h' :
  freeze_field v h = Throw e h' -> buffer_valued h v = false /\ unfreezable h v = true.
Proof.
  destruct v as [| | b | z | s | l]; try done.
  destruct (h !! l) as [o|] eqn:Hl.
  2:{ unfold freeze_field, typeof, bind, read_obj. by rewrite Hl. }
  rewrite (freeze_field_ref _ _ _ Hl). simpl. rewrite Hl.
  assert ((Object_freeze (VRef l);; ret tt) h = Throw e h' ->
          negb (freezable (o_kind o)) = true) as Hfr.
  { intros [H%Object_freeze_Throw_unfreezable | (? & ? & _ & ?)]%bind_Throw; [|done].
    simpl in H. by rewrite Hl in H. }
  destruct (o_kind o); try done; intros ?%Hfr; done.
Qed.

Lemma freeze_fields_Throw_unfreezable omit es h e h' :
  freeze_fields omit es h = Throw e h' ->
  exists s v, (s, v) ∈ es /\ (s ∉ omit) /\
              buffer_valued h v = false /\ unfreezable h v = true.
Proof.
  revert h. induction es as [|[s0 v0] es IH]; intros h; simpl; [done|].
  case_bool_decide as Homit.
  - intros (s & v & Hin & ?)%IH. exists s, v. split; [apply elem_of_cons; by right | done].
  - intros [[Hb Hu]%freeze_field_Throw_unfreezable
           | (u & h1 & [He1 _]%freeze_field_Ok & (s & v & Hin & Hs & Hb & Hu)%IH)]%bind_Throw.
    + exists s0, v0. split; [apply elem_of_cons; by left | done].
    + exists s, v. split; [apply elem_of_cons; by right|]. split; [done|].
      by rewrite <- (buffer_valued_evolves _ _ _ He1), <- (unfreezable_evolves _ _ _ He1).
Qed.

(** *** The second loop on an object that does not hold itself *)

(** One step: the field becomes non-enumerable, its value is frozen, and
    [obj] is otherwise as it was. *)
Lemma hide_symbol_returns obj n g og p :
  g !! obj = Some og ->
  alist_lookup (KSym n) (o_props og) = Some p ->
  p_configurable p || negb (p_enumerable p) = true ->
  p_value p ≠ VRef obj ->
  unfreezable g (p_value p) = false ->
  value_in g (p_value p) ->
  exists g',
    hide_symbol obj n g = Ok tt g' /\ heap_evolves g g' /\
    g' !! obj =
    Some (with_props og
            (alist_update (KSym n) (Prop_ (p_value p) false (p_writable p) (p_configurable p))
                          (o_props og))).
Proof.
  intros Hl Hp Hcond Hself Hu Hin.
  set (og1 := with_props og
                (alist_update (KSym n)
                   (Prop_ (p_value p) false (p_writable p) (p_configurable p)) (o_props og))).
  assert (Object_defineProperty_hidden obj (KSym n) g = Ok tt (<[obj := og1]> g)) as Hdef.
  { unfold Object_defineProperty_hidden. erewrite bind_eq_Ok by (by apply read_obj_eq).
    by rewrite Hp, Hcond. }
  assert (obj < length g) as Hobj by (by eapply lookup_lt_Some).
  assert (<[obj := og1]> g !! obj = Some og1) as Hl1 by (by apply list_lookup_insert_eq).
  assert (heap_evolves g (<[obj := og1]> g)) as He1.
  { eapply Object_defineProperty_hidden_Ok; [|exact Hdef].
    unfold own_prop. rewrite Hl. simpl. eauto. }
  assert (Get (VRef obj) (KSym n) (<[obj := og1]> g) = Ok (p_value p) (<[obj := og1]> g))
    as Hget.
  { apply (Get_own _ _ _ (Prop_ (p_value p) false (p_writable p) (p_configurable p))).
    rewrite own_prop_insert by done. simpl. apply alist_lookup_update. eauto. }
  destruct (Object_freeze (p_value p) (<[obj := og1]> g)) as [v' g2 | e g2 |] eqn:Hfreeze.
  - exists g2. split; [|split].
    + unfold hide_symbol. erewrite bind_eq_Ok by exact Hdef.
      erewrite bind_eq_Ok by exact Hget. erewrite bind_eq_Ok by exact Hfreeze. done.
    + apply Object_freeze_Ok in Hfreeze as (_ & He2 & _). by etrans.
    + by rewrite (Object_freeze_frame _ _ _ _ obj Hfreeze Hself).
  - apply Object_freeze_Throw_unfreezable in Hfreeze.
    rewrite (unfreezable_evolves _ _ _ He1) in Hfreeze. congruence.
  - exfalso. apply (Object_freeze_runs (p_value p) (<[obj := og1]> g)); [|done].
    by eapply value_in_evolves.
Qed.

Lemma hide_symbols_returns obj ns g og :
  closed g -> g !! obj = Some og ->
  (forall n, n ∈ ns -> is_Some (alist_lookup (KSym n) (o_props og))) ->
  (forall n p, alist_lookup (KSym n) (o_props og) = Some p ->
     unfreezable g (p_value p) = false /\
     p_configurable p || negb (p_enumerable p) = true /\
     p_value p ≠ VRef obj) ->
  exists g' og',
    hide_symbols obj ns g = Ok tt g' /\ heap_evolves g g' /\ g' !! obj = Some og'.
Proof.
  revert g og. induction ns as [|n ns IH]; intros g og Hc Hl Hns Hok; simpl.
  { exists g, og. done. }
  destruct (Hns n) as [p Hp]; [apply elem_of_cons; by left|].
  destruct (Hok n p Hp) as (Hu & Hcond & Hself).
  destruct (hide_symbol_returns obj n g og p) as (g1 & Hstep & He1 & Hl1); try done.
  { eapply Hc; [exact Hl|]. by eapply alist_lookup_elem_of. }
  destruct (IH g1 _ (closed_evolves _ _ He1 Hc) Hl1) as (g2 & og2 & Hrest & He2 & Hl2).
  - intros m Hm. simpl. destruct (decide (m = n)) as [->|Hne].
    + erewrite alist_lookup_update by eauto. eauto.
    + rewrite alist_lookup_update_other by congruence.
      apply Hns, elem_of_cons. by right.
  - intros m q. simpl. destruct (decide (m = n)) as [->|Hne].
    + erewrite alist_lookup_update by eauto. intros [= <-]. simpl.
      rewrite (unfreezable_evolves _ _ _ He1), orb_true_r. done.
    + rewrite alist_lookup_update_other by congruence. intros Hq.
      destruct (Hok m q Hq) as (? & ? & ?).
      by rewrite (unfreezable_evolves _ _ _ He1).
  - exists g2, og2. split; [|split; [by etrans | done]].
    by erewrite bind_eq_Ok by exact Hstep.
Qed.

(** *** The whole call *)

(** [hideAndFreeze] returns on an object whose fields hold nothing that
    [Object.freeze] refuses (a [Buffer] in a string-keyed field apart),
    whose symbol-keyed fields can be hidden, and that does not hold itself. *)
Lemma hideAndFreeze_returns obj omit h o :
  closed h -> h !! obj = Some o ->
  (forall s v, (s, v) ∈ entries_of (o_props o) -> s ∉ omit ->
     buffer_valued h v = false -> unfreezable h v = false) ->
  (forall n p, alist_lookup (KSym n) (o_props o) = Some p ->
     unfreezable h (p_value p) = false /\
     (p_configurable p = true \/ p_enumerable p = false)) ->
  freezable (o_kind o) = true ->
  (forall k p, (k, p) ∈ o_props o -> p_value p ≠ VRef obj) ->
  exists h', hideAndFreeze obj omit h = Ok tt h'.
Proof.
  intros Hc Hl Hes Hns Hkind Hself.
  assert (Object_entries obj h = Ok (entries_of (o_props o)) h) as Hentries.
  { unfold Object_entries. by erewrite bind_eq_Ok by (by apply read_obj_eq). }
  assert (exists h1, freeze_fields omit (entries_of (o_props o)) h = Ok tt h1)
    as [h1 Hloop1].
  { destruct (freeze_fields omit (entries_of (o_props o)) h) as [[] h1 | e h1 |] eqn:H.
    - eauto.
    - apply freeze_fields_Throw_unfreezable in H as (s & v & Hin & Hs & Hb & Hu).
      rewrite (Hes s v Hin Hs Hb) in Hu. done.
    - exfalso. eapply freeze_fields_runs; [|exact H].
      intros s v (p & Hin & <-)%entries_of_elem_of. by eapply Hc. }
  pose proof (freeze_fields_Ok _ _ _ _ _ Hloop1) as [He1 _].
  assert (h1 !! obj = Some o) as Hl1.
  { rewrite <- Hl. eapply freeze_fields_frame; [exact Hloop1|].
    intros s v (p & Hin & <-)%entries_of_elem_of _. by eapply Hself. }
  assert (Object_getOwnPropertySymbols obj h1 = Ok (symbols_of (o_props o)) h1) as Hsyms.
  { unfold Object_getOwnPropertySymbols. by erewrite bind_eq_Ok by (by apply read_obj_eq). }
  destruct (hide_symbols_returns obj (symbols_of (o_props o)) h1 o)
    as (h2 & o2 & Hloop2 & He2 & Hl2).
  { by eapply closed_evolves. }
  { done. }
  { intros n Hn. by apply alist_lookup_symbols. }
  { intros n p Hp. destruct (Hns n p Hp) as [Hu Hattr].
    rewrite (unfreezable_evolves _ _ _ He1). split; [done|]. split.
    - destruct Hattr as [-> | ->]; [done | apply orb_true_r].
    - eapply Hself. by eapply alist_lookup_elem_of. }
  destruct (heap_evolves_lookup _ _ _ _ He2 Hl1) as (o2' & Hl2' & (Hk2 & _)).
  rewrite Hl2 in Hl2'. injection Hl2' as <-.
  exists (<[obj := freeze_obj o2]> h2). unfold hideAndFreeze.
  erewrite bind_eq_Ok by exact Hentries. erewrite bind_eq_Ok by exact Hloop1.
  erewrite bind_eq_Ok by exact Hsyms. erewrite bind_eq_Ok by exact Hloop2.
  erewrite bind_eq_Ok; [reflexivity|].
  simpl. erewrite bind_eq_Ok by (by apply read_obj_eq). by rewrite Hk2, Hkind.
Qed.

(** [hideAndFreeze] throws on what [Object.freeze] refuses. *)
Lemma hideAndFreeze_refuses obj omit h o :
  closed h -> h !! obj = Some o ->
  ((exists s v, (s, v) ∈ entries_of (o_props o) /\ (s ∉ omit) /\
                buffer_valued h v = false /\ unfreezable h v = true) \/
   (exists n p, alist_lookup (KSym n) (o_props o) = Some p /\
                unfreezable h (p_value p) = true) \/
   freezable (o_kind o) = false) ->
  exists h', hideAndFreeze obj omit h = Throw TypeError h' /\ heap_evolves h h'.
Proof.
  intros Hc Hl Hbad.
  destruct (hideAndFreeze obj omit h) as [[] h' | e h' |] eqn:Hrun.
  - exfalso. apply hideAndFreeze_Ok in Hrun as (He & o' & Hl' & Hfr & Hes & Hns).
    destruct (heap_evolves_lookup _ _ _ _ He Hl) as (o1 & Hl1 & (Hk & _ & _ & HF)).
    rewrite Hl' in Hl1. injection Hl1 as <-.
    destruct Hbad as [(s & v & Hin & Homit & Hb & Hu) | [(n & p & Hp & Hu) | Hu]].
    + rewrite <- (entries_of_evolves _ _ HF) in Hin.
      rewrite <- (buffer_valued_evolves _ _ _ He) in Hb.
      pose proof (Hes s v Hin Homit Hb) as Hv.
      by rewrite (unfreezable_not_frozen _ _ _ He Hu) in Hv.
    + pose proof (alist_lookup_evolves (KSym n) _ _ HF) as Hlook. rewrite Hp in Hlook.
      destruct Hlook as (p' & Hp' & _ & Hv & _). simpl in Hv.
      destruct (Hns n) as (p1 & Hp1 & _ & Hfr1); [by eapply symbols_alist_lookup|].
      rewrite Hp' in Hp1. injection Hp1 as <-.
      rewrite Hv, (unfreezable_not_frozen _ _ _ He Hu) in Hfr1. done.
    + unfold obj_frozen in Hfr. rewrite Hk, Hu in Hfr. done.
  - apply hideAndFreeze_Throw in Hrun as [-> He]. eauto.
  - exfalso. eapply hideAndFreeze_runs; [exact Hc| |exact Hrun]. by eapply lookup_lt_Some.
Qed.

End FreezeReturnFacts.

(** ** Properties of [hideAndFreeze] *)

Module UtilsTheorems.
Import JS HeapRelations HeapShapes Utils FreezeFacts FreezeOutcomeFacts FreezeReturnFacts
  Examples MoreExamples.

(** The example heaps have no dangling reference. *)
Lemma closed_sample_heap : closed sample_heap.
Proof.
  intros l o k p Hl Hin.
  destruct l as [|[|[|[|l]]]]; simpl in Hl; [..|done]; injection Hl as <-;
    simpl in Hin;
    repeat (apply elem_of_cons in Hin as [[= -> ->]|Hin]; [simpl; lia|]);
    by apply elem_of_nil in Hin.
Qed.

Lemma closed_typed_array_heap : closed typed_array_heap.
Proof.
  intros l o k p Hl Hin.
  destruct l as [|[|[|l]]]; simpl in Hl; [..|done]; injection Hl as <-;
    simpl in Hin;
    repeat (apply elem_of_cons in Hin as [[= -> ->]|Hin]; [simpl; lia|]);
    by apply elem_of_nil in Hin.
Qed.

(** C6, as the code has it.  When [hideAndFreeze obj] (no omitted key)
    returns, every enumerable string-keyed field of [obj] whose value is not
    a [Buffer] holds a frozen value (a typed array that has elements, a
    [Buffer] among them, is not frozen), every symbol-keyed field is
    non-enumerable and holds a frozen value, and [obj] itself is frozen, so
    that assigning to a field of it, old or new, throws.  ([value_frozen] is
    [Object.isFrozen]: true of a primitive.)

    The call does not return on every object.  On a heap without dangling
    references,
    - it throws a [TypeError], no field having changed its value, when an
      enumerable string-keyed field holds a typed array with elements that
      is not a [Buffer], when a symbol-keyed field holds a typed array with
      elements, a [Buffer] included, or when [obj] is one itself;
    - it returns when no such value is there and [obj] is not one, each
      symbol-keyed field is configurable or already non-enumerable, and no
      field of [obj] holds [obj]. *)
Theorem hideAndFreeze_freezes (obj : loc) (h : heap) :
  (forall h', hideAndFreeze obj [] h = Ok tt h' ->
     (forall s p, own_prop h' obj (KStr s) = Some p -> p_enumerable p = true ->
        buffer_valued h' (p_value p) = false -> value_frozen h' (p_value p) = true) /\
     (forall s p, own_prop h' obj (KStr s) = Some p ->
        unfreezable h' (p_value p) = true -> value_frozen h' (p_value p) = false) /\
     (forall n p, own_prop h' obj (KSym n) = Some p ->
        p_enumerable p = false /\ value_frozen h' (p_value p) = true) /\
     is_frozen h' obj = true /\
     (forall k v, Set_ (VRef obj) k v h' = Throw TypeError h')) /\
  (forall o, closed h -> h !! obj = Some o ->
     (((exists s v, (s, v) ∈ entries_of (o_props o) /\
                    buffer_valued h v = false /\ unfreezable h v = true) \/
       (exists n p, alist_lookup (KSym n) (o_props o) = Some p /\
                    unfreezable h (p_value p) = true) \/
       freezable (o_kind o) = false) ->
      exists h', hideAndFreeze obj [] h = Throw TypeError h' /\ heap_evolves h h') /\
     ((forall s v, (s, v) ∈ entries_of (o_props o) ->
         buffer_valued h v = false -> unfreezable h v = false) ->
      (forall n p, alist_lookup (KSym n) (o_props o) = Some p ->
         unfreezable h (p_value p) = false /\
         (p_configurable p = true \/ p_enumerable p = false)) ->
      freezable (o_kind o) = true ->
      (forall k p, (k, p) ∈ o_props o -> p_value p ≠ VRef obj) ->
      exists h', hideAndFreeze obj [] h = Ok tt h')).
Proof.
  split.
  - intros h' (_ & o & Hl & Hfr & Hes & Hns)%hideAndFreeze_Ok.
    assert (is_frozen h' obj = true) as Hfrozen by (unfold is_frozen; by rewrite Hl).
    unfold own_prop. rewrite Hl. simpl. repeat split.
    + intros s p Hp Hen Hb. apply (Hes s); [by apply entries_alist_lookup | | done].
      by intros ?%elem_of_nil.
    + intros s p _ Hu. exact (unfreezable_not_frozen h' h' _ (heap_evolves_refl h') Hu).
    + destruct (Hns n) as (p' & Hp' & Hen & _); [by eapply symbols_alist_lookup|].
      congruence.
    + destruct (Hns n) as (p' & Hp' & _ & Hv); [by eapply symbols_alist_lookup|].
      congruence.
    + done.
    + intros k v. by apply Set_frozen.
  - intros o Hc Hl. split.
    + intros Hbad. apply (hideAndFreeze_refuses obj [] h o Hc Hl).
      destruct Hbad as [(s & v & Hin & Hb & Hu) | [? | ?]]; [left | by right; left | by right; right].
      exists s, v. split; [done|]. split; [by intros ?%elem_of_nil | done].
    + intros Hes Hns Hkind Hself. apply (hideAndFreeze_returns obj [] h o Hc Hl); try done.
      intros s v Hin _. exact (Hes s v Hin).
Qed.

(** The sample object is frozen as stated, Buffer apart; the object with a
    [Uint8Array] of two elements makes the call throw; the call on the
    sample object returns. *)
Lemma hideAndFreeze_freezes_witness :
  ((forall s p, own_prop sample_heap_frozen 0 (KStr s) = Some p -> p_enumerable p = true ->
      buffer_valued sample_heap_frozen (p_value p) = false ->
      value_frozen sample_heap_frozen (p_value p) = true) /\
   (forall s p, own_prop sample_heap_frozen 0 (KStr s) = Some p ->
      unfreezable sample_heap_frozen (p_value p) = true ->
      value_frozen sample_heap_frozen (p_value p) = false) /\
   (forall n p, own_prop sample_heap_frozen 0 (KSym n) = Some p ->
      p_enumerable p = false /\ value_frozen sample_heap_frozen (p_value p) = true) /\
   is_frozen sample_heap_frozen 0 = true /\
   (forall k v, Set_ (VRef 0) k v sample_heap_frozen = Throw TypeError sample_heap_frozen)) /\
  (exists h', hideAndFreeze 0 [] typed_array_heap = Throw TypeError h' /\
              heap_evolves typed_array_heap h') /\
  (exists h', hideAndFreeze 0 [] sample_heap = Ok tt h').
Proof.
  split; [|split].
  - apply (proj1 (hideAndFreeze_freezes 0 sample_heap)). vm_compute. reflexivity.
  - apply (proj1 (proj2 (hideAndFreeze_freezes 0 typed_array_heap) _
                    closed_typed_array_heap eq_refl)).
    left. exists "view", (VRef 2). split; [|split; reflexivity].
    simpl. apply elem_of_cons. right. apply elem_of_cons. by left.
  - apply (proj2 (proj2 (hideAndFreeze_freezes 0 sample_heap) _
                    closed_sample_heap eq_refl)).
    + intros s v Hin Hb. simpl in Hin.
      repeat (apply elem_of_cons in Hin as [[= -> ->]|Hin]; [by vm_compute in Hb |- *|]).
      by apply elem_of_nil in Hin.
    + intros n p Hp. simpl in Hp. repeat case_decide; simplify_eq.
      split; [reflexivity | by left].
    + reflexivity.
    + intros k p Hin. simpl in Hin.
      repeat (apply elem_of_cons in Hin as [[= -> ->]|Hin]; [done|]).
      by apply elem_of_nil in Hin.
Defined.

(** C6 as stated fails on a [Buffer]: the field [data] is enumerable and
    object-valued, and after [hideAndFreeze] its value is not frozen. *)
Lemma hideAndFreeze_skips_Buffer :
  hideAndFreeze 0 [] sample_heap = Ok tt sample_heap_frozen /\
  exists p, own_prop sample_heap_frozen 0 (KStr "data") = Some p /\
            p_enumerable p = true /\
            typeof (p_value p) sample_heap_frozen = Ok "object" sample_heap_frozen /\
            value_frozen sample_heap_frozen (p_value p) = false.
Proof. split; [vm_compute; reflexivity|]. eexists. vm_compute. repeat split. Qed.

(** C7: [hideAndFreeze] is idempotent.  Applied to an object it has
    already been applied to, it returns normally and leaves the whole heap,
    hence the object's properties, their enumerability and what is frozen,
    as it was. *)
Theorem hideAndFreeze_idempotent (obj : loc) (omit : list string) (h h' : heap) :
  hideAndFreeze obj omit h = Ok tt h' ->
  hideAndFreeze obj omit h' = Ok tt h'.
Proof. intros (_ & Hs)%hideAndFreeze_Ok. by apply hideAndFreeze_settled. Qed.

Lemma hideAndFreeze_idempotent_witness :
  hideAndFreeze 0 [] sample_heap_frozen = Ok tt sample_heap_frozen.
Proof. apply (hideAndFreeze_idempotent 0 [] sample_heap). vm_compute. reflexivity. Defined.


(** The second call may omit more keys than the first: it is still without
    effect. *)
Lemma hideAndFreeze_again_omitting_more (obj : loc) (omit omit' : list string)
    (h h' : heap) :
  hideAndFreeze obj omit h = Ok tt h' ->
  (forall s, s ∈ omit -> s ∈ omit') ->
  hideAndFreeze obj omit' h' = Ok tt h'.
Proof.
  intros (_ & o & Hl & Hfr & Hes & Hns)%hideAndFreeze_Ok Hmore.
  apply hideAndFreeze_settled. exists o. repeat split; try done.
  intros s v Hin Homit. apply (Hes s v Hin). intros ?. apply Homit. auto.
Qed.

End UtilsTheorems.


(** ** Properties of the wrappers around user-defined methods *)

Module CarrierMethodsTheorems.
Import JS FreezeFacts WrapperFacts CarrierMethods Examples.

Section Wrappers.
Variable I : Imports.

Ltac unfold_wrapper :=
  unfold requestPickup, cancelPickup, createLabel, getRates, getTrackingURL,
    voidLabel, track, createManifest,
    requestPickup_body, cancelPickup_body, createLabel_body, getRates_body,
    getTrackingURL_body, call, invalid_input, app_error, error,
    try_catch, bind, lift, throw, ret; simpl.

Ltac input_fails_case H :=
  let t := fresh "t" in let h1 := fresh "h1" in
  let H1 := fresh "H1" in let H2 := fresh "H2" in
  destruct H as [H | (t & h1 & H1 & H2)]; unfold_wrapper;
  [rewrite H | rewrite H1; simpl; rewrite H2]; reflexivity.

(** C1: in each of the eight wrappers, when building the typed
    transaction or the typed request from the POJOs throws [e], the wrapper
    throws the [InvalidInput] error whose original error is [e], and the
    list of user-defined methods invoked is what it was: the user function is
    not called. *)
Theorem invalid_input_is_raised (this : Private I) (transaction request : value)
    (w : world) (e : thrown) (h' : heap) :
  (input_fails I (new_PickupRequest I) this transaction request (w_heap w) e h' ->
   requestPickup I this transaction request w =
   Throw (SdkError InvalidInput "Invalid input to the requestPickup method." e None)
         (World h' (w_calls w))) /\
  (input_fails I (new_PickupCancellation I) this transaction request (w_heap w) e h' ->
   cancelPickup I this transaction request w =
   Throw (SdkError InvalidInput "Invalid input to the cancelPickup method." e None)
         (World h' (w_calls w))) /\
  (input_fails I (new_LabelSpec I) this transaction request (w_heap w) e h' ->
   createLabel I this transaction request w =
   Throw (SdkError InvalidInput "Invalid input to the createLabel method." e None)
         (World h' (w_calls w))) /\
  (input_fails I (new_RateCriteria I) this transaction request (w_heap w) e h' ->
   getRates I this transaction request w =
   Throw (SdkError InvalidInput "Invalid input to the getRates method." e None)
         (World h' (w_calls w))) /\
  (input_fails I (new_TrackingCriteria I) this transaction request (w_heap w) e h' ->
   getTrackingURL I this transaction request w =
   Throw (SdkError InvalidInput "Invalid input to the getTrackingURL method." e None)
         (World h' (w_calls w))) /\
  (new_Transaction I transaction (w_heap w) = Throw e h' ->
   voidLabel I this transaction w =
   Throw (SdkError InvalidInput "Invalid input to the voidLabel method." e None)
         (World h' (w_calls w))) /\
  (new_Transaction I transaction (w_heap w) = Throw e h' ->
   track I this transaction w =
   Throw (SdkError InvalidInput "Invalid input to the track method." e None)
         (World h' (w_calls w))) /\
  (new_Transaction I transaction (w_heap w) = Throw e h' ->
   createManifest I this transaction w =
   Throw (SdkError InvalidInput "Invalid input to the createManifest method." e None)
         (World h' (w_calls w))).
Proof.
  repeat split; intros H; try input_fails_case H;
    unfold_wrapper; rewrite H; reflexivity.
Qed.


Ltac use_valid H :=
  let h1 := fresh "h1" in let H1 := fresh "H1" in let H2 := fresh "H2" in
  destruct H as (h1 & H1 & H2); unfold_wrapper; rewrite H1; simpl; rewrite H2; simpl;
  match goal with Hm : _ = Some _ |- _ => rewrite Hm; simpl end.

(** C2: in each wrapper, once the typed transaction [t] and request [r]
    are built, a user function that throws or rejects with [e], or returns a
    value from which building the typed result throws [e], makes the wrapper
    throw the [AppError] error whose original error is [e] and whose
    transaction identifier is [t]'s.  The user function has then been
    invoked once: the list of invocations has one more entry.  The three
    wrappers that are not implemented yet invoke no user function and
    resolve with [undefined]. *)
Theorem app_error_is_raised (this : Private I) (transaction request : value)
    (w : world) (t : Transaction I) (e : thrown) (h2 h3 h4 : heap) (v : value) :
  (forall r f,
     input_valid I (new_PickupRequest I) this transaction request (w_heap w) t r h2 ->
     requestPickup_ I this = Some f ->
     (f t r h2 = Throw e h4 \/
      (f t r h2 = Ok v h3 /\ fill_shipments v request h3 = Throw e h4) \/
      (exists h3', f t r h2 = Ok v h3 /\ fill_shipments v request h3 = Ok tt h3' /\
                   new_PickupConfirmation I v h3' = Throw e h4)) ->
     requestPickup I this transaction request w =
     Throw (SdkError AppError "Error in requestPickup method." e
                     (Some (Transaction_id I t)))
           (World h4 (w_calls w ++ [RequestPickup]))) /\
  (forall r f,
     input_valid I (new_PickupCancellation I) this transaction request (w_heap w) t r h2 ->
     cancelPickup_ I this = Some f ->
     (f t r h2 = Throw e h4 \/
      (exists v' h3', f t r h2 = Ok v h3 /\ default_confirmation v h3 = Ok v' h3' /\
                      new_PickupCancellationConfirmation v' h3' = Throw e h4)) ->
     cancelPickup I this transaction request w =
     Throw (SdkError AppError "Error in cancelPickup method." e
                     (Some (Transaction_id I t)))
           (World h4 (w_calls w ++ [CancelPickup]))) /\
  (forall r f,
     input_valid I (new_LabelSpec I) this transaction request (w_heap w) t r h2 ->
     createLabel_ I this = Some f ->
     (f t r h2 = Throw e h4 \/
      (f t r h2 = Ok v h3 /\ new_LabelConfirmation I v h3 = Throw e h4)) ->
     createLabel I this transaction request w =
     Throw (SdkError AppError "Error in createLabel method." e
                     (Some (Transaction_id I t)))
           (World h4 (w_calls w ++ [CreateLabel]))) /\
  (forall r f,
     input_valid I (new_RateCriteria I) this transaction request (w_heap w) t r h2 ->
     getRates_ I this = Some f ->
     (f t r h2 = Throw e h4 \/
      (f t r h2 = Ok v h3 /\ new_RateQuote I v (app I this) h3 = Throw e h4)) ->
     getRates I this transaction request w =
     Throw (SdkError AppError "Error in getRates method." e
                     (Some (Transaction_id I t)))
           (World h4 (w_calls w ++ [GetRates]))) /\
  (forall r f,
     input_valid I (new_TrackingCriteria I) this transaction request (w_heap w) t r h2 ->
     getTrackingURL_ I this = Some f ->
     (f t r h2 = Throw e h4 \/
      (f t r h2 = Ok v h3 /\ truthy v = true /\ new_URL I v h3 = Throw e h4)) ->
     getTrackingURL I this transaction request w =
     Throw (SdkError AppError "Error in getTrackingURL method." e
                     (Some (Transaction_id I t)))
           (World h4 (w_calls w ++ [GetTrackingURL]))) /\
  (new_Transaction I transaction (w_heap w) = Ok t h2 ->
   voidLabel I this transaction w = Ok VUndef (World h2 (w_calls w)) /\
   track I this transaction w = Ok VUndef (World h2 (w_calls w)) /\
   createManifest I this transaction w = Ok VUndef (World h2 (w_calls w))).
Proof.
  repeat split.
  - intros r f Hin Hm [Hf | [[Hf Hs] | (h3' & Hf & Hs & Hc)]]; use_valid Hin;
      rewrite Hf; simpl; try reflexivity; rewrite Hs; simpl; try reflexivity.
    rewrite Hc. reflexivity.
  - intros r f Hin Hm [Hf | (v' & h3' & Hf & Hd & Hc)]; use_valid Hin;
      rewrite Hf; simpl; try reflexivity. rewrite Hd; simpl. rewrite Hc. reflexivity.
  - intros r f Hin Hm [Hf | [Hf Hc]]; use_valid Hin;
      rewrite Hf; simpl; try reflexivity. rewrite Hc. reflexivity.
  - intros r f Hin Hm [Hf | [Hf Hc]]; use_valid Hin;
      rewrite Hf; simpl; try reflexivity. rewrite Hc. reflexivity.
  - intros r f Hin Hm [Hf | (Hf & Hv & Hc)]; use_valid Hin;
      rewrite Hf; simpl; try reflexivity. rewrite Hv; simpl. rewrite Hc. reflexivity.
  - unfold_wrapper. rewrite H. reflexivity.
  - unfold_wrapper. rewrite H. reflexivity.
  - unfold_wrapper. rewrite H. reflexivity.
Qed.

(** C3: in [cancelPickup], once the typed transaction and cancellation
    are built, a user function that resolves with [undefined] or [null] makes
    the wrapper return a confirmation whose [successful] is [true] and that
    has no [cancellationID]; it is built from the object [{ successful: true }]
    created for the purpose. *)
Theorem cancelPickup_defaults_to_successful (this : Private I)
    (transaction cancellation : value) (w : world)
    (t : Transaction I) (r : PickupCancellation I) (f : UserMethod I (PickupCancellation I))
    (h2 h3 : heap) (v : value) :
  input_valid I (new_PickupCancellation I) this transaction cancellation (w_heap w) t r h2 ->
  cancelPickup_ I this = Some f ->
  f t r h2 = Ok v h3 ->
  v = VUndef \/ v = VNull ->
  exists c,
    cancelPickup I this transaction cancellation w =
    Ok c (World (h3 ++ [Obj KOrdinary None true [(KStr "successful", data_prop (VBool true))]])
                (w_calls w ++ [CancelPickup])) /\
    successful c = true /\ cancellationID c = None.
Proof.
  intros Hin Hm Hf Hv. use_valid Hin. rewrite Hf. simpl.
  assert (truthy v = false) as Hfalsy by (by destruct Hv as [-> | ->]).
  unfold default_confirmation, alloc. rewrite Hfalsy. simpl.
  unfold new_PickupCancellationConfirmation.
  repeat (erewrite bind_eq_Ok by (by apply Get_fresh)). simpl.
  eexists. split; [reflexivity|]. done.
Qed.


(** C9, as the code has it: in [requestPickup], when the user function
    resolves with an object [c],
    - if [c] has no [shipments] field, own or inherited, and is extensible,
      the wrapper adds to [c] itself a [shipments] field holding the value
      [s] of the raw request's [shipments] (the same array, not a copy), and
      only then builds the [PickupConfirmation] from [c];
    - if [c] has a [shipments] field with a truthy value, that field still
      has this value when the [PickupConfirmation] is built, or when the
      assignment is refused;
    - if [c] has an own [shipments] field that is writable and holds a
      falsy value ([undefined], [null], ...), the wrapper overwrites it in
      place with [s], then builds the [PickupConfirmation] from [c];
    - whenever [c.shipments] reads as a falsy value, either the assignment
      is accepted, and then [c.shipments] is [s], no other object has
      changed and the [PickupConfirmation] is built from [c] after that, or
      it is refused, and then the heap is as the user function left it and
      the wrapper throws the [AppError] error with the [TypeError];
    - it is refused when the own field is read-only, and when there is no
      own field and [c] is not extensible. *)
Theorem requestPickup_fills_shipments (this : Private I)
    (transaction request : value) (w : world)
    (t : Transaction I) (r : PickupRequest I) (f : UserMethod I (PickupRequest I))
    (h2 h3 : heap) (c : loc) (o : obj) :
  input_valid I (new_PickupRequest I) this transaction request (w_heap w) t r h2 ->
  requestPickup_ I this = Some f ->
  f t r h2 = Ok (VRef c) h3 ->
  h3 !! c = Some o ->
  (forall s,
     lookup_field h3 c (KStr "shipments") = None ->
     o_extensible o = true ->
     Get request (KStr "shipments") h3 = Ok s h3 ->
     requestPickup I this transaction request w =
     try_catch (lift (new_PickupConfirmation I (VRef c)))
               (app_error I "Error in requestPickup method." t)
               (World (<[c := with_props o (o_props o ++ [(KStr "shipments", data_prop s)])]> h3)
                      (w_calls w ++ [RequestPickup]))) /\
  (forall p,
     lookup_field h3 c (KStr "shipments") = Some p ->
     truthy (p_value p) = true ->
     exists h4,
       Get (VRef c) (KStr "shipments") h4 = Ok (p_value p) h4 /\
       (requestPickup I this transaction request w =
        try_catch (lift (new_PickupConfirmation I (VRef c)))
                  (app_error I "Error in requestPickup method." t)
                  (World h4 (w_calls w ++ [RequestPickup])) \/
        requestPickup I this transaction request w =
        Throw (SdkError AppError "Error in requestPickup method." TypeError
                        (Some (Transaction_id I t)))
              (World h4 (w_calls w ++ [RequestPickup])))) /\
  (forall p s,
     alist_lookup (KStr "shipments") (o_props o) = Some p ->
     truthy (p_value p) = false ->
     p_writable p = true ->
     Get request (KStr "shipments") h3 = Ok s h3 ->
     requestPickup I this transaction request w =
     try_catch (lift (new_PickupConfirmation I (VRef c)))
               (app_error I "Error in requestPickup method." t)
               (World (<[c := with_props o
                               (alist_update (KStr "shipments")
                                  (Prop_ s (p_enumerable p) true (p_configurable p))
                                  (o_props o))]> h3)
                      (w_calls w ++ [RequestPickup]))) /\
  (forall cur s,
     Get (VRef c) (KStr "shipments") h3 = Ok cur h3 ->
     truthy cur = false ->
     Get request (KStr "shipments") h3 = Ok s h3 ->
     (exists h4,
        Set_ (VRef c) (KStr "shipments") s h3 = Ok tt h4 /\
        Get (VRef c) (KStr "shipments") h4 = Ok s h4 /\
        (forall l, l ≠ c -> h4 !! l = h3 !! l) /\
        requestPickup I this transaction request w =
        try_catch (lift (new_PickupConfirmation I (VRef c)))
                  (app_error I "Error in requestPickup method." t)
                  (World h4 (w_calls w ++ [RequestPickup]))) \/
     (Set_ (VRef c) (KStr "shipments") s h3 = Throw TypeError h3 /\
      requestPickup I this transaction request w =
      Throw (SdkError AppError "Error in requestPickup method." TypeError
                      (Some (Transaction_id I t)))
            (World h3 (w_calls w ++ [RequestPickup])))) /\
  (forall cur s,
     Get (VRef c) (KStr "shipments") h3 = Ok cur h3 ->
     truthy cur = false ->
     Get request (KStr "shipments") h3 = Ok s h3 ->
     ((exists p, alist_lookup (KStr "shipments") (o_props o) = Some p /\
                 p_writable p = false) \/
      (alist_lookup (KStr "shipments") (o_props o) = None /\ o_extensible o = false)) ->
     requestPickup I this transaction request w =
     Throw (SdkError AppError "Error in requestPickup method." TypeError
                     (Some (Transaction_id I t)))
           (World h3 (w_calls w ++ [RequestPickup]))).
Proof.
  intros Hin Hm Hf Hc.
  assert (forall cur s,
            Get (VRef c) (KStr "shipments") h3 = Ok cur h3 -> truthy cur = false ->
            Get request (KStr "shipments") h3 = Ok s h3 ->
            fill_shipments (VRef c) request h3 = Set_ (VRef c) (KStr "shipments") s h3)
    as Hfalsy.
  { intros cur s Hcur Hfalse Hs. unfold fill_shipments.
    erewrite bind_eq_Ok by exact Hcur. rewrite Hfalse.
    by erewrite bind_eq_Ok by exact Hs. }
  assert (forall h4, fill_shipments (VRef c) request h3 = Ok tt h4 ->
            requestPickup I this transaction request w =
            try_catch (lift (new_PickupConfirmation I (VRef c)))
                      (app_error I "Error in requestPickup method." t)
                      (World h4 (w_calls w ++ [RequestPickup]))) as Haccepted.
  { intros h4 Hfill. use_valid Hin. rewrite Hf. simpl. rewrite Hfill. simpl. reflexivity. }
  assert (fill_shipments (VRef c) request h3 = Throw TypeError h3 ->
          requestPickup I this transaction request w =
          Throw (SdkError AppError "Error in requestPickup method." TypeError
                          (Some (Transaction_id I t)))
                (World h3 (w_calls w ++ [RequestPickup]))) as Hrefused.
  { intros Hfill. use_valid Hin. rewrite Hf. simpl. rewrite Hfill. simpl. reflexivity. }
  repeat split.
  - intros s Hlack Hext Hs. apply Haccepted.
    unfold fill_shipments. erewrite bind_eq_Ok by (apply Get_ref; eauto).
    rewrite Hlack. simpl. erewrite bind_eq_Ok by exact Hs. by apply Set_new.
  - intros p Hp Htruthy.
    assert (forall h4, Set_ (VRef c) (KStr "shipments") (p_value p) h3 = Ok tt h4 ->
              Get (VRef c) (KStr "shipments") h4 = Ok (p_value p) h4) as Hkeep.
    { intros h4 (o' & ps & Ho' & -> & (p' & Hp' & <-) & _)%Set_Ok.
      apply Get_own. rewrite own_prop_insert by (by eapply lookup_lt_Some). done. }
    assert (fill_shipments (VRef c) request h3 = Set_ (VRef c) (KStr "shipments") (p_value p) h3)
      as Hfill.
    { unfold fill_shipments. erewrite bind_eq_Ok by (apply Get_ref; eauto).
      rewrite Hp, Htruthy. reflexivity. }
    destruct (Set_result c (KStr "shipments") (p_value p) h3) as [[h4 Hset] | Hset]; [eauto|..].
    + exists h4. split; [by apply Hkeep|]. left. apply Haccepted. by rewrite Hfill.
    + exists h3. split; [rewrite Get_ref by eauto; by rewrite Hp|]. right.
      apply Hrefused. by rewrite Hfill.
  - intros p s Hp Hfalse Hw Hs. apply Haccepted.
    rewrite (Hfalsy (p_value p) s); [| |done..].
    + unfold Set_. erewrite bind_eq_Ok by (by apply read_obj_eq). by rewrite Hp, Hw.
    + apply Get_own. unfold own_prop. by rewrite Hc.
  - intros cur s Hcur Hfalse Hs.
    destruct (Set_result c (KStr "shipments") s h3) as [[h4 Hset] | Hset]; [eauto|..].
    + left. exists h4. split; [done|]. split; [|split].
      * destruct (Set_Ok _ _ _ _ _ _ Hset) as (o' & ps & Ho' & -> & (p' & Hp' & <-) & _).
        apply Get_own. rewrite own_prop_insert by (by eapply lookup_lt_Some). done.
      * intros l Hl. destruct (Set_Ok _ _ _ _ _ _ Hset) as (o' & ps & _ & -> & _).
        by apply list_lookup_insert_ne.
      * apply Haccepted. by rewrite (Hfalsy cur s).
    + right. split; [done|]. apply Hrefused. by rewrite (Hfalsy cur s).
  - intros cur s Hcur Hfalse Hs Hno. apply Hrefused. rewrite (Hfalsy cur s) by done.
    unfold Set_. erewrite bind_eq_Ok by (by apply read_obj_eq).
    destruct Hno as [(p & -> & ->) | [-> ->]]; [done|]. cbv beta.
    destruct (lookup_field h3 c (KStr "shipments")); [|done].
    by rewrite andb_false_r.
Qed.

End Wrappers.

(** *** The theorems at work on a concrete carrier *)

Lemma invalid_input_is_raised_witness :
  requestPickup simple (carrier_with (ret VUndef)) (VRef 3) (VRef 1) start =
  Throw (SdkError InvalidInput "Invalid input to the requestPickup method."
                  ValidationError None)
        (World call_heap []).
Proof.
  apply (proj1 (invalid_input_is_raised simple (carrier_with (ret VUndef))
                  (VRef 3) (VRef 1) start ValidationError call_heap)).
  left. reflexivity.
Defined.

Lemma app_error_is_raised_witness :
  requestPickup simple (carrier_with (throw (Thrown (VStr "carrier is down"))))
                (VRef 0) (VRef 1) start =
  Throw (SdkError AppError "Error in requestPickup method."
                  (Thrown (VStr "carrier is down")) (Some "tx-1"))
        (World call_heap [RequestPickup]).
Proof.
  apply (proj1 (app_error_is_raised simple
                  (carrier_with (throw (Thrown (VStr "carrier is down"))))
                  (VRef 0) (VRef 1) start "tx-1" (Thrown (VStr "carrier is down"))
                  call_heap call_heap call_heap VUndef) (VRef 1)
           (fun _ _ => throw (Thrown (VStr "carrier is down")))).
  - exists call_heap. split; reflexivity.
  - reflexivity.
  - left. reflexivity.
Defined.

Lemma cancelPickup_defaults_to_successful_witness :
  exists c,
    cancelPickup simple (carrier_with (ret VUndef)) (VRef 0) (VRef 1) start =
    Ok c (World (call_heap ++
                   [Obj KOrdinary None true [(KStr "successful", data_prop (VBool true))]])
                [CancelPickup]) /\
    successful c = true /\ cancellationID c = None.
Proof.
  apply (cancelPickup_defaults_to_successful simple (carrier_with (ret VUndef))
           (VRef 0) (VRef 1) start "tx-1" (VRef 1) (fun _ _ => ret VUndef)
           call_heap call_heap VUndef).
  - exists call_heap. split; reflexivity.
  - reflexivity.
  - reflexivity.
  - left. reflexivity.
Defined.

(** The confirmation at 4 has no shipments and is extensible: it receives
    the request's shipments (the array at 2) and the result is built from
    it.  So does the confirmation that the user function creates at 6 with
    [shipments: undefined]. *)
Lemma requestPickup_fills_shipments_witness :
  requestPickup simple (carrier_with (ret (VRef 4))) (VRef 0) (VRef 1) start =
  Ok (VRef 4)
     (World (<[4 := Obj KOrdinary None true
                      [ (KStr "confirmationID", data_prop (VStr "p-1"));
                        (KStr "shipments", data_prop (VRef 2)) ]]> call_heap)
            [RequestPickup]) /\
  requestPickup simple
    (carrier_with (let* l := alloc MoreExamples.undefined_shipments in ret (VRef l)))
    (VRef 0) (VRef 1) start =
  Ok (VRef 6)
     (World (call_heap ++
               [ Obj KOrdinary None true
                     [ (KStr "confirmationID", data_prop (VStr "p-2"));
                       (KStr "shipments", data_prop (VRef 2)) ] ])
            [RequestPickup]).
Proof.
  split.
  - rewrite (proj1 (requestPickup_fills_shipments simple (carrier_with (ret (VRef 4)))
                      (VRef 0) (VRef 1) start "tx-1" (VRef 1) (fun _ _ => ret (VRef 4))
                      call_heap call_heap 4
                      (Obj KOrdinary None true
                           [(KStr "confirmationID", data_prop (VStr "p-1"))])
                      (ex_intro _ call_heap (conj eq_refl eq_refl))
                      eq_refl eq_refl eq_refl)
                   (VRef 2) eq_refl eq_refl eq_refl).
    reflexivity.
  - rewrite (proj1 (proj2 (proj2
               (requestPickup_fills_shipments simple
                  (carrier_with (let* l := alloc MoreExamples.undefined_shipments in ret (VRef l)))
                  (VRef 0) (VRef 1) start "tx-1" (VRef 1)
                  (fun _ _ => let* l := alloc MoreExamples.undefined_shipments in ret (VRef l))
                  call_heap (call_heap ++ [MoreExamples.undefined_shipments]) 6
                  MoreExamples.undefined_shipments
                  (ex_intro _ call_heap (conj eq_refl eq_refl))
                  eq_refl eq_refl eq_refl)))
               (data_prop VUndef) (VRef 2) eq_refl eq_refl eq_refl eq_refl).
    reflexivity.
Defined.

(** C9 as stated fails on a frozen confirmation: the user function resolves
    with the object at 5, which has no [shipments] field; the assignment
    throws, the object is left as it was (the heap is unchanged) and no
    [PickupConfirmation] is built. *)
Lemma requestPickup_frozen_confirmation :
  lookup_field call_heap 5 (KStr "shipments") = None /\
  is_frozen call_heap 5 = true /\
  requestPickup simple (carrier_with (ret (VRef 5))) (VRef 0) (VRef 1) start =
  Throw (SdkError AppError "Error in requestPickup method." TypeError (Some "tx-1"))
        (World call_heap [RequestPickup]).
Proof. repeat split. Qed.

End CarrierMethodsTheorems.


(** ** Properties of [DeliveryService] *)

Module DeliveryServiceTheorems.
Import JS FreezeFacts.

Section ServiceArea.
Context {ServiceArea : Type} `{EqDecision ServiceArea}.
Variables Regional Domestic Worldwide : ServiceArea.
Context {Packaging DeliveryConfirmation Carrier : Type}.
Variable packaging_serviceArea : Packaging -> ServiceArea.

Lemma serviceArea_loop_spec (maxArea : ServiceArea) (packagings : list Packaging) :
  DeliveryService.serviceArea_loop Domestic Worldwide packaging_serviceArea
    maxArea packagings =
  if decide (Exists (fun p => packaging_serviceArea p = Worldwide) packagings)
  then Worldwide
  else if decide (Exists (fun p => packaging_serviceArea p = Domestic) packagings)
       then Domestic
       else maxArea.
Proof.
  revert maxArea. induction packagings as [|p ps IH]; intros maxArea.
  - change (DeliveryService.serviceArea_loop Domestic Worldwide packaging_serviceArea
              maxArea []) with maxArea.
    repeat case_decide; try reflexivity; exfalso;
      repeat match goal with
             | H : Exists _ [] |- _ => apply Exists_nil in H
             end; done.
  - change (DeliveryService.serviceArea_loop Domestic Worldwide packaging_serviceArea
              maxArea (p :: ps))
      with (if decide (packaging_serviceArea p = Worldwide) then Worldwide
            else if decide (packaging_serviceArea p = Domestic)
                 then DeliveryService.serviceArea_loop Domestic Worldwide
                        packaging_serviceArea Domestic ps
                 else DeliveryService.serviceArea_loop Domestic Worldwide
                        packaging_serviceArea maxArea ps).
    rewrite !IH.
    repeat case_decide; try reflexivity; exfalso;
      repeat match goal with
             | H : Exists _ (_ :: _) |- _ => apply Exists_cons in H
             | H : ¬ Exists _ (_ :: _) |- _ => rewrite Exists_cons in H
             end; tauto.
Qed.

(** C10: the [serviceArea] getter returns [Worldwide] if some packaging
    of the service has that service area, otherwise [Domestic] if some
    packaging has that one, otherwise [Regional].  It reads the packaging
    list and nothing else: two services with the same packaging list have
    the same service area.  (The getter assigns only to its local variable
    [maxArea]; the embedding is a function of the entity, which it returns
    no new version of.) *)
Theorem serviceArea_is_widest
    (this : @DeliveryService.t Packaging DeliveryConfirmation Carrier) :
  DeliveryService.serviceArea Regional Domestic Worldwide packaging_serviceArea this =
  (if decide (Exists (fun p => packaging_serviceArea p = Worldwide) (DeliveryService.packaging this)) then Worldwide
   else if decide (Exists (fun p => packaging_serviceArea p = Domestic) (DeliveryService.packaging this)) then Domestic
   else Regional) /\
  forall other : @DeliveryService.t Packaging DeliveryConfirmation Carrier,
    DeliveryService.packaging other = DeliveryService.packaging this ->
    DeliveryService.serviceArea Regional Domestic Worldwide packaging_serviceArea other =
    DeliveryService.serviceArea Regional Domestic Worldwide packaging_serviceArea this.
Proof.
  split.
  - apply serviceArea_loop_spec.
  - intros other Hsame. unfold DeliveryService.serviceArea. by rewrite Hsame.
Qed.

End ServiceArea.


(** The getter on concrete packaging lists. *)
Example serviceArea_examples :
  Examples.sample_serviceArea [] = "regional" /\
  Examples.sample_serviceArea ["regional"; "regional"] = "regional" /\
  Examples.sample_serviceArea ["regional"; "domestic"; "regional"] = "domestic" /\
  Examples.sample_serviceArea ["domestic"; "worldwide"; "regional"] = "worldwide".
Proof. repeat split. Qed.

End DeliveryServiceTheorems.


(** ** Properties of the constructed entities *)

Module ConstructorTheorems.
Import JS HeapRelations Utils FreezeFacts WrapperFacts ConstructorFacts Examples.

(** C4: when the constructor of [Carrier], of [DeliveryService] or of
    [TrackingInfo] returns the new entity, the entity is frozen: assigning to
    any field of it, one it has or a new one, throws, deleting a field it
    has throws, and the heap, hence the entity's fields and their values, is
    left as it was. *)
Theorem constructed_entity_is_immutable
    (Ic : Carrier.Imports) (Id : DeliveryService.Imports) (It : TrackingInfo.Imports)
    (pojo app : value) (h : heap) (this : loc) (h' : heap) :
  (Carrier.new Ic pojo app h = Ok this h' -> immutable h' this) /\
  (DeliveryService.new Id pojo h = Ok this h' -> immutable h' this) /\
  (TrackingInfo.new It pojo app h = Ok this h' -> immutable h' this).
Proof.
  split; [|split]; intros Hnew; apply frozen_immutable.
  - by eapply Carrier_new_frozen.
  - by eapply DeliveryService_new_frozen.
  - by eapply TrackingInfo_new_frozen.
Qed.

Lemma Carrier_private_fields_undefined I this pojo app h0 h private h' m g :
  Carrier.frame_respecting I ->
  Get pojo (KStr m) h0 = Ok g h0 -> truthy g = false ->
  length h0 <= this -> preserved (length h0) h0 h ->
  m ∈ Carrier.user_methods ->
  Carrier.private_fields I (VRef this) pojo app h = Ok private h' ->
  Carrier.has_undefined h' this m.
Proof.
  intros (_ & _ & _ & HL) Hget Hfalsy Hthis Hpres Hin. unfold Carrier.private_fields.
  intros H.
  apply bind_Ok in H as (x & h1 & ->%Get_Ok & H).
  apply bind_Ok in H as (x' & h2 & Hx' & H).
  apply bind_Ok in H as (localization & h3 & Hloc & H).
  apply bind_Ok in H as (methods & h4 & Hslots & [_ ->]%alloc_Ok).
  apply alloc_keeps_undefined.
  eapply method_slots_undefined; [exact Hget|exact Hfalsy|exact Hthis| |exact Hin|exact Hslots].
  eapply preserved_trans; [exact Hpres|].
  eapply preserved_trans; [|eapply heap_grows_preserved, HL, Hloc].
  assert (keeps (length h0)
            (if truthy x then ret x else let* e := alloc empty_object in ret (VRef e)))
    as Hkeeps.
  { destruct (truthy x); [apply keeps_ret|].
    apply keeps_bind; [apply keeps_alloc | intros; apply keeps_ret]. }
  eapply Hkeeps, Hx'.
Qed.

(** C8: when the POJO a [Carrier] is built from does not implement a
    user-defined method [m] (the field is missing, [undefined] or otherwise
    falsy), reading [m] on the constructed carrier gives [undefined], not a
    function: the own field set by the constructor hides the wrapper of the
    prototype.  The imported constructors are taken to change no field of
    the objects that exist when they are called. *)
Theorem absent_method_is_undefined
    (I : Carrier.Imports) (pojo app : value) (h : heap) (this : loc) (h' : heap)
    (m : string) (g : value) :
  Carrier.frame_respecting I ->
  Carrier.new I pojo app h = Ok this h' ->
  m ∈ Carrier.user_methods ->
  Get pojo (KStr m) h = Ok g h ->
  truthy g = false ->
  exists f, Get (VRef this) (KStr m) h' = Ok f h' /\ f = VUndef /\ callable h' f = false.
Proof.
  intros Hframe Hnew Hin Hget Hfalsy. exists VUndef. split; [|done].
  unfold Carrier.new in Hnew.
  apply bind_Ok in Hnew as (this0 & h1 & [-> ->]%alloc_Ok & H).
  apply bind_Ok in H as (u1 & h2 & Hassign & H).
  apply bind_Ok in H as (private & h3 & Hprivate & H).
  apply bind_Ok in H as (u2 & h4 & Hset & H).
  apply bind_Ok in H as (u3 & h5 & [Hevolves _]%hideAndFreeze_Ok & H).
  apply bind_Ok in H as (u4 & h6 & (r & v & Hadd)%Carrier_register_Ok & [-> ->]%ret_Ok).
  assert (Carrier.has_undefined h3 (length h) m) as Hu.
  { eapply Carrier_private_fields_undefined; [exact Hframe|exact Hget|exact Hfalsy|
      done| |exact Hin|exact Hprivate].
    eapply preserved_trans; [apply preserved_alloc|].
    eapply keeps_assign_fields; [exact Hframe| |exact Hassign]. done. }
  eapply Set_keeps_undefined in Hu; [|exact Hset|by left].
  eapply evolves_keeps_undefined in Hu; [|exact Hevolves].
  destruct Hu as (p & Hp & Hv).
  rewrite <- (Set_add_own_prop _ _ _ _ _ (length h) (KStr m) Hadd) in Hp.
  rewrite <- Hv. by apply Get_own.
Qed.


(** *** The theorems at work on a concrete carrier *)

Lemma heap_grows_alloc (h : heap) o : heap_grows h (h ++ [o]).
Proof.
  intros l o0 Hl. exists o0. split; [|apply same_fields_refl].
  rewrite lookup_app_l; [done | by eapply lookup_lt_Some].
Qed.

Lemma carrier_imports_frame : Carrier.frame_respecting carrier_imports.
Proof.
  repeat split; intros; simplify_eq/=;
    match goal with H : _ = Ok _ _ |- _ => injection H as _ <- end;
    apply heap_grows_alloc.
Qed.

Lemma constructed_entity_is_immutable_witness : immutable carrier_heap_built 8.
Proof.
  apply (proj1 (constructed_entity_is_immutable carrier_imports
                  (DeliveryService.Build_Imports
                     (fun x _ => ret x) (fun x _ => ret x) (fun x _ => ret x)
                     (fun x _ _ => ret x) (fun x _ _ => ret x) (fun x _ _ _ => ret x)
                     (fun x _ => ret x) (fun x _ _ => ret x) (fun x _ _ => ret x)
                     VUndef VUndef VUndef VUndef VUndef VUndef
                     ret ret ret None)
                  (TrackingInfo.Build_Imports
                     (fun _ _ => ret tt) ret (fun x _ => ret x) ret None)
                  (VRef 3) (VRef 5) carrier_heap 8 carrier_heap_built)).
  vm_compute. reflexivity.
Defined.

Lemma absent_method_is_undefined_witness :
  exists f, Get (VRef 8) (KStr "requestPickup") carrier_heap_built = Ok f carrier_heap_built /\
            f = VUndef /\ callable carrier_heap_built f = false.
Proof.
  apply (absent_method_is_undefined carrier_imports (VRef 3) (VRef 5) carrier_heap 8
           carrier_heap_built "requestPickup" VUndef carrier_imports_frame).
  - vm_compute. reflexivity.
  - unfold Carrier.user_methods. apply elem_of_cons. by left.
  - vm_compute. reflexivity.
  - reflexivity.
Defined.

(** For contrast, the method that the POJO implements is still the wrapper
    inherited from the prototype, and the carrier holds the user's function
    in its private fields. *)
Example implemented_method_is_callable :
  Get (VRef 8) (KStr "getRates") carrier_heap_built = Ok (VRef 1) carrier_heap_built /\
  callable carrier_heap_built (VRef 1) = true /\
  own_prop carrier_heap_built 8 (KStr "getRates") = None.
Proof. repeat split. Qed.

End ConstructorTheorems.


(** ** Round trip of a carrier through [toJSON] *)

Module CarrierDataTheorems.
Import Examples.

Section RoundTrip.
Context {URL DeliveryService DeliveryServicePOJO PickupService PickupServicePOJO
         Localization LocalizationPOJO App UserMethod : Type}.
Variable parse_URL : string -> option URL.
Variable URL_href : URL -> string.
Variable new_DeliveryService : DeliveryServicePOJO -> App -> option DeliveryService.
Variable DeliveryService_toJSON : DeliveryService -> option string -> DeliveryServicePOJO.
Variable new_PickupService : PickupServicePOJO -> App -> option PickupService.
Variable PickupService_toJSON : PickupService -> option string -> PickupServicePOJO.
Variable new_Localization : LocalizationPOJO -> option Localization.
Variable Localization_toJSON : Localization -> LocalizationPOJO.
Variable empty_localization : LocalizationPOJO.
Variable Localization_lookup :
  Localization -> string -> CarrierData.LocalizedBrandingPOJO.

Lemma or_empty_idem (x : option string) :
  CarrierData.or_empty (Some (CarrierData.or_empty x)) = CarrierData.or_empty x.
Proof.
  destruct x as [s|]; simpl; [|done].
  destruct (String.eqb s "") eqn:E; simpl; [done|]. by rewrite E.
Qed.

Lemma mapM_round_trip {A B} (f : A -> option B) (g : B -> A) (xs : list A) (ys : list B) :
  (forall x y, f x = Some y -> f (g y) = Some y) ->
  mapM f xs = Some ys -> mapM f (map g ys) = Some ys.
Proof.
  intros Hfg HM. apply mapM_Some. apply mapM_Some in HM.
  induction HM as [|x y xs ys Hxy _ IH]; simpl; constructor; eauto.
Qed.

(** C5: a carrier built from a POJO, serialized with [toJSON] without a
    locale and built again from the result (for the same app), has the same
    value in every field, public and private.  The classes of the values the
    carrier holds are imported; they are taken to round-trip themselves, as
    the specification asks of every entity: a [URL] is parsed back from its
    string, a delivery service, a pickup service and a localization are
    built back from their own serialization. *)
Theorem carrier_round_trip
    (pojo : @CarrierData.CarrierPOJO URL DeliveryServicePOJO PickupServicePOJO
              LocalizationPOJO UserMethod)
    (app : App)
    (carrier : @CarrierData.Carrier URL DeliveryService PickupService Localization
                 App UserMethod) :
  (forall s u, parse_URL s = Some u -> parse_URL (URL_href u) = Some u) ->
  (forall p d, new_DeliveryService p app = Some d ->
               new_DeliveryService (DeliveryService_toJSON d None) app = Some d) ->
  (forall p d, new_PickupService p app = Some d ->
               new_PickupService (PickupService_toJSON d None) app = Some d) ->
  (forall p l, new_Localization p = Some l ->
               new_Localization (Localization_toJSON l) = Some l) ->
  CarrierData.new parse_URL URL_href new_DeliveryService new_PickupService
    new_Localization empty_localization pojo app = Some carrier ->
  CarrierData.new parse_URL URL_href new_DeliveryService new_PickupService
    new_Localization empty_localization
    (CarrierData.toJSON DeliveryService_toJSON PickupService_toJSON Localization_toJSON
       Localization_lookup carrier None) app
  = Some carrier.
Proof.
  intros HU HD HP HL Hnew. unfold CarrierData.new in Hnew.
  destruct (parse_URL _) as [u|] eqn:Hu; simpl in Hnew; [|done].
  destruct (mapM _ (CarrierData.p_deliveryServices pojo)) as [ds|] eqn:Hds;
    simpl in Hnew; [|done].
  destruct (match CarrierData.p_pickupServices pojo with
            | Some svcs => mapM (fun svc => new_PickupService svc app) svcs
            | None => Some []
            end) as [ps|] eqn:Hps; simpl in Hnew; [|done].
  destruct (new_Localization _) as [l|] eqn:Hl; simpl in Hnew; [|done].
  injection Hnew as <-. unfold CarrierData.new, CarrierData.toJSON. simpl.
  rewrite (HU _ _ Hu). simpl.
  rewrite (mapM_round_trip _ (fun o => DeliveryService_toJSON o None)
             (CarrierData.p_deliveryServices pojo) ds) by eauto. simpl.
  assert (mapM (fun svc => new_PickupService svc app)
               (map (fun o => PickupService_toJSON o None) ps) = Some ps) as ->.
  { destruct (CarrierData.p_pickupServices pojo) as [svcs|].
    - eapply mapM_round_trip; eauto.
    - by injection Hps as <-. }
  simpl. rewrite (HL _ _ Hl). simpl. do 2 f_equal.
  apply (or_empty_idem (CarrierData.p_description pojo)).
Qed.

End RoundTrip.

(** *** The round trip on a concrete carrier *)

Lemma carrier_round_trip_witness :
  CarrierData.new sample_parse_URL (fun u => u) (fun p _ => Some p) (fun p _ => Some p)
    (fun p => Some p) ""
    (CarrierData.toJSON (fun d _ => d) (fun d _ => d) (fun l => l)
       (fun _ _ => CarrierData.Build_LocalizedBrandingPOJO None None None)
       sample_carrier None) tt
  = Some sample_carrier.
Proof.
  apply (carrier_round_trip sample_parse_URL (fun u => u)
           (fun p _ => Some p) (fun d _ => d) (fun p _ => Some p) (fun d _ => d)
           (fun p => Some p) (fun l => l) ""
           (fun _ _ => CarrierData.Build_LocalizedBrandingPOJO None None None)
           sample_pojo tt sample_carrier).
  - intros s u. unfold sample_parse_URL. destruct (String.eqb s "") eqn:E; [done|].
    intros [= <-]. by rewrite E.
  - by intros p d [= <-].
  - by intros p d [= <-].
  - by intros p l [= <-].
  - reflexivity.
Defined.

End CarrierDataTheorems.



(** ** Further properties of the wrappers: what a call ends in *)

Module WrapperOutcomes.
Import JS FreezeFacts WrapperFacts CarrierMethods Examples MoreExamples.

Section Wrappers.
Variable I : Imports.

Ltac unfold_wrapper :=
  unfold requestPickup, cancelPickup, createLabel, getRates, getTrackingURL,
    voidLabel, track, createManifest,
    requestPickup_body, cancelPickup_body, createLabel_body, getRates_body,
    getTrackingURL_body, call, invalid_input, app_error, error,
    try_catch, bind, lift, throw, ret; simpl.

Ltac use_valid H :=
  let h1 := fresh "h1" in let H1 := fresh "H1" in let H2 := fresh "H2" in
  destruct H as (h1 & H1 & H2); unfold_wrapper; rewrite H1; simpl; rewrite H2; simpl;
  match goal with Hm : _ = _ :> option _ |- _ => rewrite Hm; simpl end.

(** In each wrapper around a user-defined method, once the typed
    transaction [t] and request [r] are built, a user function that resolves
    with [v] from which the typed result [c] is built makes the wrapper
    resolve with [c].  The user function has been invoked exactly once, with
    [t] and [r], before the result is built.  [cancelPickup] and
    [getTrackingURL] do so for a truthy [v]; [requestPickup] builds the
    result once the shipments are filled in. *)
Theorem built_result_is_returned (this : Private I) (transaction request : value)
    (w : world) (t : Transaction I) (h2 h3 h4 : heap) (v : value) :
  (forall r f c h3',
     input_valid I (new_PickupRequest I) this transaction request (w_heap w) t r h2 ->
     requestPickup_ I this = Some f ->
     f t r h2 = Ok v h3 ->
     fill_shipments v request h3 = Ok tt h3' ->
     new_PickupConfirmation I v h3' = Ok c h4 ->
     requestPickup I this transaction request w =
     Ok c (World h4 (w_calls w ++ [RequestPickup]))) /\
  (forall r f c,
     input_valid I (new_PickupCancellation I) this transaction request (w_heap w) t r h2 ->
     cancelPickup_ I this = Some f ->
     f t r h2 = Ok v h3 ->
     truthy v = true ->
     new_PickupCancellationConfirmation v h3 = Ok c h4 ->
     cancelPickup I this transaction request w =
     Ok c (World h4 (w_calls w ++ [CancelPickup]))) /\
  (forall r f c,
     input_valid I (new_LabelSpec I) this transaction request (w_heap w) t r h2 ->
     createLabel_ I this = Some f ->
     f t r h2 = Ok v h3 ->
     new_LabelConfirmation I v h3 = Ok c h4 ->
     createLabel I this transaction request w =
     Ok c (World h4 (w_calls w ++ [CreateLabel]))) /\
  (forall r f c,
     input_valid I (new_RateCriteria I) this transaction request (w_heap w) t r h2 ->
     getRates_ I this = Some f ->
     f t r h2 = Ok v h3 ->
     new_RateQuote I v (app I this) h3 = Ok c h4 ->
     getRates I this transaction request w =
     Ok c (World h4 (w_calls w ++ [GetRates]))) /\
  (forall r f u,
     input_valid I (new_TrackingCriteria I) this transaction request (w_heap w) t r h2 ->
     getTrackingURL_ I this = Some f ->
     f t r h2 = Ok v h3 ->
     truthy v = true ->
     new_URL I v h3 = Ok u h4 ->
     getTrackingURL I this transaction request w =
     Ok (Some u) (World h4 (w_calls w ++ [GetTrackingURL]))).
Proof.
  repeat split.
  - intros r f c h3' Hin Hm Hf Hs Hc. use_valid Hin.
    rewrite Hf. simpl. rewrite Hs. simpl. rewrite Hc. reflexivity.
  - intros r f c Hin Hm Hf Hv Hc. use_valid Hin.
    rewrite Hf. simpl. unfold default_confirmation. rewrite Hv. simpl.
    rewrite Hc. reflexivity.
  - intros r f c Hin Hm Hf Hc. use_valid Hin. rewrite Hf. simpl. rewrite Hc. reflexivity.
  - intros r f c Hin Hm Hf Hc. use_valid Hin. rewrite Hf. simpl. rewrite Hc. reflexivity.
  - intros r f u Hin Hm Hf Hv Hc. use_valid Hin.
    rewrite Hf. simpl. rewrite Hv. simpl. rewrite Hc. reflexivity.
Qed.

(** [getTrackingURL]: when the user function returns a falsy value
    ([undefined], [null], the empty string), the wrapper returns [undefined]
    and builds no [URL]: the heap is the one the user function left. *)
Theorem getTrackingURL_without_url (this : Private I) (transaction criteria : value)
    (w : world) (t : Transaction I) (r : TrackingCriteria I)
    (f : UserMethod I (TrackingCriteria I)) (h2 h3 : heap) (v : value) :
  input_valid I (new_TrackingCriteria I) this transaction criteria (w_heap w) t r h2 ->
  getTrackingURL_ I this = Some f ->
  f t r h2 = Ok v h3 ->
  truthy v = false ->
  getTrackingURL I this transaction criteria w =
  Ok None (World h3 (w_calls w ++ [GetTrackingURL])).
Proof.
  intros Hin Hm Hf Hv. use_valid Hin. rewrite Hf. simpl. rewrite Hv. reflexivity.
Qed.

(** [requestPickup]: a user function that resolves with [undefined] or
    [null] makes the wrapper throw the [AppError] error whose original error
    is the [TypeError] of reading [shipments] on that value; no default
    confirmation is made up, unlike in [cancelPickup]. *)
Theorem requestPickup_needs_a_confirmation (this : Private I)
    (transaction request : value) (w : world)
    (t : Transaction I) (r : PickupRequest I) (f : UserMethod I (PickupRequest I))
    (h2 h3 : heap) (v : value) :
  input_valid I (new_PickupRequest I) this transaction request (w_heap w) t r h2 ->
  requestPickup_ I this = Some f ->
  f t r h2 = Ok v h3 ->
  v = VUndef \/ v = VNull ->
  requestPickup I this transaction request w =
  Throw (SdkError AppError "Error in requestPickup method." TypeError
                  (Some (Transaction_id I t)))
        (World h3 (w_calls w ++ [RequestPickup])).
Proof.
  intros Hin Hm Hf Hv. use_valid Hin. rewrite Hf. simpl.
  by destruct Hv as [-> | ->].
Qed.

(** A wrapper called on a carrier that does not implement the method (the
    private field is [undefined]) validates its input, then throws the
    [AppError] error whose original error is the [TypeError] of calling
    [undefined]; no user function is invoked. *)
Theorem missing_method_is_an_app_error (this : Private I) (transaction request : value)
    (w : world) (t : Transaction I) (h2 : heap) :
  (forall r,
     input_valid I (new_PickupRequest I) this transaction request (w_heap w) t r h2 ->
     requestPickup_ I this = None ->
     requestPickup I this transaction request w =
     Throw (SdkError AppError "Error in requestPickup method." TypeError
                     (Some (Transaction_id I t)))
           (World h2 (w_calls w))) /\
  (forall r,
     input_valid I (new_PickupCancellation I) this transaction request (w_heap w) t r h2 ->
     cancelPickup_ I this = None ->
     cancelPickup I this transaction request w =
     Throw (SdkError AppError "Error in cancelPickup method." TypeError
                     (Some (Transaction_id I t)))
           (World h2 (w_calls w))) /\
  (forall r,
     input_valid I (new_LabelSpec I) this transaction request (w_heap w) t r h2 ->
     createLabel_ I this = None ->
     createLabel I this transaction request w =
     Throw (SdkError AppError "Error in createLabel method." TypeError
                     (Some (Transaction_id I t)))
           (World h2 (w_calls w))) /\
  (forall r,
     input_valid I (new_RateCriteria I) this transaction request (w_heap w) t r h2 ->
     getRates_ I this = None ->
     getRates I this transaction request w =
     Throw (SdkError AppError "Error in getRates method." TypeError
                     (Some (Transaction_id I t)))
           (World h2 (w_calls w))) /\
  (forall r,
     input_valid I (new_TrackingCriteria I) this transaction request (w_heap w) t r h2 ->
     getTrackingURL_ I this = None ->
     getTrackingURL I this transaction request w =
     Throw (SdkError AppError "Error in getTrackingURL method." TypeError
                     (Some (Transaction_id I t)))
           (World h2 (w_calls w))).
Proof.
  repeat split; intros r Hin Hm; use_valid Hin; by destruct w.
Qed.

Ltac case_step :=
  match goal with
  | |- context [match ?x with _ => _ end] =>
      lazymatch x with
      | context [match _ with _ => _ end] => fail
      | _ => destruct x eqn:?; simpl
      end
  end.

(** Whatever a wrapper throws is an error built by the SDK's [error]
    helper: the [InvalidInput] error of the method, which carries no
    transaction identifier, or its [AppError] error, which carries one.  The
    three wrappers that are not implemented yet only throw the first. *)
Theorem only_sdk_errors_are_thrown (this : Private I) (transaction request : value)
    (w w' : world) (e : thrown) :
  (requestPickup I this transaction request w = Throw e w' ->
   (exists cause,
      e = SdkError InvalidInput "Invalid input to the requestPickup method." cause None) \/
   (exists cause id,
      e = SdkError AppError "Error in requestPickup method." cause (Some id))) /\
  (cancelPickup I this transaction request w = Throw e w' ->
   (exists cause,
      e = SdkError InvalidInput "Invalid input to the cancelPickup method." cause None) \/
   (exists cause id,
      e = SdkError AppError "Error in cancelPickup method." cause (Some id))) /\
  (createLabel I this transaction request w = Throw e w' ->
   (exists cause,
      e = SdkError InvalidInput "Invalid input to the createLabel method." cause None) \/
   (exists cause id,
      e = SdkError AppError "Error in createLabel method." cause (Some id))) /\
  (getRates I this transaction request w = Throw e w' ->
   (exists cause,
      e = SdkError InvalidInput "Invalid input to the getRates method." cause None) \/
   (exists cause id,
      e = SdkError AppError "Error in getRates method." cause (Some id))) /\
  (getTrackingURL I this transaction request w = Throw e w' ->
   (exists cause,
      e = SdkError InvalidInput "Invalid input to the getTrackingURL method." cause None) \/
   (exists cause id,
      e = SdkError AppError "Error in getTrackingURL method." cause (Some id))) /\
  (voidLabel I this transaction w = Throw e w' ->
   exists cause,
     e = SdkError InvalidInput "Invalid input to the voidLabel method." cause None) /\
  (track I this transaction w = Throw e w' ->
   exists cause,
     e = SdkError InvalidInput "Invalid input to the track method." cause None) /\
  (createManifest I this transaction w = Throw e w' ->
   exists cause,
     e = SdkError InvalidInput "Invalid input to the createManifest method." cause None).
Proof.
  repeat split; unfold_wrapper; repeat case_step; intros; simplify_eq; eauto.
Qed.

End Wrappers.

(** *** The theorems at work on a concrete carrier *)

Lemma built_result_is_returned_witness :
  createLabel simple (carrier_with (ret (VRef 1))) (VRef 0) (VRef 1) start =
  Ok (VRef 1) (World call_heap [CreateLabel]).
Proof.
  apply (proj1 (proj2 (proj2 (built_result_is_returned simple (carrier_with (ret (VRef 1)))
                  (VRef 0) (VRef 1) start "tx-1" call_heap call_heap call_heap (VRef 1))))
           (VRef 1) (fun _ _ => ret (VRef 1)) (VRef 1)).
  - exists call_heap. split; reflexivity.
  - reflexivity.
  - reflexivity.
  - reflexivity.
Defined.

Lemma getTrackingURL_without_url_witness :
  getTrackingURL simple (carrier_with (ret (VStr ""))) (VRef 0) (VRef 1) start =
  Ok None (World call_heap [GetTrackingURL]).
Proof.
  apply (getTrackingURL_without_url simple (carrier_with (ret (VStr "")))
           (VRef 0) (VRef 1) start "tx-1" (VRef 1) (fun _ _ => ret (VStr ""))
           call_heap call_heap (VStr "")).
  - exists call_heap. split; reflexivity.
  - reflexivity.
  - reflexivity.
  - reflexivity.
Defined.

Lemma requestPickup_needs_a_confirmation_witness :
  requestPickup simple (carrier_with (ret VUndef)) (VRef 0) (VRef 1) start =
  Throw (SdkError AppError "Error in requestPickup method." TypeError (Some "tx-1"))
        (World call_heap [RequestPickup]).
Proof.
  apply (requestPickup_needs_a_confirmation simple (carrier_with (ret VUndef))
           (VRef 0) (VRef 1) start "tx-1" (VRef 1) (fun _ _ => ret VUndef)
           call_heap call_heap VUndef).
  - exists call_heap. split; reflexivity.
  - reflexivity.
  - reflexivity.
  - left. reflexivity.
Defined.

Lemma missing_method_is_an_app_error_witness :
  getRates simple carrier_without_methods (VRef 0) (VRef 1) start =
  Throw (SdkError AppError "Error in getRates method." TypeError (Some "tx-1"))
        (World call_heap []).
Proof.
  apply (proj1 (proj2 (proj2 (proj2 (missing_method_is_an_app_error simple
                  carrier_without_methods (VRef 0) (VRef 1) start "tx-1" call_heap))))
           (VRef 1)).
  - exists call_heap. split; reflexivity.
  - reflexivity.
Defined.

Lemma only_sdk_errors_are_thrown_witness :
  (exists cause,
     SdkError InvalidInput "Invalid input to the requestPickup method." ValidationError None =
     SdkError InvalidInput "Invalid input to the requestPickup method." cause None) \/
  (exists cause id,
     SdkError InvalidInput "Invalid input to the requestPickup method." ValidationError None =
     SdkError AppError "Error in requestPickup method." cause (Some id)).
Proof.
  apply (proj1 (only_sdk_errors_are_thrown simple (carrier_with (ret VUndef))
                  (VRef 3) (VRef 1) start (World call_heap [])
                  (SdkError InvalidInput "Invalid input to the requestPickup method."
                            ValidationError None))).
  reflexivity.
Defined.

End WrapperOutcomes.


(** ** Further properties of [hideAndFreeze] *)

Module UtilsOutcomes.
Import JS HeapRelations HeapShapes Utils FreezeFacts FreezeOutcomeFacts Examples MoreExamples.

(** [hideAndFreeze] only takes attributes away.  In the heap it leaves,
    whether it returns or throws, every object has the kind, the prototype
    and the fields it had, each field with the value it had: a field may
    have become read-only or non-configurable, an object non-extensible, a
    symbol-keyed field non-enumerable.  What it throws is a [TypeError]. *)
Theorem hideAndFreeze_only_restricts (obj : loc) (omit : list string) (h : heap) :
  (forall h', hideAndFreeze obj omit h = Ok tt h' -> heap_evolves h h') /\
  (forall e h', hideAndFreeze obj omit h = Throw e h' ->
     e = TypeError /\ heap_evolves h h').
Proof.
  split.
  - by intros h' [He _]%hideAndFreeze_Ok.
  - intros e h'. apply hideAndFreeze_Throw.
Qed.

(** [hideAndFreeze] is not recursive: an object other than [obj] that is
    not the value of a symbol-keyed field of [obj], nor of an enumerable
    string-keyed field that is not omitted, is left exactly as it was.  So
    are the values of the omitted fields, and what the frozen values refer
    to. *)
Theorem hideAndFreeze_is_shallow (obj : loc) (omit : list string) (h h' : heap)
    (o : JS.obj) (l : loc) :
  hideAndFreeze obj omit h = Ok tt h' ->
  h !! obj = Some o ->
  l ≠ obj ->
  (forall s v, (s, v) ∈ entries_of (o_props o) -> s ∉ omit -> v ≠ VRef l) ->
  (forall n p, alist_lookup (KSym n) (o_props o) = Some p -> p_value p ≠ VRef l) ->
  h' !! l = h !! l.
Proof. apply hideAndFreeze_frame. Qed.

(** [hideAndFreeze] throws a [TypeError] when it meets a typed array with
    elements that it does not skip.  The guard of the first loop skips a
    [Buffer] only, and the second loop has no guard: on a heap without
    dangling references, the call throws when an enumerable string-keyed
    field that is not omitted holds such an array that is not a [Buffer],
    when a symbol-keyed field holds one, a [Buffer] included, or when [obj]
    is one itself.  No field value has changed when it throws. *)
Theorem hideAndFreeze_throws_on_typed_array (obj : loc) (omit : list string) (h : heap)
    (o : JS.obj) :
  closed h ->
  h !! obj = Some o ->
  ((exists s v, (s, v) ∈ entries_of (o_props o) /\ (s ∉ omit) /\
                buffer_valued h v = false /\ unfreezable h v = true) \/
   (exists n p, alist_lookup (KSym n) (o_props o) = Some p /\
                unfreezable h (p_value p) = true) \/
   freezable (o_kind o) = false) ->
  exists h', hideAndFreeze obj omit h = Throw TypeError h' /\ heap_evolves h h'.
Proof.
  intros Hc Hl Hbad.
  destruct (hideAndFreeze obj omit h) as [[] h' | e h' |] eqn:Hrun.
  - exfalso. apply hideAndFreeze_Ok in Hrun as (He & o' & Hl' & Hfr & Hes & Hns).
    destruct (heap_evolves_lookup _ _ _ _ He Hl) as (o1 & Hl1 & (Hk & _ & _ & HF)).
    rewrite Hl' in Hl1. injection Hl1 as <-.
    destruct Hbad as [(s & v & Hin & Homit & Hb & Hu) | [(n & p & Hp & Hu) | Hu]].
    + rewrite <- (entries_of_evolves _ _ HF) in Hin.
      rewrite <- (buffer_valued_evolves _ _ _ He) in Hb.
      pose proof (Hes s v Hin Homit Hb) as Hv.
      by rewrite (unfreezable_not_frozen _ _ _ He Hu) in Hv.
    + pose proof (alist_lookup_evolves (KSym n) _ _ HF) as Hlook. rewrite Hp in Hlook.
      destruct Hlook as (p' & Hp' & _ & Hv & _). simpl in Hv.
      destruct (Hns n) as (p1 & Hp1 & _ & Hfr1); [by eapply symbols_alist_lookup|].
      rewrite Hp' in Hp1. injection Hp1 as <-.
      rewrite Hv, (unfreezable_not_frozen _ _ _ He Hu) in Hfr1. done.
    + unfold obj_frozen in Hfr. rewrite Hk, Hu in Hfr. done.
  - apply hideAndFreeze_Throw in Hrun as [-> He]. eauto.
  - exfalso. eapply hideAndFreeze_runs; [exact Hc| |exact Hrun]. by eapply lookup_lt_Some.
Qed.

(** *** The theorems at work *)

(** The call throws at the typed array, after it has frozen [tags]. *)
Lemma hideAndFreeze_only_restricts_witness :
  TypeError = TypeError /\
  heap_evolves typed_array_heap
    [ Obj KOrdinary None true
          [ (KStr "tags", data_prop (VRef 1));
            (KStr "view", data_prop (VRef 2)) ];
      Obj KOrdinary None false [ (KStr "first", Prop_ (VStr "a") true false false) ];
      Obj (KTypedArray 2) None false [] ].
Proof.
  apply (proj2 (hideAndFreeze_only_restricts 0 [] typed_array_heap)).
  vm_compute. reflexivity.
Defined.

(** With [tags] and [data] omitted, the object that [tags] holds is not
    touched: it is still extensible and its field writable. *)
Lemma hideAndFreeze_is_shallow_witness :
  Examples.heap_of (hideAndFreeze 0 ["tags"; "data"] sample_heap) !! 1 =
  Some (Obj KOrdinary None true [ (KStr "first", data_prop (VStr "a")) ]).
Proof.
  apply (hideAndFreeze_is_shallow 0 ["tags"; "data"] sample_heap _
           (Obj KOrdinary None true
                [ (KStr "tags", data_prop (VRef 1));
                  (KStr "data", data_prop (VRef 2));
                  (KStr "count", data_prop (VNum 3));
                  (KSym 0, data_prop (VRef 3)) ]) 1).
  - vm_compute. reflexivity.
  - reflexivity.
  - done.
  - intros s v Hin Homit ->. cbn [o_props entries_of data_prop p_enumerable p_value] in Hin.
    apply elem_of_cons in Hin as [Hin | Hin].
    { simplify_eq. apply Homit. apply elem_of_cons. by left. }
    apply elem_of_cons in Hin as [Hin | Hin]; [simplify_eq|].
    apply elem_of_cons in Hin as [Hin | Hin]; [simplify_eq|].
    by apply elem_of_nil in Hin.
  - intros n p Hp Hv. cbn [o_props alist_lookup] in Hp.
    repeat case_decide; simplify_eq.
Defined.

Lemma closed_symbol_buffer_heap : closed symbol_buffer_heap.
Proof.
  intros l o k p Hl Hin. destruct l as [|[|l]]; simpl in Hl; [| |done]; injection Hl as <-.
  - apply list_elem_of_singleton in Hin as [= -> ->]. simpl. lia.
  - by apply elem_of_nil in Hin.
Qed.

Lemma hideAndFreeze_throws_on_typed_array_witness :
  exists h', hideAndFreeze 0 [] symbol_buffer_heap = Throw TypeError h' /\
             heap_evolves symbol_buffer_heap h'.
Proof.
  apply (hideAndFreeze_throws_on_typed_array 0 [] symbol_buffer_heap
           (Obj KOrdinary None true [ (KSym 0, data_prop (VRef 1)) ])
           closed_symbol_buffer_heap eq_refl).
  right. left. exists 0, (data_prop (VRef 1)). split; reflexivity.
Defined.

End UtilsOutcomes.


(** ** Further facts about the constructors *)

Module ConstructorOutcomeFacts.
Import JS HeapRelations HeapShapes Utils FreezeFacts WrapperFacts ConstructorFacts
  FreezeOutcomeFacts.

#[local] Existing Instances heap_evolves_refl heap_evolves_trans.

(** *** Assignments *)

Lemma Set_own l k v h u h' :
  Set_ (VRef l) k v h = Ok u h' -> exists p, own_prop h' l k = Some p /\ p_value p = v.
Proof.
  intros (o & ps & Hl & -> & Hp & _)%Set_Ok.
  by rewrite own_prop_insert by (by eapply lookup_lt_Some).
Qed.

Lemma Set_other l k v h u h' l' k' :
  Set_ (VRef l) k v h = Ok u h' -> l' ≠ l \/ k' ≠ k -> own_prop h' l' k' = own_prop h l' k'.
Proof.
  intros (o & ps & Hl & -> & _ & Hother)%Set_Ok Hne.
  destruct (decide (l' = l)) as [->|]; [|by apply own_prop_insert_ne].
  destruct Hne as [?|Hk]; [done|].
  rewrite own_prop_insert by (by eapply lookup_lt_Some). simpl.
  unfold own_prop. rewrite Hl. simpl. by apply Hother.
Qed.

Lemma Set_proto l k v h u h' l' :
  Set_ (VRef l) k v h = Ok u h' -> o_proto <$> h' !! l' = o_proto <$> h !! l'.
Proof.
  intros (o & ps & Hl & -> & _)%Set_Ok.
  destruct (decide (l' = l)) as [->|]; [|by rewrite list_lookup_insert_ne].
  rewrite list_lookup_insert_eq by (by eapply lookup_lt_Some). by rewrite Hl.
Qed.

Lemma own_prop_alloc (h : heap) o l k :
  l < length h -> own_prop (h ++ [o]) l k = own_prop h l k.
Proof. intros Hl. unfold own_prop. by rewrite lookup_app_l. Qed.

Lemma Get_evolves target k h h' v h1 :
  heap_evolves h h' -> Get target k h = Ok v h1 -> Get target k h' = Ok v h'.
Proof. intros He. apply Get_preserved. by apply preserved_evolves. Qed.

(** *** The set of references *)

Lemma Set_add_buffer_valued target v h u h' x :
  Set_add target v h = Ok u h' -> buffer_valued h' x = buffer_valued h x.
Proof.
  intros (l0 & o & ms & -> & Hl & -> & ms0 & Hk)%Set_add_Ok.
  destruct x; try done. simpl. destruct (decide (l0 = l)) as [->|].
  - rewrite list_lookup_insert_eq by (by eapply lookup_lt_Some). rewrite Hl. simpl.
    by rewrite Hk.
  - by rewrite list_lookup_insert_ne.
Qed.

Lemma Set_add_value_frozen target v h u h' x :
  Set_add target v h = Ok u h' -> value_frozen h x = true -> value_frozen h' x = true.
Proof. intros Hadd. destruct x; try done. simpl. by eapply Set_add_frozen. Qed.

(** *** The private fields of a carrier *)

Lemma method_slots_keys this pojo ms h ps h' :
  Carrier.method_slots this pojo ms h = Ok ps h' -> map fst ps = map KStr ms.
Proof.
  revert h ps h'. induction ms as [|m ms IH]; intros h ps h'; simpl.
  - by intros [-> _]%ret_Ok.
  - intros (f & h1 & _ & (ps' & h2 & Hrest & [-> _]%ret_Ok)%bind_Ok)%bind_Ok.
    simpl. f_equal. by eapply IH.
Qed.

Lemma alist_lookup_key k ps : k ∈ map fst ps -> is_Some (alist_lookup k ps).
Proof.
  induction ps as [|[k1 p1] ps IH]; simpl; [by intros ?%elem_of_nil|].
  destruct (decide (k = k1)); [eauto|]. intros [?|?]%elem_of_cons; [done | auto].
Qed.

Lemma private_fields_Ok I this pojo app h private h' :
  Carrier.private_fields I this pojo app h = Ok private h' ->
  exists h0 localization methods,
    private = length h0 /\
    h' = h0 ++ [Obj KOrdinary None true
                  ((KStr "app", data_prop app)
                     :: (KStr "localization", data_prop localization) :: methods)] /\
    exists h1, Carrier.method_slots this pojo Carrier.user_methods h1 = Ok methods h0.
Proof.
  unfold Carrier.private_fields. intros H.
  apply bind_Ok in H as (x & h1 & _ & H).
  apply bind_Ok in H as (x' & h2 & _ & H).
  apply bind_Ok in H as (localization & h3 & _ & H).
  apply bind_Ok in H as (methods & h4 & Hslots & [-> ->]%alloc_Ok). eauto 10.
Qed.

(** *** A field that the constructor does not create *)

Lemma inherits_own_prop h this proto k : inherits h this proto k -> own_prop h this k = None.
Proof. intros (o & Hl & _ & Hk). unfold own_prop. by rewrite Hl. Qed.

Lemma inherits_grows h h' this proto k :
  heap_grows h h' -> inherits h this proto k -> inherits h' this proto k.
Proof.
  intros Hg (o & Hl & Hp & Hk). destruct (Hg this o Hl) as (o' & Hl' & Hp' & HF).
  exists o'. split; [done|]. split; [congruence|].
  pose proof (alist_lookup_same_fields k _ _ HF) as Hsame.
  rewrite Hk in Hsame. by destruct (alist_lookup k (o_props o')).
Qed.

Lemma inherits_evolves h h' this proto k :
  heap_evolves h h' -> inherits h this proto k -> inherits h' this proto k.
Proof.
  intros He (o & Hl & Hp & Hk).
  destruct (heap_evolves_lookup _ _ _ _ He Hl) as (o' & Hl' & (_ & Hp' & _ & HF)).
  exists o'. split; [done|]. split; [congruence|].
  pose proof (alist_lookup_evolves k _ _ HF) as Hlook. by rewrite Hk in Hlook.
Qed.

Lemma inherits_alloc (h : heap) o this proto k :
  inherits h this proto k -> inherits (h ++ [o]) this proto k.
Proof.
  intros (o0 & Hl & Hk). exists o0. split; [|done].
  rewrite lookup_app_l; [done | by eapply lookup_lt_Some].
Qed.

Lemma inherits_Set l k' v h u h' this proto k :
  Set_ (VRef l) k' v h = Ok u h' -> l ≠ this \/ k' ≠ k ->
  inherits h this proto k -> inherits h' this proto k.
Proof.
  intros (o & ps & Hl & -> & _ & Hother)%Set_Ok Hne (o0 & Hl0 & Hp & Hk).
  destruct (decide (l = this)) as [->|].
  - destruct Hne as [?|Hne]; [done|]. rewrite Hl in Hl0. injection Hl0 as <-.
    eexists. split; [apply list_lookup_insert_eq; by eapply lookup_lt_Some|].
    split; [done|]. simpl. rewrite Hother; [done | congruence].
  - exists o0. split; [|done]. by rewrite list_lookup_insert_ne.
Qed.

Lemma inherits_Set_add target v h u h' this proto k :
  Set_add target v h = Ok u h' -> inherits h this proto k -> inherits h' this proto k.
Proof.
  intros (l0 & o & ms & -> & Hl & -> & _)%Set_add_Ok (o0 & Hl0 & Hp & Hk).
  destruct (decide (l0 = this)) as [->|].
  - rewrite Hl in Hl0. injection Hl0 as <-.
    eexists. split; [apply list_lookup_insert_eq; by eapply lookup_lt_Some | done].
  - exists o0. split; [|done]. by rewrite list_lookup_insert_ne.
Qed.

Lemma leaves_bind this proto k {A B} (m : M heap A) (f : A -> M heap B) :
  leaves this proto k m -> (forall a, leaves this proto k (f a)) ->
  leaves this proto k (bind m f).
Proof. intros Hm Hf h b h' (a & h1 & H1 & H2)%bind_Ok Hl. eapply Hf; eauto. Qed.

Lemma leaves_ret this proto k {A} (a : A) : leaves this proto k (ret a).
Proof. by intros h b h' [_ ->]%ret_Ok. Qed.

Lemma leaves_Get this proto k target k' : leaves this proto k (Get target k').
Proof. by intros h v h' ->%Get_Ok. Qed.

Lemma leaves_alloc this proto k o : leaves this proto k (alloc o).
Proof. intros h l h' [_ ->]%alloc_Ok. apply inherits_alloc. Qed.

Lemma leaves_Set this proto k l k' v : k' ≠ k -> leaves this proto k (Set_ (VRef l) k' v).
Proof. intros Hne h u h' HS. eapply inherits_Set; [exact HS | by right]. Qed.

Lemma leaves_grows this proto k {A} (m : M heap A) :
  (forall h a h', m h = Ok a h' -> heap_grows h h') -> leaves this proto k m.
Proof. intros Hm h a h' Hrun. eapply inherits_grows, Hm, Hrun. Qed.

Lemma leaves_assign_fields I this l proto app pojo m :
  Carrier.frame_respecting I -> m ∈ Carrier.user_methods ->
  leaves l proto (KStr m) (Carrier.assign_fields I (VRef this) pojo app).
Proof.
  intros (HU & HD & HP & _) Hm.
  assert (forall s, In s ["id"; "name"; "description"; "websiteURL"; "logo";
                          "deliveryServices"; "pickupServices"] -> KStr s ≠ KStr m) as Hne.
  { intros s Hs [= ->]. apply list_elem_of_In in Hm. unfold Carrier.user_methods in Hm.
    simpl in Hs, Hm. intuition congruence. }
  unfold Carrier.assign_fields.
  repeat first
    [ progress cbv beta
    | apply leaves_Set; apply Hne; simpl; tauto
    | apply leaves_ret | apply leaves_Get | apply leaves_alloc
    | apply leaves_grows; solve [eauto]
    | match goal with |- leaves _ _ _ (if ?b then _ else _) => destruct b end
    | apply leaves_bind; [|intros ?] ].
Qed.

(** The slot of a method that the POJO implements holds the user's
    function, and no field is set on [this] for it. *)
Lemma method_slot_implemented h0 this pojo m f h g h' :
  Get pojo (KStr m) h0 = Ok f h0 -> truthy f = true ->
  preserved (length h0) h0 h ->
  Carrier.method_slot (VRef this) pojo m h = Ok g h' -> g = f /\ h' = h.
Proof.
  intros Hget Htruthy Hpres. unfold Carrier.method_slot.
  pose proof (Get_preserved _ _ _ _ _ _ Hpres Hget) as Hget'.
  rewrite (bind_eq_Ok _ _ _ _ _ Hget'), Htruthy, Hget'. by intros [= <- <-].
Qed.

Lemma method_slot_inherits h0 this proto pojo m f m' h g h' :
  Get pojo (KStr m) h0 = Ok f h0 -> truthy f = true ->
  preserved (length h0) h0 h ->
  Carrier.method_slot (VRef this) pojo m' h = Ok g h' ->
  inherits h this proto (KStr m) -> inherits h' this proto (KStr m).
Proof.
  intros Hget Htruthy Hpres Hslot Hl. destruct (decide (m' = m)) as [->|Hne].
  - by destruct (method_slot_implemented _ _ _ _ _ _ _ _ Hget Htruthy Hpres Hslot) as [_ ->].
  - revert Hslot. unfold Carrier.method_slot.
    intros (x & h4 & ->%Get_Ok & H)%bind_Ok. destruct (truthy x).
    + by apply Get_Ok in H as ->.
    + apply bind_Ok in H as (u & h5 & HS & [_ ->]%ret_Ok).
      eapply inherits_Set; [exact HS | right; congruence | done].
Qed.

Lemma method_slots_inherits h0 this proto pojo m f ms h ps h' :
  Get pojo (KStr m) h0 = Ok f h0 -> truthy f = true ->
  length h0 <= this -> preserved (length h0) h0 h ->
  Carrier.method_slots (VRef this) pojo ms h = Ok ps h' ->
  inherits h this proto (KStr m) -> inherits h' this proto (KStr m).
Proof.
  intros Hget Htruthy Hthis. revert h ps.
  induction ms as [|m' ms IH]; intros h ps Hpres; simpl; [by intros [_ ->]%ret_Ok|].
  intros (g & h1 & Hslot & (ps' & h2 & Hrest & [_ ->]%ret_Ok)%bind_Ok)%bind_Ok Hl.
  eapply (IH h1); [|exact Hrest|by eapply method_slot_inherits].
  eapply preserved_trans; [exact Hpres|].
  by eapply (keeps_method_slot (length h0) this pojo m').
Qed.

Lemma method_slots_implemented h0 this pojo m f ms h ps h' :
  Get pojo (KStr m) h0 = Ok f h0 -> truthy f = true ->
  length h0 <= this -> preserved (length h0) h0 h ->
  m ∈ ms ->
  Carrier.method_slots (VRef this) pojo ms h = Ok ps h' ->
  alist_lookup (KStr m) ps = Some (data_prop f).
Proof.
  intros Hget Htruthy Hthis. revert h ps.
  induction ms as [|m' ms IH]; intros h ps Hpres Hin; [by apply elem_of_nil in Hin|].
  simpl. intros (g & h1 & Hslot & (ps' & h2 & Hrest & [-> ->]%ret_Ok)%bind_Ok)%bind_Ok.
  simpl. destruct (decide (m = m')) as [<-|Hne].
  - destruct (method_slot_implemented _ _ _ _ _ _ _ _ Hget Htruthy Hpres Hslot) as [-> ->].
    by rewrite decide_True.
  - rewrite decide_False by congruence.
    apply elem_of_cons in Hin as [?|Hin]; [done|].
    eapply (IH h1); [|done|exact Hrest].
    eapply preserved_trans; [exact Hpres|].
    by eapply (keeps_method_slot (length h0) this pojo m').
Qed.

(** What the constructor does before it freezes the carrier leaves the
    objects that were there with their fields. *)
Lemma keeps_private_fields I n this pojo app :
  Carrier.frame_respecting I -> n <= this ->
  keeps n (Carrier.private_fields I (VRef this) pojo app).
Proof.
  intros (_ & _ & _ & HL) Hn. unfold Carrier.private_fields.
  apply keeps_bind; [apply keeps_Get | intros x].
  apply keeps_bind.
  { destruct (truthy x); [apply keeps_ret|].
    apply keeps_bind; [apply keeps_alloc | intros; apply keeps_ret]. }
  intros x'. apply keeps_bind.
  { intros h v h' Hnew. eapply heap_grows_preserved, HL, Hnew. }
  intros localization. apply keeps_bind; [by apply keeps_method_slots | intros methods].
  apply keeps_alloc.
Qed.

(** *** Reads along the prototype chain *)

Lemma lookup_chain_fuel h k fuel l :
  l < fuel -> lookup_chain fuel h l k = lookup_chain (S l) h l k.
Proof.
  revert l. induction fuel as [fuel IH] using lt_wf_ind. intros l Hl.
  destruct fuel as [|fuel]; [lia|]. simpl.
  destruct (h !! l) as [o|]; [|done].
  destruct (alist_lookup k (o_props o)); [done|].
  destruct (o_proto o) as [l'|]; [|done]. destruct (decide (l' < l)); [|done].
  rewrite (IH fuel) by lia. destruct l as [|l]; [lia|].
  destruct (decide (l' = l)) as [->|]; [done|]. rewrite (IH (S l)) by lia. done.
Qed.

Lemma lookup_field_inherited h this o proto k :
  h !! this = Some o -> alist_lookup k (o_props o) = None ->
  o_proto o = Some proto -> proto < this ->
  lookup_field h this k = lookup_field h proto k.
Proof.
  intros Hl Hk Hp Hlt. unfold lookup_field. cbn [lookup_chain].
  rewrite Hl, Hk, Hp. rewrite decide_True by done. by apply lookup_chain_fuel.
Qed.

End ConstructorOutcomeFacts.


(** ** Further properties of the constructed entities *)

Module ConstructorOutcomes.
Import JS HeapRelations HeapShapes Utils FreezeFacts WrapperFacts ConstructorFacts
  FreezeOutcomeFacts ConstructorOutcomeFacts Examples MoreExamples.

#[local] Existing Instances heap_evolves_refl heap_evolves_trans.

(** The private fields of a constructed carrier: [this[_private]] is not
    enumerable (so that [toJSON]'s spread of [this] leaves it out) and holds
    a frozen object, which has the [app] the carrier was built for and one
    field for each user-defined method. *)
Theorem Carrier_private_fields_are_hidden
    (I : Carrier.Imports) (pojo app : value) (h : heap) (this : loc) (h' : heap) :
  Carrier.new I pojo app h = Ok this h' ->
  exists p private,
    own_prop h' this (KSym Carrier._private) = Some p /\
    p_value p = VRef private /\ p_enumerable p = false /\
    is_frozen h' private = true /\
    (exists pa, own_prop h' private (KStr "app") = Some pa /\ p_value pa = app) /\
    (forall m, m ∈ Carrier.user_methods -> is_Some (own_prop h' private (KStr m))).
Proof.
  unfold Carrier.new. intros Hnew.
  apply bind_Ok in Hnew as (this0 & h1 & [-> ->]%alloc_Ok & H).
  apply bind_Ok in H as (u1 & h2 & _ & H).
  apply bind_Ok in H as (private & h3 & Hprivate & H).
  apply bind_Ok in H as (u2 & h4 & Hset & H).
  apply bind_Ok in H as (u3 & h5 & (He & o5 & Hl5 & _ & _ & Hns)%hideAndFreeze_Ok & H).
  apply bind_Ok in H as (u4 & h6 & (r & v & Hadd)%Carrier_register_Ok & [-> ->]%ret_Ok).
  apply private_fields_Ok in Hprivate
    as (h0 & localization & methods & -> & -> & hm & Hkeys%method_slots_keys).
  (* in [h4], after the assignment *)
  destruct (Set_own _ _ _ _ _ _ Hset) as (p4 & Hp4 & Hv4).
  assert (forall s, own_prop h4 (length h0) (KStr s) =
            alist_lookup (KStr s) ((KStr "app", data_prop app)
              :: (KStr "localization", data_prop localization) :: methods)) as Hpriv4.
  { intros s. rewrite (Set_other _ _ _ _ _ _ (length h0) (KStr s) Hset) by (by right).
    unfold own_prop. by rewrite list_lookup_middle. }
  (* in [h5], after [hideAndFreeze] *)
  destruct (own_prop_evolves _ _ _ _ _ He Hp4) as (p5 & Hp5 & _ & Hv5 & _).
  simpl in Hv5. pose proof Hp5 as Hp5'. unfold own_prop in Hp5'. rewrite Hl5 in Hp5'.
  simpl in Hp5'.
  destruct (Hns Carrier._private) as (p5' & Hp5'' & Hen5 & Hfr5);
    [by eapply symbols_alist_lookup|].
  rewrite Hp5' in Hp5''. injection Hp5'' as <-.
  rewrite Hv5, Hv4 in Hfr5. simpl in Hfr5.
  (* in [h6], after the registration *)
  assert (forall l k, own_prop h6 l k = own_prop h5 l k) as Hsame
    by (intros; by eapply Set_add_own_prop).
  exists p5, (length h0). rewrite !Hsame.
  split; [done|]. split; [congruence|]. split; [done|].
  split; [by eapply Set_add_frozen|]. split.
  - destruct (own_prop_evolves _ _ _ _ _ He (eq_trans (Hpriv4 "app") eq_refl))
      as (pa & Hpa & _ & Hva & _).
    exists pa. done.
  - intros m Hm. rewrite Hsame.
    assert (is_Some (own_prop h4 (length h0) (KStr m))) as [pm Hpm].
    { rewrite Hpriv4. apply alist_lookup_key. simpl. rewrite Hkeys.
      do 2 (apply elem_of_cons; right). by apply list_elem_of_fmap_2. }
    destruct (own_prop_evolves _ _ _ _ _ He Hpm) as (pm' & -> & _). eauto.
Qed.

(** What a constructed [Carrier] or [TrackingInfo] holds is frozen too: the
    value of each enumerable string-keyed field (the arrays of services, of
    packages and of events, the [URL]) is frozen, a [Buffer] apart. *)
Theorem entity_fields_are_frozen
    (Ic : Carrier.Imports) (It : TrackingInfo.Imports)
    (pojo app : value) (h : heap) (this : loc) (h' : heap) :
  (Carrier.new Ic pojo app h = Ok this h' ->
   forall s p, own_prop h' this (KStr s) = Some p -> p_enumerable p = true ->
     buffer_valued h' (p_value p) = false -> value_frozen h' (p_value p) = true) /\
  (TrackingInfo.new It pojo app h = Ok this h' ->
   forall s p, own_prop h' this (KStr s) = Some p -> p_enumerable p = true ->
     buffer_valued h' (p_value p) = false -> value_frozen h' (p_value p) = true).
Proof.
  assert (forall l h0 u h1, hideAndFreeze l [] h0 = Ok u h1 ->
            forall s p, own_prop h1 l (KStr s) = Some p -> p_enumerable p = true ->
              buffer_valued h1 (p_value p) = false -> value_frozen h1 (p_value p) = true)
    as Hfrozen.
  { intros l h0 u h1 (_ & o & Hl & _ & Hes & _)%hideAndFreeze_Ok s p Hp Hen Hb.
    unfold own_prop in Hp. rewrite Hl in Hp. simpl in Hp.
    apply (Hes s); [by apply entries_alist_lookup | by intros ?%elem_of_nil | done]. }
  split.
  - unfold Carrier.new. intros Hnew.
    apply bind_Ok in Hnew as (this0 & h1 & [-> ->]%alloc_Ok & H).
    do 3 (apply bind_Ok in H as (? & ? & _ & H)).
    apply bind_Ok in H as (u3 & h5 & Hfr & H).
    apply bind_Ok in H as (u4 & h6 & (r & v & Hadd)%Carrier_register_Ok & [-> ->]%ret_Ok).
    intros s p. rewrite (Set_add_own_prop _ _ _ _ _ (length h) (KStr s) Hadd),
      (Set_add_buffer_valued _ _ _ _ _ (p_value p) Hadd).
    intros Hp Hen Hb. eapply Set_add_value_frozen; [exact Hadd|]. by eapply Hfrozen.
  - unfold TrackingInfo.new. intros Hnew.
    apply bind_Ok in Hnew as (this0 & h1 & [-> ->]%alloc_Ok & H).
    do 10 (apply bind_Ok in H as (? & ? & _ & H)).
    apply bind_Ok in H as (u3 & h5 & Hfr & [-> ->]%ret_Ok).
    by eapply Hfrozen.
Qed.

Ltac get_then_freeze_step H a hb He Hget Hfr :=
  let ha := fresh "ha" in let v := fresh "v" in
  apply bind_Ok in H as (a & ha & Hget & H);
  pose proof (Get_Ok _ _ _ _ _ Hget) as ->;
  apply bind_Ok in H as (v & hb & (_ & He & Hfr & _)%Object_freeze_Ok & H).

(** The six arrays of a constructed [DeliveryService] are frozen, as the
    service is: the value read from each of [originCountries],
    [destinationCountries], [packaging], [deliveryConfirmations],
    [labelFormats] and [labelSizes] is frozen. *)
Theorem DeliveryService_arrays_are_frozen
    (I : DeliveryService.Imports) (config : value) (h : heap) (this : loc) (h' : heap)
    (k : string) :
  DeliveryService.new I config h = Ok this h' ->
  k ∈ ["originCountries"; "destinationCountries"; "packaging";
       "deliveryConfirmations"; "labelFormats"; "labelSizes"] ->
  exists v, Get (VRef this) (KStr k) h' = Ok v h' /\ value_frozen h' v = true.
Proof.
  unfold DeliveryService.new. intros Hnew Hk.
  apply bind_Ok in Hnew as (this0 & h1 & [-> ->]%alloc_Ok & H).
  apply bind_Ok in H as (u1 & h2 & _ & H).
  apply bind_Ok in H as (u2 & h3 & Hfreeze & [-> ->]%ret_Ok).
  unfold DeliveryService.freeze_all in Hfreeze.
  apply bind_Ok in Hfreeze as (v0 & g0 & _ & H).
  get_then_freeze_step H a1 g1 He1 Hg1 Hf1. get_then_freeze_step H a2 g2 He2 Hg2 Hf2.
  get_then_freeze_step H a3 g3 He3 Hg3 Hf3. get_then_freeze_step H a4 g4 He4 Hg4 Hf4.
  get_then_freeze_step H a5 g5 He5 Hg5 Hf5. get_then_freeze_step H a6 g6 He6 Hg6 Hf6.
  apply ret_Ok in H as [_ ->].
  assert (forall ha hb a key, heap_evolves ha g6 -> heap_evolves hb g6 ->
            value_frozen hb a = true ->
            Get (VRef (length h)) (KStr key) ha = Ok a ha ->
            exists v, Get (VRef (length h)) (KStr key) g6 = Ok v g6 /\
                      value_frozen g6 v = true) as Hstep.
  { intros ha hb a key Hea Heb Hfr Hget. exists a. split.
    - eapply Get_evolves; [exact Hea | exact Hget].
    - eapply value_frozen_evolves; [exact Heb | exact Hfr]. }
  repeat (apply elem_of_cons in Hk as [-> | Hk]); [..|by apply elem_of_nil in Hk].
  - eapply (Hstep g0 g1); [| |exact Hf1|exact Hg1];
      repeat (etrans; [eassumption|]); reflexivity.
  - eapply (Hstep g1 g2); [| |exact Hf2|exact Hg2];
      repeat (etrans; [eassumption|]); reflexivity.
  - eapply (Hstep g2 g3); [| |exact Hf3|exact Hg3];
      repeat (etrans; [eassumption|]); reflexivity.
  - eapply (Hstep g3 g4); [| |exact Hf4|exact Hg4];
      repeat (etrans; [eassumption|]); reflexivity.
  - eapply (Hstep g4 g5); [| |exact Hf5|exact Hg5];
      repeat (etrans; [eassumption|]); reflexivity.
  - eapply (Hstep g5 g6); [| |exact Hf6|exact Hg6];
      repeat (etrans; [eassumption|]); reflexivity.
Qed.

(** When the POJO a [Carrier] is built from implements a user-defined
    method [m] (the field holds a truthy value [f]), the constructor sets no
    own field [m] on the carrier, so that reading [m] on it gives what
    [Carrier.prototype] has, the wrapper; and the private fields hold [f]
    under [m].  The imported constructors are taken to change no field of
    the objects that exist when they are called. *)
Theorem implemented_method_is_kept
    (I : Carrier.Imports) (pojo app : value) (h : heap) (this : loc) (h' : heap)
    (m : string) (f : value) :
  Carrier.frame_respecting I ->
  Carrier.new I pojo app h = Ok this h' ->
  m ∈ Carrier.user_methods ->
  Get pojo (KStr m) h = Ok f h ->
  truthy f = true ->
  own_prop h' this (KStr m) = None /\
  (forall proto, Carrier.prototype I = Some proto -> proto < length h ->
     Get (VRef this) (KStr m) h' = Get (VRef proto) (KStr m) h') /\
  exists p private pm,
    own_prop h' this (KSym Carrier._private) = Some p /\ p_value p = VRef private /\
    own_prop h' private (KStr m) = Some pm /\ p_value pm = f.
Proof.
  intros Hframe Hnew Hin Hget Htruthy. unfold Carrier.new in Hnew.
  apply bind_Ok in Hnew as (this0 & h1 & [-> ->]%alloc_Ok & H).
  apply bind_Ok in H as (u1 & h2 & Hassign & H).
  apply bind_Ok in H as (private & h3 & Hprivate & H).
  apply bind_Ok in H as (u2 & h4 & Hset & H).
  apply bind_Ok in H as (u3 & h5 & [He _]%hideAndFreeze_Ok & H).
  apply bind_Ok in H as (u4 & h6 & (r & v & Hadd)%Carrier_register_Ok & [-> ->]%ret_Ok).
  set (h1 := h ++ [Obj KOrdinary (Carrier.prototype I) true []]) in *.
  (* the objects that were there keep their fields *)
  assert (preserved (length h) h h2) as Hpres2.
  { eapply preserved_trans; [apply preserved_alloc|].
    eapply keeps_assign_fields; [exact Hframe| |exact Hassign]. done. }
  assert (preserved (length h) h h3) as Hpres3.
  { eapply preserved_trans; [exact Hpres2|].
    eapply keeps_private_fields; [exact Hframe| |exact Hprivate]. done. }
  assert (preserved (length h) h h6) as Hpres6.
  { eapply preserved_trans; [exact Hpres3|].
    eapply preserved_trans; [eapply preserved_Set; [|exact Hset]; done|].
    eapply preserved_trans; [by apply preserved_evolves|].
    by eapply preserved_Set_add. }
  (* the carrier gets no field [m] *)
  assert (inherits h1 (length h) (Carrier.prototype I) (KStr m)) as Hinh.
  { eexists. split; [apply list_lookup_middle; done | done]. }
  eapply leaves_assign_fields in Hinh; [|exact Hframe|exact Hin|exact Hassign].
  pose proof Hprivate as Hprivate'. unfold Carrier.private_fields in Hprivate'.
  apply bind_Ok in Hprivate' as (x & ha & ->%Get_Ok & Hp).
  apply bind_Ok in Hp as (x' & hb & Hx' & Hp).
  apply bind_Ok in Hp as (localization & hc & Hloc & Hp).
  apply bind_Ok in Hp as (methods & hd & Hslots & [-> ->]%alloc_Ok).
  assert (preserved (length h) h hb /\ inherits hb (length h) (Carrier.prototype I) (KStr m))
    as [Hpresb Hinhb].
  { destruct (truthy x).
    - by apply ret_Ok in Hx' as [_ ->].
    - apply bind_Ok in Hx' as (e & he & [-> ->]%alloc_Ok & [_ ->]%ret_Ok).
      split; [|by apply inherits_alloc].
      eapply preserved_trans; [exact Hpres2 | apply preserved_alloc]. }
  destruct Hframe as (_ & _ & _ & HL).
  assert (preserved (length h) h hc) as Hpresc.
  { eapply preserved_trans; [exact Hpresb|]. eapply heap_grows_preserved, HL, Hloc. }
  eapply inherits_grows in Hinhb; [|eapply HL, Hloc].
  pose proof (method_slots_implemented _ _ _ _ _ _ _ _ _ Hget Htruthy (le_n _) Hpresc Hin Hslots)
    as Hslot.
  eapply method_slots_inherits in Hinhb; [|exact Hget|exact Htruthy|done|exact Hpresc|exact Hslots].
  apply (inherits_alloc _ (Obj KOrdinary None true
           ((KStr "app", data_prop app)
              :: (KStr "localization", data_prop localization) :: methods))) in Hinhb.
  eapply inherits_Set in Hinhb; [|exact Hset|by right].
  eapply inherits_evolves in Hinhb; [|exact He].
  eapply inherits_Set_add in Hinhb; [|exact Hadd].
  split; [by eapply inherits_own_prop|]. split.
  - intros proto Hproto Hlt. destruct Hinhb as (o & Hl & Hp & Hk).
    assert (is_Some (h6 !! proto)) as Hthere.
    { destruct (lookup_lt_is_Some_2 h proto Hlt) as [op Hop].
      destruct (Hpres6 proto op Hlt Hop) as (op' & -> & _). eauto. }
    rewrite !Get_ref by eauto. f_equal.
    rewrite (lookup_field_inherited _ _ _ proto _ Hl Hk); [done|congruence|done].
  - (* the private fields *)
    destruct (Set_own _ _ _ _ _ _ Hset) as (p4 & Hp4 & Hv4).
    destruct (own_prop_evolves _ _ _ _ _ He Hp4) as (p5 & Hp5 & _ & Hv5 & _).
    simpl in Hv5.
    assert (own_prop h4 (length hd) (KStr m) = Some (data_prop f)) as Hm4.
    { rewrite (Set_other _ _ _ _ _ _ (length hd) (KStr m) Hset) by (by right).
      unfold own_prop. rewrite list_lookup_middle by done. simpl.
      assert (KStr m ≠ KStr "app" /\ KStr m ≠ KStr "localization") as [? ?].
      { apply list_elem_of_In in Hin. unfold Carrier.user_methods in Hin. simpl in Hin.
        split; intros [= ->]; intuition congruence. }
      by rewrite !decide_False. }
    destruct (own_prop_evolves _ _ _ _ _ He Hm4) as (pm & Hpm & _ & Hvm & _).
    simpl in Hvm.
    assert (forall l k, own_prop h6 l k = own_prop h5 l k) as Hsame
      by (intros; by eapply Set_add_own_prop).
    exists p5, (length hd), pm. rewrite !Hsame.
    repeat split; congruence.
Qed.

(** *** The theorems at work on a concrete carrier *)

(** The private fields of the carrier built at 8 are the object at 14. *)
Lemma Carrier_private_fields_are_hidden_witness :
  exists p private,
    own_prop carrier_heap_built 8 (KSym Carrier._private) = Some p /\
    p_value p = VRef private /\ p_enumerable p = false /\
    is_frozen carrier_heap_built private = true /\
    (exists pa, own_prop carrier_heap_built private (KStr "app") = Some pa /\
                p_value pa = VRef 5) /\
    (forall m, m ∈ Carrier.user_methods ->
               is_Some (own_prop carrier_heap_built private (KStr m))).
Proof.
  apply (Carrier_private_fields_are_hidden carrier_imports (VRef 3) (VRef 5) carrier_heap).
  vm_compute. reflexivity.
Defined.

Lemma entity_fields_are_frozen_witness :
  exists p, own_prop carrier_heap_built 8 (KStr "deliveryServices") = Some p /\
            value_frozen carrier_heap_built (p_value p) = true.
Proof.
  eexists. split; [vm_compute; reflexivity|].
  apply (proj1 (entity_fields_are_frozen carrier_imports
                  (TrackingInfo.Build_Imports
                     (fun _ _ => ret tt) ret (fun x _ => ret x) ret None)
                  (VRef 3) (VRef 5) carrier_heap 8 carrier_heap_built)
           ltac:(vm_compute; reflexivity) "deliveryServices");
    vm_compute; reflexivity.
Defined.

Lemma DeliveryService_arrays_are_frozen_witness :
  exists v, Get (VRef 4) (KStr "packaging") service_heap_built = Ok v service_heap_built /\
            value_frozen service_heap_built v = true.
Proof.
  apply (DeliveryService_arrays_are_frozen service_imports (VRef 0) service_heap).
  - vm_compute. reflexivity.
  - do 2 (apply elem_of_cons; right). apply elem_of_cons. by left.
Defined.

Lemma implemented_method_is_kept_witness :
  own_prop carrier_heap_built 8 (KStr "getRates") = None /\
  (forall proto, Carrier.prototype carrier_imports = Some proto ->
     proto < length carrier_heap ->
     Get (VRef 8) (KStr "getRates") carrier_heap_built =
     Get (VRef proto) (KStr "getRates") carrier_heap_built) /\
  exists p private pm,
    own_prop carrier_heap_built 8 (KSym Carrier._private) = Some p /\
    p_value p = VRef private /\
    own_prop carrier_heap_built private (KStr "getRates") = Some pm /\
    p_value pm = VRef 2.
Proof.
  apply (implemented_method_is_kept carrier_imports (VRef 3) (VRef 5) carrier_heap 8
           carrier_heap_built "getRates" (VRef 2)
           ConstructorTheorems.carrier_imports_frame).
  - vm_compute. reflexivity.
  - unfold Carrier.user_methods. do 4 (apply elem_of_cons; right). apply elem_of_cons. by left.
  - vm_compute. reflexivity.
  - reflexivity.
Defined.

End ConstructorOutcomes.


(** ** Facts about sets kept in insertion order *)

Module CollectionFacts.
Import Collections.

Section Collections.
Context {A : Type} `{EqDecision A}.
Implicit Types (x : A) (members xs : list A).

Lemma elem_of_add members x y : y ∈ add members x <-> y ∈ members \/ y = x.
Proof.
  unfold add. case_decide as Hin.
  - split; [auto|]. by intros [?| ->].
  - rewrite elem_of_app, list_elem_of_singleton. done.
Qed.

Lemma NoDup_add members x : NoDup members -> NoDup (add members x).
Proof.
  intros Hnd. unfold add. case_decide as Hin; [done|].
  apply NoDup_app. split; [done|]. split; [|apply NoDup_singleton].
  intros y Hy ->%list_elem_of_singleton. done.
Qed.

Lemma elem_of_add_each members xs y :
  y ∈ add_each members xs <-> y ∈ members \/ y ∈ xs.
Proof.
  revert members. induction xs as [|x xs IH]; intros members; simpl.
  - split; [auto|]. by intros [?|?%elem_of_nil].
  - rewrite IH, elem_of_add, elem_of_cons. tauto.
Qed.

Lemma NoDup_add_each members xs : NoDup members -> NoDup (add_each members xs).
Proof.
  revert members. induction xs as [|x xs IH]; intros members Hnd; simpl; [done|].
  by apply IH, NoDup_add.
Qed.

(** The members that were there stay first, in their order; what is added
    follows in the order of [xs]. *)
Lemma add_each_sublist members xs :
  exists ys, add_each members xs = members ++ ys /\ sublist ys xs.
Proof.
  revert members. induction xs as [|x xs IH]; intros members; simpl.
  - exists []. by rewrite app_nil_r.
  - destruct (IH (add members x)) as (ys & -> & Hsub). unfold add. case_decide.
    + exists ys. split; [done|]. by apply sublist_cons.
    + exists (x :: ys). rewrite <- app_assoc. split; [done|]. by apply sublist_skip.
Qed.

Lemma filter_ext_elem_of (P1 P2 : A -> Prop) `{!forall x, Decision (P1 x)}
    `{!forall x, Decision (P2 x)} xs :
  (forall x, x ∈ xs -> P1 x <-> P2 x) -> filter P1 xs = filter P2 xs.
Proof.
  induction xs as [|x xs IH]; intros Hiff; [done|].
  rewrite !filter_cons, IH by (intros; apply Hiff, elem_of_cons; by right).
  assert (P1 x <-> P2 x) as Hx by (apply Hiff, elem_of_cons; by left).
  destruct (decide (P1 x)), (decide (P2 x)); tauto.
Qed.

(** Adding values that are all different appends the new ones. *)
Lemma add_each_NoDup members xs :
  NoDup xs -> add_each members xs = members ++ filter (.∉ members) xs.
Proof.
  revert members. induction xs as [|x xs IH]; intros members Hnd; simpl.
  - by rewrite app_nil_r.
  - apply NoDup_cons in Hnd as [Hx Hnd]. rewrite IH by done. unfold add.
    rewrite filter_cons. case_decide as Hin.
    + by rewrite decide_False by (by intros ?).
    + rewrite decide_True by done. rewrite <- app_assoc. simpl. do 2 f_equal.
      apply filter_ext_elem_of. intros y Hy.
      rewrite elem_of_app, list_elem_of_singleton.
      split; [tauto|]. intros Hm [?| ->]; done.
Qed.

Lemma add_each_nil xs : NoDup xs -> add_each [] xs = xs.
Proof.
  intros Hnd. rewrite add_each_NoDup by done. simpl.
  clear Hnd. induction xs as [|x xs IH]; [done|].
  rewrite filter_cons, decide_True by (by intros ?%elem_of_nil). by rewrite IH.
Qed.

Lemma add_each_app members xs ys :
  add_each members (xs ++ ys) = add_each (add_each members xs) ys.
Proof. revert members. induction xs as [|x xs IH]; intros members; simpl; [done | apply IH]. Qed.

End Collections.

End CollectionFacts.

(** ** Properties of the helper properties *)

Module GetterTheorems.
Import Collections CollectionFacts MoreExamples.

Section CarrierGetters.
Context {URL DeliveryService PickupService Localization App UserMethod : Type}.
Context {Packaging DeliveryConfirmation : Type}.
Context `{EqDecision Packaging, EqDecision DeliveryConfirmation}.
Variable svc_labelFormats : DeliveryService -> list string.
Variable svc_labelSizes : DeliveryService -> list string.
Variable svc_originCountries : DeliveryService -> list string.
Variable svc_destinationCountries : DeliveryService -> list string.
Variable svc_packaging : DeliveryService -> list Packaging.
Variable svc_deliveryConfirmations : DeliveryService -> list DeliveryConfirmation.

Abbreviation Carrier :=
  (@CarrierData.Carrier URL DeliveryService PickupService Localization App UserMethod)
  (only parsing).

Lemma elem_of_gather {B} `{EqDecision B} (field : DeliveryService -> list B)
    (members : list B) (services : list DeliveryService) (x : B) :
  x ∈ CarrierGetters.gather field members services <->
  x ∈ members \/ exists service, service ∈ services /\ x ∈ field service.
Proof.
  revert members. induction services as [|service rest IH]; intros members; simpl.
  - split; [auto|]. intros [?|(? & ?%elem_of_nil & _)]; done.
  - rewrite IH, elem_of_add_each. split.
    + intros [[?|?]|(svc & ? & ?)]; [by left| |].
      * right. exists service. split; [apply elem_of_cons; by left | done].
      * right. exists svc. split; [apply elem_of_cons; by right | done].
    + intros [?|(svc & [->|?]%elem_of_cons & ?)]; [by left; left | by left; right |].
      right. eauto.
Qed.

Lemma NoDup_gather {B} `{EqDecision B} (field : DeliveryService -> list B)
    (members : list B) (services : list DeliveryService) :
  NoDup members -> NoDup (CarrierGetters.gather field members services).
Proof.
  revert members. induction services as [|service rest IH]; intros members Hnd; simpl;
    [done|]. by apply IH, NoDup_add_each.
Qed.

Lemma gather_gathers {B} `{EqDecision B} (field : DeliveryService -> list B)
    (this : Carrier) :
  CarrierGetters.gathers
    (CarrierGetters.gather field [] (CarrierData.deliveryServices this)) field this.
Proof.
  split; [apply NoDup_gather, NoDup_nil_2|].
  intros x. rewrite elem_of_gather. split; [|by right].
  by intros [?%elem_of_nil|?].
Qed.

(** The getters [labelFormats], [labelSizes], [originCountries],
    [destinationCountries], [packaging] and [deliveryConfirmations] of a
    carrier return a list without duplicates, whose members are exactly the
    values that some delivery service of the carrier has in its field of
    that name. *)
Theorem carrier_lists_gather_the_services (this : Carrier) :
  CarrierGetters.gathers (CarrierGetters.labelFormats svc_labelFormats this)
    svc_labelFormats this /\
  CarrierGetters.gathers (CarrierGetters.labelSizes svc_labelSizes this)
    svc_labelSizes this /\
  CarrierGetters.gathers (CarrierGetters.originCountries svc_originCountries this)
    svc_originCountries this /\
  CarrierGetters.gathers (CarrierGetters.destinationCountries svc_destinationCountries this)
    svc_destinationCountries this /\
  CarrierGetters.gathers (CarrierGetters.packaging svc_packaging this)
    svc_packaging this /\
  CarrierGetters.gathers (CarrierGetters.deliveryConfirmations svc_deliveryConfirmations this)
    svc_deliveryConfirmations this.
Proof. repeat split; apply gather_gathers. Qed.

(** The getter [countries] of a carrier lists its origin countries first,
    as [originCountries] gives them, then the destination countries that
    are not origin countries, in the order of [destinationCountries]; no
    country is listed twice. *)
Theorem carrier_countries_list_origins_first (this : Carrier) :
  CarrierGetters.countries svc_originCountries svc_destinationCountries this =
  CarrierGetters.originCountries svc_originCountries this ++
  filter (.∉ CarrierGetters.originCountries svc_originCountries this)
         (CarrierGetters.destinationCountries svc_destinationCountries this) /\
  NoDup (CarrierGetters.countries svc_originCountries svc_destinationCountries this).
Proof.
  split; [|apply NoDup_add_each, NoDup_nil_2].
  unfold CarrierGetters.countries.
  assert (NoDup (CarrierGetters.originCountries svc_originCountries this)) as Ho
    by apply NoDup_gather, NoDup_nil_2.
  assert (NoDup (CarrierGetters.destinationCountries svc_destinationCountries this)) as Hd
    by apply NoDup_gather, NoDup_nil_2.
  set (os := CarrierGetters.originCountries svc_originCountries this) in *.
  set (ds := CarrierGetters.destinationCountries svc_destinationCountries this) in *.
  rewrite add_each_app, (add_each_nil os Ho). by apply add_each_NoDup.
Qed.

End CarrierGetters.

Section DeliveryServiceGetters.
Context {Packaging DeliveryConfirmation Carrier : Type}.

(** The getter [countries] of a delivery service lists each country that
    the service ships from or to once: it has no duplicates, its members
    are the members of [originCountries] and of [destinationCountries], and
    they come in the order of the two lists, origins first. *)
Theorem service_countries_are_unique
    (this : @DeliveryService.t Packaging DeliveryConfirmation Carrier) :
  NoDup (DeliveryServiceGetters.countries this) /\
  (forall c, c ∈ DeliveryServiceGetters.countries this <->
             c ∈ DeliveryService.originCountries this \/
             c ∈ DeliveryService.destinationCountries this) /\
  sublist (DeliveryServiceGetters.countries this)
          (DeliveryService.originCountries this ++ DeliveryService.destinationCountries this).
Proof.
  unfold DeliveryServiceGetters.countries. split; [apply NoDup_add_each, NoDup_nil_2|].
  split.
  - intros c. rewrite elem_of_add_each, elem_of_app. split; [|tauto].
    by intros [?%elem_of_nil|?].
  - destruct (add_each_sublist [] (DeliveryService.originCountries this
                                     ++ DeliveryService.destinationCountries this))
      as (ys & -> & Hsub). done.
Qed.

End DeliveryServiceGetters.

End GetterTheorems.


(** ** Properties of [createNotes] *)

Module UtilsNotesTheorems.
Import UtilsNotes.

Section CreateNotes.
Context {NotePOJO Note : Type}.
Variable new_Note : string + NotePOJO -> option Note.

(** [createNotes] gives no note for [undefined] and for the empty string,
    which it does not turn into a note; a string that is not empty counts as
    the array that holds it; and an array gives one [Note] for each of its
    elements, in order, built from that element (or the call throws, when
    some constructor does). *)
Theorem createNotes_normalizes (s : string) (xs : list (string + NotePOJO)) :
  createNotes new_Note NotesUndefined = Some [] /\
  createNotes new_Note (NotesString "") = Some [] /\
  (s ≠ "" ->
   createNotes new_Note (NotesString s) = createNotes new_Note (NotesArray [inl s])) /\
  (forall ns, createNotes new_Note (NotesArray xs) = Some ns <->
              Forall2 (fun x n => new_Note x = Some n) xs ns).
Proof.
  repeat split; try done.
  - intros Hs. unfold createNotes. simpl.
    destruct (String.eqb s "") eqn:E; [|done]. by apply String.eqb_eq in E.
  - intros Hnotes. by apply mapM_Some.
  - intros HF. by apply mapM_Some.
Qed.

End CreateNotes.

(** A string that is not empty, as an argument. *)
Lemma createNotes_normalizes_witness :
  createNotes (NotePOJO:=string) Some (NotesString "fragile") =
  createNotes Some (NotesArray [inl "fragile"]).
Proof.
  apply (proj1 (proj2 (proj2 (createNotes_normalizes (NotePOJO:=string) Some "fragile" [])))).
  discriminate.
Defined.

(** A note is built from a string that has no more than ten characters. *)
Example createNotes_examples :
  let new_Note (x : string + string) :=
    match x with
    | inl s | inr s => if decide (String.length s <= 10) then Some s else None
    end in
  createNotes new_Note (NotesString "fragile") = Some ["fragile"] /\
  createNotes new_Note (NotesString "") = Some [] /\
  createNotes new_Note (NotesArray []) = Some [] /\
  createNotes new_Note (NotesArray [inl "fragile"; inr "keep dry"]) =
    Some ["fragile"; "keep dry"] /\
  createNotes new_Note (NotesArray [inl "fragile"; inl "leave at the back door"]) = None.
Proof. repeat split. Qed.

End UtilsNotesTheorems.


(** ** Facts about matching *)

Module PatternFacts.
Import Stdlib.Strings.Ascii.
Import Patterns.

(** *** Strings *)

Lemma append_nil_l (s : string) : "" +:+ s = s.
Proof. reflexivity. Qed.

Lemma append_cons c (s1 s2 : string) : String c s1 +:+ s2 = String c (s1 +:+ s2).
Proof. reflexivity. Qed.

Lemma append_nil_r (s : string) : s +:+ "" = s.
Proof. induction s as [|c s IH]; [done|]. by rewrite append_cons, IH. Qed.

Lemma append_assoc (s1 s2 s3 : string) : (s1 +:+ s2) +:+ s3 = s1 +:+ (s2 +:+ s3).
Proof. induction s1 as [|c s1 IH]; [done|]. by rewrite !append_cons, IH. Qed.

Lemma append_eq_nil (s1 s2 : string) : s1 +:+ s2 = "" -> s1 = "" /\ s2 = "".
Proof. destruct s1; [done|]. by rewrite append_cons. Qed.

Lemma append_eq_cons (s1 s2 : string) c s :
  s1 +:+ s2 = String c s ->
  (s1 = "" /\ s2 = String c s) \/ exists s1', s1 = String c s1' /\ s = s1' +:+ s2.
Proof.
  destruct s1 as [|c1 s1]; [by left|]. rewrite append_cons. intros [= -> <-]. right. eauto.
Qed.

(** *** The matcher decides the language *)

Lemma nullable_spec r : nullable r = true <-> lang r "".
Proof.
  split.
  - induction r; simpl; try done.
    + constructor.
    + intros [?|?]%orb_true_iff; [apply lang_Alt_l | apply lang_Alt_r]; auto.
    + intros [? ?]%andb_true_iff. apply (lang_Seq _ _ "" ""); auto.
    + constructor.
  - intros H. remember EmptyString as s eqn:E. induction H; simpl; try done.
    + by rewrite IHlang.
    + rewrite IHlang by done. apply orb_true_r.
    + apply append_eq_nil in E as [-> ->]. by rewrite IHlang1, IHlang2.
Qed.

Lemma deriv_sound c r s : lang (deriv c r) s -> lang r (String c s).
Proof.
  revert s. induction r as [| | c' | items | r1 IH1 r2 IH2 | r1 IH1 r2 IH2 | r1 IH1];
    intros s; simpl.
  - inversion 1.
  - inversion 1.
  - destruct (Ascii.eqb_spec c c') as [->|]; inversion 1. constructor.
  - destruct (in_class items c) eqn:E; inversion 1. by constructor.
  - inversion 1; subst; [apply lang_Alt_l | apply lang_Alt_r]; auto.
  - assert (forall s0, lang (Seq (deriv c r1) r2) s0 -> lang (Seq r1 r2) (String c s0))
      as Hseq.
    { intros s0 H. inversion H; subst.
      apply (lang_Seq r1 r2 (String c s1) s2); auto. }
    destruct (nullable r1) eqn:E; [|by apply Hseq].
    inversion 1; subst; [by apply Hseq|].
    apply (lang_Seq r1 r2 "" (String c s)); [by apply nullable_spec | auto].
  - inversion 1; subst. apply (lang_Star_cons r1 (String c s1) s2); auto.
Qed.

Lemma deriv_complete c r s : lang r (String c s) -> lang (deriv c r) s.
Proof.
  intros H. remember (String c s) as s0 eqn:E. revert s E.
  induction H as [| c' | items c' Hin | r1 r2 s0 H IH | r1 r2 s0 H IH
                  | r1 r2 s1 s2 H1 IH1 H2 IH2 | r1 | r1 s1 s2 H1 IH1 H2 IH2];
    intros s E; simpl.
  - done.
  - injection E as -> <-. rewrite Ascii.eqb_refl. constructor.
  - injection E as -> <-. rewrite Hin. constructor.
  - apply lang_Alt_l. auto.
  - apply lang_Alt_r. auto.
  - apply append_eq_cons in E as [[-> ->] | (s1' & -> & ->)].
    + apply nullable_spec in H1. rewrite H1. apply lang_Alt_r. auto.
    + assert (lang (Seq (deriv c r1) r2) (s1' +:+ s2)) as Hseq
        by (apply lang_Seq; auto).
      destruct (nullable r1); [by apply lang_Alt_l | done].
  - done.
  - apply append_eq_cons in E as [[-> ->] | (s1' & -> & ->)].
    + by apply IH2.
    + apply lang_Seq; auto.
Qed.

Lemma matches_spec r s : matches r s = true <-> lang r s.
Proof.
  revert r. induction s as [|c s IH]; intros r; simpl.
  - apply nullable_spec.
  - rewrite IH. split; [apply deriv_sound | apply deriv_complete].
Qed.

Lemma matches_prefix_spec r s :
  matches_prefix r s = true <-> exists s1 s2, s = s1 +:+ s2 /\ lang r s1.
Proof.
  revert r. induction s as [|c s IH]; intros r; simpl.
  - rewrite orb_false_r, nullable_spec. split.
    + intros H. by exists "", "".
    + intros (s1 & s2 & [-> ->]%eq_sym%append_eq_nil & H). done.
  - rewrite orb_true_iff, IH, nullable_spec. split.
    + intros [H | (s1 & s2 & -> & H)].
      * by exists "", (String c s).
      * exists (String c s1), s2. split; [done | by apply deriv_sound].
    + intros (s1 & s2 & E & H).
      symmetry in E. apply append_eq_cons in E as [[-> ->] | (s1' & -> & ->)]; [by left|].
      right. exists s1', s2. split; [done | by apply deriv_complete].
Qed.

(** *** The language, by cases *)

Lemma lang_Eps_iff s : lang Eps s <-> s = "".
Proof. split; [by inversion 1 | intros ->; constructor]. Qed.

Lemma lang_Chr_iff c s : lang (Chr c) s <-> s = String c "".
Proof. split; [by inversion 1 | intros ->; constructor]. Qed.

Lemma lang_Class_iff items s :
  lang (Class items) s <-> exists c, s = String c "" /\ in_class items c = true.
Proof.
  split; [inversion 1; eauto | intros (c & -> & ?); by constructor].
Qed.

Lemma lang_Alt_iff r1 r2 s : lang (Alt r1 r2) s <-> lang r1 s \/ lang r2 s.
Proof.
  split; [inversion 1; auto | intros [?|?]; [apply lang_Alt_l | apply lang_Alt_r]; done].
Qed.

Lemma lang_Seq_iff r1 r2 s :
  lang (Seq r1 r2) s <-> exists s1 s2, s = s1 +:+ s2 /\ lang r1 s1 /\ lang r2 s2.
Proof.
  split; [inversion 1; eauto | intros (s1 & s2 & -> & ? & ?); by constructor].
Qed.

Lemma lang_Opt_iff r s : lang (Opt r) s <-> lang r s \/ s = "".
Proof. unfold Opt. by rewrite lang_Alt_iff, lang_Eps_iff. Qed.

(** A character, then the rest. *)
Lemma lang_Chr_Seq_iff c r s :
  lang (Seq (Chr c) r) s <-> exists s', s = String c s' /\ lang r s'.
Proof.
  rewrite lang_Seq_iff. split.
  - intros (s1 & s2 & -> & ->%lang_Chr_iff & ?). eauto.
  - intros (s' & -> & ?). exists (String c ""), s'. split; [done|].
    split; [constructor | done].
Qed.

Lemma lang_Class_Seq_iff items r s :
  lang (Seq (Class items) r) s <->
  exists c s', s = String c s' /\ in_class items c = true /\ lang r s'.
Proof.
  rewrite lang_Seq_iff. split.
  - intros (s1 & s2 & -> & (c & -> & ?)%lang_Class_iff & ?). eauto.
  - intros (c & s' & -> & ? & ?). exists (String c ""), s'. split; [done|].
    split; [by constructor | done].
Qed.

Lemma lang_Lit_iff x s : lang (Lit x) s <-> s = x.
Proof.
  revert s. induction x as [|c x IH]; intros s; [apply lang_Eps_iff|].
  destruct x as [|c' x]; [apply lang_Chr_iff|].
  change (Lit (String c (String c' x))) with (Seq (Chr c) (Lit (String c' x))).
  rewrite lang_Chr_Seq_iff. split.
  - intros (s' & -> & ->%IH). done.
  - intros ->. eexists. split; [done|]. by apply IH.
Qed.

(** *** Strings of digits *)

Lemma lang_Star_digit s : lang (Star digit) s <-> all_digits s = true.
Proof.
  split.
  - intros H. remember (Star digit) as r eqn:E.
    induction H as [| | | | | | |r s1 s2 H1 _ H2 IH2]; try done.
    injection E as ->. apply lang_Class_iff in H1 as (c & -> & Hc).
    simpl. unfold is_digit. rewrite Hc. by apply IH2.
  - induction s as [|c s IH]; simpl; [constructor|].
    intros [Hc Hs]%andb_true_iff.
    apply (lang_Star_cons digit (String c "") s); [by constructor | auto].
Qed.

Lemma lang_Plus_digit s : lang (Plus digit) s <-> number s = true.
Proof.
  unfold Plus, digit. rewrite lang_Class_Seq_iff. split.
  - intros (c & s' & -> & Hc & Hs%lang_Star_digit). simpl. unfold is_digit.
    by rewrite Hc.
  - destruct s as [|c s]; simpl; [done|]. intros [Hc Hs]%andb_true_iff.
    exists c, s. by rewrite lang_Star_digit.
Qed.

Lemma all_digits_app s1 s2 :
  all_digits (s1 +:+ s2) = all_digits s1 && all_digits s2.
Proof. induction s1 as [|c s1 IH]; simpl; [done|]. by rewrite IH, andb_assoc. Qed.

(** *** Character classes *)

Lemma in_range_iff lo hi c :
  in_class [FromTo lo hi] c = true <->
  nat_of_ascii lo <= nat_of_ascii c <= nat_of_ascii hi.
Proof.
  unfold in_class. simpl. rewrite orb_false_r, andb_true_iff, !Nat.leb_le. done.
Qed.

Lemma in_two_iff c1 c2 c : in_class [One c1; One c2] c = true <-> c = c1 \/ c = c2.
Proof.
  unfold in_class. simpl. rewrite orb_false_r, orb_true_iff, !Ascii.eqb_eq. done.
Qed.

Lemma ascii_of_code c n : nat_of_ascii c = n -> c = ascii_of_nat n.
Proof. intros <-. by rewrite ascii_nat_embedding. Qed.

End PatternFacts.


(** ** Facts about the patterns *)

Module PatternShapes.
Import Stdlib.Strings.Ascii.
Import Patterns PatternFacts.

Ltac codes :=
  change (nat_of_ascii "0") with 48 in *; change (nat_of_ascii "1") with 49 in *;
  change (nat_of_ascii "2") with 50 in *; change (nat_of_ascii "3") with 51 in *;
  change (nat_of_ascii "5") with 53 in *; change (nat_of_ascii "9") with 57 in *.

Ltac flatten :=
  repeat (rewrite append_assoc || rewrite append_cons || rewrite append_nil_l).

(** Two characters of a class. *)
Lemma lang_Repeat_2_Class items s :
  lang (Repeat 2 (Class items)) s <->
  exists a b, s = String a (String b "") /\ in_class items a = true /\
              in_class items b = true.
Proof.
  change (Repeat 2 (Class items)) with (Seq (Class items) (Class items)).
  rewrite lang_Class_Seq_iff. split.
  - intros (a & s' & -> & Ha & (b & -> & Hb)%lang_Class_iff). eauto.
  - intros (a & b & -> & Ha & Hb). exists a, (String b ""). by rewrite lang_Class_iff; eauto.
Qed.

Lemma lang_utcOffset s : lang (body utcOffset) s <-> offset_shape s.
Proof.
  unfold utcOffset, offset_shape, sign, is_digit, digit_value. cbn [body]. split.
  - intros (sg & s1 & -> & Hsg%in_two_iff & H)%lang_Class_Seq_iff.
    apply lang_Seq_iff in H as (hh & rest & -> & Hhh & Hrest).
    apply lang_Chr_Seq_iff in Hrest as (mm & -> & Hmm).
    apply lang_Class_Seq_iff in Hmm
      as (m1 & x & -> & Hm1 & (m2 & -> & Hm2)%lang_Class_iff).
    assert (exists h1 h2, hh = String h1 (String h2 "") /\
              in_class [FromTo "0" "9"] h1 = true /\ in_class [FromTo "0" "9"] h2 = true /\
              10 * (nat_of_ascii h1 - 48) + (nat_of_ascii h2 - 48) < 24)
      as (h1 & h2 & -> & Hh1 & Hh2 & Hh).
    { apply lang_Alt_iff in Hhh as [Hhh | Hhh].
      - apply lang_Class_Seq_iff in Hhh
          as (h1 & x & -> & Hh1%in_two_iff & (h2 & -> & Hh2)%lang_Class_iff).
        exists h1, h2. split; [done|]. rewrite in_range_iff in Hh2. codes.
        destruct Hh1 as [-> | ->]; rewrite !in_range_iff; codes; lia.
      - apply lang_Chr_Seq_iff in Hhh as (x & -> & (h2 & -> & Hh2)%lang_Class_iff).
        exists "2"%char, h2. split; [done|]. rewrite in_range_iff in Hh2. codes.
        rewrite !in_range_iff. codes. lia. }
    exists sg, h1, h2, m1, m2. rewrite in_range_iff in Hh1, Hh2, Hm1, Hm2. codes.
    rewrite !in_range_iff. codes. repeat split; try done; lia.
  - intros (sg & h1 & h2 & m1 & m2 & -> & Hsg & Hh1 & Hh2 & Hm1 & Hm2 & Hh & Hm).
    rewrite in_range_iff in Hh1, Hh2, Hm1, Hm2. codes.
    apply lang_Class_Seq_iff. exists sg, (String h1 (String h2 (String ":" (String m1 (String m2 ""))))).
    split; [done|]. split; [by apply in_two_iff|].
    apply lang_Seq_iff. exists (String h1 (String h2 "")), (String ":" (String m1 (String m2 ""))).
    split; [done|]. split.
    + apply lang_Alt_iff. destruct (decide (nat_of_ascii h1 = 50)) as [E|E].
      * right. assert (nat_of_ascii h2 <= 51) as Hle by lia.
        apply ascii_of_code in E as ->. apply lang_Chr_Seq_iff.
        exists (String h2 ""). split; [done|]. apply lang_Class_iff. exists h2.
        split; [done|]. apply in_range_iff. codes. lia.
      * left. apply lang_Class_Seq_iff. exists h1, (String h2 ""). split; [done|]. split.
        -- apply in_two_iff. destruct (decide (nat_of_ascii h1 = 48)) as [E0|E0].
           ++ left. by apply ascii_of_code in E0.
           ++ right. assert (nat_of_ascii h1 = 49) as E1 by lia. by apply ascii_of_code in E1.
        -- apply lang_Class_iff. exists h2. split; [done|]. apply in_range_iff. codes. lia.
    + apply lang_Chr_Seq_iff. eexists. split; [done|].
      apply lang_Class_Seq_iff. exists m1, (String m2 ""). split; [done|]. split.
      * apply in_range_iff. codes. lia.
      * apply lang_Class_iff. exists m2. split; [done|]. apply in_range_iff. codes. lia.
Qed.

(** An offset is a time zone of [isoDateTime]. *)
Lemma offset_shape_timeZone s : offset_shape s -> lang timeZone s.
Proof.
  unfold offset_shape, is_digit.
  intros (sg & h1 & h2 & m1 & m2 & -> & Hsg & Hh1 & Hh2 & Hm1 & Hm2 & _).
  unfold timeZone, sign. apply lang_Alt_l. apply lang_Class_Seq_iff.
  eexists sg, _. split; [done|]. split; [by apply in_two_iff|].
  apply lang_Seq_iff. exists (String h1 (String h2 "")), (String ":" (String m1 (String m2 ""))).
  split; [done|]. split; [apply lang_Repeat_2_Class; eauto|].
  apply lang_Chr_Seq_iff. eexists. split; [done|]. apply lang_Repeat_2_Class. eauto.
Qed.

(** *** Names in kebab case *)

Lemma lang_Star_Class items s :
  lang (Star (Class items)) s <-> all_in_class items s = true.
Proof.
  split.
  - intros H. remember (Star (Class items)) as r eqn:E.
    induction H as [| | | | | | |r s1 s2 H1 _ H2 IH2]; try done.
    injection E as ->. apply lang_Class_iff in H1 as (c & -> & Hc).
    simpl. rewrite Hc. by apply IH2.
  - induction s as [|c s IH]; simpl; [constructor|].
    intros [Hc Hs]%andb_true_iff.
    apply (lang_Star_cons (Class items) (String c "") s); [by constructor | auto].
Qed.

Lemma lower_or_digit_not_hyphen c :
  is_lower_or_digit c = true -> Ascii.eqb c "-" = false.
Proof. intros H. by destruct (Ascii.eqb_spec c "-") as [->|]. Qed.

Lemma hyphenated_cons c s :
  is_lower_or_digit c = true -> hyphenated (String c s) = hyphenated s.
Proof. intros H. simpl. by rewrite (lower_or_digit_not_hyphen c H), H. Qed.

Lemma hyphenated_hyphen d s :
  hyphenated (String "-" (String d s)) = is_lower_or_digit d && hyphenated (String d s).
Proof. reflexivity. Qed.

Lemma hyphenated_app w t :
  all_in_class [FromTo "a" "z"; FromTo "0" "9"] w = true ->
  hyphenated t = true -> hyphenated (w +:+ t) = true.
Proof.
  intros Hw Ht. induction w as [|c w IH]; [done|].
  simpl in Hw. apply andb_true_iff in Hw as [Hc Hw].
  rewrite append_cons, hyphenated_cons by done. auto.
Qed.

Lemma lang_hyphen_group s :
  lang (Seq (Chr "-") (Plus lower_or_digit)) s <->
  exists d w, s = String "-" (String d w) /\ is_lower_or_digit d = true /\
              all_in_class [FromTo "a" "z"; FromTo "0" "9"] w = true.
Proof.
  unfold Plus, lower_or_digit. rewrite lang_Chr_Seq_iff. split.
  - intros (s' & -> & (d & w & -> & Hd & Hw%lang_Star_Class)%lang_Class_Seq_iff). eauto.
  - intros (d & w & -> & Hd & Hw). eexists. split; [done|].
    apply lang_Class_Seq_iff. exists d, w. by rewrite lang_Star_Class.
Qed.

Lemma lang_hyphen_groups_hyphenated t : lang hyphen_groups t -> hyphenated t = true.
Proof.
  unfold hyphen_groups. intros H.
  remember (Star (Seq (Chr "-") (Plus lower_or_digit))) as r eqn:E.
  induction H as [| | | | | | |r s1 s2 H1 _ H2 IH2]; try done.
  injection E as ->. apply lang_hyphen_group in H1 as (d & w & -> & Hd & Hw).
  rewrite !append_cons, hyphenated_hyphen, Hd, hyphenated_cons by done.
  apply hyphenated_app; auto.
Qed.

Lemma lang_hyphen_groups_cons c t : lang hyphen_groups (String c t) -> c = "-"%char.
Proof.
  unfold hyphen_groups. intros H.
  remember (Star (Seq (Chr "-") (Plus lower_or_digit))) as r eqn:E.
  remember (String c t) as s eqn:Es.
  induction H as [| | | | | | |r s1 s2 H1 _ H2 IH2]; try done.
  injection E as ->. apply lang_hyphen_group in H1 as (d & w & -> & _).
  rewrite append_cons in Es. by injection Es as -> _.
Qed.

Lemma lang_kebab_tail s :
  lang (Seq (Star lower_or_digit) hyphen_groups) s <-> hyphenated s = true.
Proof.
  rewrite lang_Seq_iff. unfold lower_or_digit. split.
  - intros (w & t & -> & Hw%lang_Star_Class & Ht%lang_hyphen_groups_hyphenated).
    by apply hyphenated_app.
  - induction s as [|c s IH]; intros Hs.
    + exists "", "". split; [done|]. split; constructor.
    + destruct (Ascii.eqb_spec c "-") as [->|Hc].
      * destruct s as [|d s]; [done|].
        rewrite hyphenated_hyphen in Hs. apply andb_true_iff in Hs as [Hd Hs].
        destruct (IH Hs) as (w & t & E & Hw & Ht).
        destruct w as [|d' w].
        { rewrite append_nil_l in E. subst t.
          apply lang_hyphen_groups_cons in Ht as ->. done. }
        rewrite append_cons in E. injection E as <- ->.
        apply lang_Star_Class in Hw. simpl in Hw. apply andb_true_iff in Hw as [_ Hw].
        exists "", (String "-" (String d w) +:+ t). split; [done|].
        split; [constructor|]. apply lang_Star_cons; [|done].
        apply lang_hyphen_group. eauto.
      * assert (hyphenated (String c s) = is_lower_or_digit c && hyphenated s) as E.
        { simpl. apply Ascii.eqb_neq in Hc. by rewrite Hc. }
        rewrite E in Hs. apply andb_true_iff in Hs as [Hd Hs].
        destruct (IH Hs) as (w & t & -> & Hw%lang_Star_Class & Ht).
        exists (String c w), t. split; [done|]. split; [|done].
        apply lang_Star_Class. simpl. by rewrite Hw, andb_true_r.
Qed.

Lemma lang_kebab s : lang kebab s <-> kebab_shape s = true.
Proof.
  unfold kebab, lower. rewrite lang_Class_Seq_iff. split.
  - intros (c & s' & -> & Hc & Hs%lang_kebab_tail). simpl. unfold is_lower.
    by rewrite Hc.
  - destruct s as [|c s]; [done|]. simpl. intros [Hc Hs]%andb_true_iff.
    exists c, s. by rewrite lang_kebab_tail.
Qed.

End PatternShapes.

(** ** Properties of the patterns *)

Module PatternTheorems.
Import Stdlib.Strings.Ascii.
Import Patterns PatternFacts PatternShapes.

(** [utcOffset] accepts exactly the strings made of a sign, two digits of
    hours, a colon and two digits of minutes, with the hours below 24 and
    the minutes below 60. *)
Theorem utcOffset_accepts_hours_and_minutes (s : string) :
  test utcOffset s = true <->
  exists sg h1 h2 m1 m2,
    s = String sg (String h1 (String h2 (String ":" (String m1 (String m2 ""))))) /\
    (sg = "+" \/ sg = "-")%char /\
    is_digit h1 = true /\ is_digit h2 = true /\
    is_digit m1 = true /\ is_digit m2 = true /\
    10 * digit_value h1 + digit_value h2 < 24 /\
    10 * digit_value m1 + digit_value m2 < 60.
Proof.
  unfold test. simpl. rewrite matches_spec. apply lang_utcOffset.
Qed.

(** [locale] accepts exactly two lower-case letters, and two lower-case
    letters, a hyphen and two upper-case letters. *)
Theorem locale_accepts_language_and_region (s : string) :
  test locale s = true <->
  (exists a b, s = String a (String b "") /\ is_lower a = true /\ is_lower b = true) \/
  (exists a b c d,
     s = String a (String b (String "-" (String c (String d "")))) /\
     is_lower a = true /\ is_lower b = true /\ is_upper c = true /\ is_upper d = true).
Proof.
  unfold test. simpl. rewrite matches_spec. unfold lower, upper, is_lower, is_upper.
  rewrite lang_Seq_iff. split.
  - intros (s1 & s2 & -> & (a & b & -> & Ha & Hb)%lang_Repeat_2_Class & H).
    apply lang_Opt_iff in H as [H | ->]; [right | left; eauto].
    apply lang_Chr_Seq_iff in H as (s3 & -> & (c & d & -> & Hc & Hd)%lang_Repeat_2_Class).
    exists a, b, c, d. done.
  - intros [(a & b & -> & Ha & Hb) | (a & b & c & d & -> & Ha & Hb & Hc & Hd)].
    + exists (String a (String b "")), "". split; [done|].
      split; [apply lang_Repeat_2_Class; eauto | apply lang_Opt_iff; by right].
    + exists (String a (String b "")), (String "-" (String c (String d ""))).
      split; [done|]. split; [apply lang_Repeat_2_Class; eauto|].
      apply lang_Opt_iff. left. apply lang_Chr_Seq_iff. eexists. split; [done|].
      apply lang_Repeat_2_Class. eauto.
Qed.

(** [money] accepts exactly a string of digits, and two strings of digits
    joined by a point: no sign, no exponent, no separator of thousands, and
    a digit on each side of the point. *)
Theorem money_accepts_plain_decimals (s : string) :
  test money s = true <->
  number s = true \/
  exists whole fraction,
    s = whole +:+ "." +:+ fraction /\ number whole = true /\ number fraction = true.
Proof.
  unfold test. simpl. rewrite matches_spec, lang_Seq_iff. split.
  - intros (whole & s2 & -> & Hw%lang_Plus_digit & H).
    apply lang_Opt_iff in H as [H | ->]; [right | left; by rewrite append_nil_r].
    apply lang_Chr_Seq_iff in H as (fraction & -> & Hf%lang_Plus_digit).
    exists whole, fraction. done.
  - intros [Hs | (whole & fraction & -> & Hw & Hf)].
    + exists s, "". rewrite append_nil_r, lang_Plus_digit, lang_Opt_iff. auto.
    + exists whole, (String "." fraction). split; [done|].
      rewrite lang_Plus_digit, lang_Opt_iff, lang_Chr_Seq_iff.
      split; [done|]. left. exists fraction. by rewrite lang_Plus_digit.
Qed.

(** [semver] has no [$]: it accepts exactly the strings that start with
    three numbers joined by points, whatever follows them. *)
Theorem semver_accepts_any_continuation (s : string) :
  test semver s = true <->
  exists major minor patch rest,
    s = major +:+ "." +:+ minor +:+ "." +:+ patch +:+ rest /\
    number major = true /\ number minor = true /\ number patch = true.
Proof.
  unfold test. simpl. rewrite matches_prefix_spec. split.
  - intros (s1 & rest & -> & H).
    apply lang_Seq_iff in H as (major & s2 & -> & Hmajor%lang_Plus_digit & H).
    apply lang_Chr_Seq_iff in H as (s3 & -> & H).
    apply lang_Seq_iff in H as (minor & s4 & -> & Hminor%lang_Plus_digit & H).
    apply lang_Chr_Seq_iff in H as (patch & -> & Hpatch%lang_Plus_digit).
    exists major, minor, patch, rest. split; [by flatten | done].
  - intros (major & minor & patch & rest & -> & Hmajor & Hminor & Hpatch).
    exists (major +:+ "." +:+ minor +:+ "." +:+ patch), rest. split; [by flatten|].
    apply lang_Seq_iff. exists major, (String "." (minor +:+ String "." patch)).
    split; [by flatten|]. split; [by apply lang_Plus_digit|].
    apply lang_Chr_Seq_iff. eexists. split; [done|].
    apply lang_Seq_iff. exists minor, (String "." patch).
    split; [done|]. split; [by apply lang_Plus_digit|].
    apply lang_Chr_Seq_iff. eexists. split; [done|]. by apply lang_Plus_digit.
Qed.

(** [protocol] has no [$] either: it accepts exactly the strings that
    start with [http://] or with [https://], in lower case. *)
Theorem protocol_accepts_http_and_https (s : string) :
  test protocol s = true <->
  exists rest, s = "http://" +:+ rest \/ s = "https://" +:+ rest.
Proof.
  unfold test. simpl. rewrite matches_prefix_spec. split.
  - intros (s1 & rest & -> & H). exists rest.
    apply lang_Seq_iff in H as (x & s2 & -> & ->%(lang_Lit_iff "http") & H).
    apply lang_Seq_iff in H as (y & z & -> & Hy%lang_Opt_iff & ->%(lang_Lit_iff "://")).
    destruct Hy as [->%lang_Chr_iff | ->]; [right | left]; done.
  - intros (rest & [-> | ->]).
    + exists "http://", rest. split; [done|].
      apply lang_Seq_iff. exists "http", "://". split; [done|].
      split; [by apply (lang_Lit_iff "http")|].
      apply lang_Seq_iff. exists "", "://". split; [done|].
      split; [apply lang_Opt_iff; by right | by apply (lang_Lit_iff "://")].
    + exists "https://", rest. split; [done|].
      apply lang_Seq_iff. exists "http", "s://". split; [done|].
      split; [by apply (lang_Lit_iff "http")|].
      apply lang_Seq_iff. exists "s", "://". split; [done|].
      split; [apply lang_Opt_iff; left; constructor | by apply (lang_Lit_iff "://")].
Qed.

(** [appName] accepts exactly an at sign, a scope, a slash and a name,
    where the scope and the name are in kebab case: each starts with a
    lower-case letter and goes on with lower-case letters, digits and
    hyphens, with no two hyphens in a row and no hyphen at the end.  So an
    upper-case letter, an underscore, a point or a second slash is refused. *)
Theorem appName_accepts_scoped_kebab_names (s : string) :
  test appName s = true <->
  exists scope name,
    s = "@" +:+ scope +:+ "/" +:+ name /\
    kebab_shape scope = true /\ kebab_shape name = true.
Proof.
  unfold test, appName. cbn [to_end body]. rewrite matches_spec, lang_Chr_Seq_iff. split.
  - intros (s' & -> & (scope & s'' & -> & Hscope%lang_kebab & H)%lang_Seq_iff).
    apply lang_Chr_Seq_iff in H as (name & -> & Hname%lang_kebab).
    exists scope, name. done.
  - intros (scope & name & -> & Hscope & Hname). eexists. split; [done|].
    apply lang_Seq; [by apply lang_kebab|].
    apply lang_Chr_Seq_iff. eexists. split; [done|]. by apply lang_kebab.
Qed.

(** The two patterns for times agree: a local date and time (the first
    group of [isoDateTime]) is accepted by [isoDateTime] as it is, followed
    by [Z], and followed by any offset that [utcOffset] accepts. *)
Theorem isoDateTime_accepts_utcOffset (d : string) :
  matches localDateTime d = true ->
  test isoDateTime d = true /\
  test isoDateTime (d +:+ "Z") = true /\
  forall z, test utcOffset z = true -> test isoDateTime (d +:+ z) = true.
Proof.
  intros Hd%matches_spec. unfold test. simpl. rewrite !matches_spec.
  split; [|split].
  - rewrite <- (append_nil_r d). apply lang_Seq; [done|]. apply lang_Opt_iff. by right.
  - apply lang_Seq; [done|]. apply lang_Opt_iff. left. apply lang_Alt_r. constructor.
  - intros z Hz. rewrite matches_spec. rewrite matches_spec in Hz.
    apply lang_Seq; [done|]. apply lang_Opt_iff. left.
    by apply offset_shape_timeZone, lang_utcOffset.
Qed.

(** *** The patterns at work *)

Lemma isoDateTime_accepts_utcOffset_witness :
  test isoDateTime "2020-01-31T10:20:30" = true /\
  test isoDateTime ("2020-01-31T10:20:30" +:+ "Z") = true /\
  forall z, test utcOffset z = true ->
            test isoDateTime ("2020-01-31T10:20:30" +:+ z) = true.
Proof. apply (isoDateTime_accepts_utcOffset "2020-01-31T10:20:30"). reflexivity. Defined.

Example patterns_examples :
  test utcOffset "+05:30" = true /\ test utcOffset "-23:59" = true /\
  test utcOffset "+24:00" = false /\ test utcOffset "05:30" = false /\
  test isoDateTime "2020-01-31T10:20:30.125+05:30" = true /\
  test isoDateTime "2020-01-31T10:20:30+99:99" = true /\
  test isoDateTime "2020-01-31 10:20:30" = false /\
  test money "12.50" = true /\ test money "12." = false /\ test money "-1" = false /\
  test semver "1.2.3" = true /\ test semver "1.2.3-beta" = true /\
  test semver "1.2" = false /\
  test protocol "https://example.com" = true /\ test protocol "ftp://example.com" = false /\
  test locale "en" = true /\ test locale "en-US" = true /\ test locale "en-us" = false /\
  test appName "@my-company/my-app" = true /\ test appName "@My/app" = false /\
  test appName "my-company/my-app" = false.
Proof. repeat split. Qed.

End PatternTheorems.
